(** * Rose program IR: instructions, the program container, hashing and
    equivalence

    A shallow embedding of [src/rose/rose_build_program.h].

    - Every concrete instruction class of the header is one constructor of
      [RoseInstruction]; its data members are the constructor's arguments, in
      declaration order.
    - An instruction object lives at an address ([ptr]); a target is the
      address of another instruction.  A [unique_ptr] slot either is null or
      owns one object: the address together with the object's contents.
    - [assert] is compiled out when [NDEBUG] is defined, so the container
      operations are parametric in [NDEBUG]; a failed assertion, a null or
      past-the-end dereference and an uncaught [std::out_of_range] are all the
      result [None].
    - The numeric values of [enum RoseInstructionCode] (declared in
      [rose_program.h]) are a parameter, [code_value].

    The SIMD primitives of [src/util/arch/arm/simd_utils.h] are embedded in
    the module [Simd], at the end. *)

From Stdlib Require Import ZArith Lia.
From stdpp Require Import base option list numbers gmap.

Open Scope Z_scope.

(** ** Machine integers and addresses *)

(** Addresses of instruction objects; [nullptr] is address zero. *)
Abbreviation ptr := N.
Definition nullptr : ptr := 0%N.

(** Conversion of an integer to [size_t] (64 bits, wrap-around). *)
Definition to_size_t (x : Z) : Z := x mod 2 ^ 64.

(** Modelled from the spec: [boost::hash_combine] belongs to Boost and is not
    under src/; section 4.4 gives the mixing function
    [acc ^= h + 0x9e3779b9 + (acc << 6) + (acc >> 2)], here on 64-bit
    [size_t].  The hash of an integer is the integer converted to [size_t]. *)
Definition hash_combine (seed v : Z) : Z :=
  Z.lxor seed
    (to_size_t (to_size_t v + 0x9e3779b9 + Z.shiftl seed 6 + Z.shiftr seed 2)).

(** [boost::hash_range]: the hash of a [std::array] or a [std::vector]. *)
Definition hash_range (l : list Z) : Z := fold_left hash_combine l 0.

(** [hash_combine(v, x)] for a container-valued [x]. *)
Definition hash_combine_range (seed : Z) (l : list Z) : Z :=
  hash_combine seed (hash_range l).

(** Comparison with [==]. *)
Definition eqb_ {A} `{EqDecision A} (x y : A) : bool := bool_decide (x = y).
Infix "==" := eqb_ (at level 70, no associativity).

(** ** The opcode catalogue *)

Inductive RoseInstructionCode :=
  | ROSE_INSTR_ANCHORED_DELAY
  | ROSE_INSTR_CHECK_LIT_EARLY
  | ROSE_INSTR_CHECK_GROUPS
  | ROSE_INSTR_CHECK_ONLY_EOD
  | ROSE_INSTR_CHECK_BOUNDS
  | ROSE_INSTR_CHECK_NOT_HANDLED
  | ROSE_INSTR_CHECK_LOOKAROUND
  | ROSE_INSTR_CHECK_MASK
  | ROSE_INSTR_CHECK_MASK_32
  | ROSE_INSTR_CHECK_BYTE
  | ROSE_INSTR_CHECK_INFIX
  | ROSE_INSTR_CHECK_PREFIX
  | ROSE_INSTR_PUSH_DELAYED
  | ROSE_INSTR_RECORD_ANCHORED
  | ROSE_INSTR_CATCH_UP
  | ROSE_INSTR_CATCH_UP_MPV
  | ROSE_INSTR_SOM_ADJUST
  | ROSE_INSTR_SOM_LEFTFIX
  | ROSE_INSTR_SOM_FROM_REPORT
  | ROSE_INSTR_SOM_ZERO
  | ROSE_INSTR_TRIGGER_INFIX
  | ROSE_INSTR_TRIGGER_SUFFIX
  | ROSE_INSTR_DEDUPE
  | ROSE_INSTR_DEDUPE_SOM
  | ROSE_INSTR_REPORT_CHAIN
  | ROSE_INSTR_REPORT_SOM_INT
  | ROSE_INSTR_REPORT_SOM_AWARE
  | ROSE_INSTR_REPORT
  | ROSE_INSTR_REPORT_EXHAUST
  | ROSE_INSTR_REPORT_SOM
  | ROSE_INSTR_REPORT_SOM_EXHAUST
  | ROSE_INSTR_DEDUPE_AND_REPORT
  | ROSE_INSTR_FINAL_REPORT
  | ROSE_INSTR_CHECK_EXHAUSTED
  | ROSE_INSTR_CHECK_MIN_LENGTH
  | ROSE_INSTR_SET_STATE
  | ROSE_INSTR_SET_GROUPS
  | ROSE_INSTR_SQUASH_GROUPS
  | ROSE_INSTR_CHECK_STATE
  | ROSE_INSTR_SPARSE_ITER_BEGIN
  | ROSE_INSTR_SPARSE_ITER_NEXT
  | ROSE_INSTR_SPARSE_ITER_ANY
  | ROSE_INSTR_ENGINES_EOD
  | ROSE_INSTR_SUFFIXES_EOD
  | ROSE_INSTR_MATCHER_EOD
  | ROSE_INSTR_END.

#[global] Instance RoseInstructionCode_eq_dec : EqDecision RoseInstructionCode.
Proof. solve_decision. Defined.

(** [struct som_operation] is declared in [som/som_operation.h], which is not
    under src/.  The header reads its members [type] and [onmatch] and compares
    whole objects with [memcmp]; [som_rest] stands for the bytes of the object
    representation that follow those two members. *)
Record som_operation := {
  som_type : Z;
  som_onmatch : Z;
  som_rest : list Z
}.

#[global] Instance som_operation_eq_dec : EqDecision som_operation.
Proof. solve_decision. Defined.

(** ** Instructions *)

(** One constructor per concrete class.  [u8], [u32], [u64a], [s32],
    [ReportID] and [rose_group] members are integers, [std::array<u8, 32>] and
    [std::vector<u32>] are lists, a [const RoseInstruction *] (and the
    [const RoseInstrSparseIterBegin *] of SPARSE_ITER_NEXT) is a [ptr].  The
    three trailing arguments of [RoseInstrSparseIterBegin] are its private
    mutable members [is_written], [iter_offset] and [jump_table_offset]. *)
Inductive RoseInstruction :=
  | RoseInstrAnchoredDelay (groups : Z) (target : ptr)
  | RoseInstrCheckLitEarly (min_offset : Z)
  | RoseInstrCheckGroups (groups : Z)
  | RoseInstrCheckOnlyEod (target : ptr)
  | RoseInstrCheckBounds (min_bound max_bound : Z) (target : ptr)
  | RoseInstrCheckNotHandled (key : Z) (target : ptr)
  | RoseInstrCheckLookaround (index count : Z) (target : ptr)
  | RoseInstrCheckMask (and_mask cmp_mask neg_mask offset : Z) (target : ptr)
  | RoseInstrCheckMask32 (and_mask cmp_mask : list Z) (neg_mask offset : Z)
      (target : ptr)
  | RoseInstrCheckByte (and_mask cmp_mask negation offset : Z) (target : ptr)
  | RoseInstrCheckInfix (queue lag report : Z) (target : ptr)
  | RoseInstrCheckPrefix (queue lag report : Z) (target : ptr)
  | RoseInstrPushDelayed (delay index : Z)
  | RoseInstrRecordAnchored (id : Z)
  | RoseInstrCatchUp
  | RoseInstrCatchUpMpv
  | RoseInstrSomAdjust (distance : Z)
  | RoseInstrSomLeftfix (queue lag : Z)
  | RoseInstrSomFromReport (som : som_operation)
  | RoseInstrSomZero
  | RoseInstrTriggerInfix (cancel queue event : Z)
  | RoseInstrTriggerSuffix (queue event : Z)
  | RoseInstrDedupe (quash_som dkey offset_adjust : Z) (target : ptr)
  | RoseInstrDedupeSom (quash_som dkey offset_adjust : Z) (target : ptr)
  | RoseInstrReportChain (event top_squash_distance : Z)
  | RoseInstrReportSomInt (som : som_operation)
  | RoseInstrReportSomAware (som : som_operation)
  | RoseInstrReport (onmatch offset_adjust : Z)
  | RoseInstrReportExhaust (onmatch offset_adjust ekey : Z)
  | RoseInstrReportSom (onmatch offset_adjust : Z)
  | RoseInstrReportSomExhaust (onmatch offset_adjust ekey : Z)
  | RoseInstrDedupeAndReport (quash_som dkey onmatch offset_adjust : Z)
      (target : ptr)
  | RoseInstrFinalReport (onmatch offset_adjust : Z)
  | RoseInstrCheckExhausted (ekey : Z) (target : ptr)
  | RoseInstrCheckMinLength (end_adj min_length : Z) (target : ptr)
  | RoseInstrSetState (index : Z)
  | RoseInstrSetGroups (groups : Z)
  | RoseInstrSquashGroups (groups : Z)
  | RoseInstrCheckState (index : Z) (target : ptr)
  | RoseInstrSparseIterBegin (num_keys : Z) (jump_table : list (Z * ptr))
      (target : ptr) (is_written : bool) (iter_offset jump_table_offset : Z)
  | RoseInstrSparseIterNext (state : Z) (begin : ptr) (target : ptr)
  | RoseInstrSparseIterAny (num_keys : Z) (keys : list Z) (target : ptr)
  | RoseInstrEnginesEod (iter_offset : Z)
  | RoseInstrSuffixesEod
  | RoseInstrMatcherEod
  | RoseInstrEnd.

#[global] Instance RoseInstruction_eq_dec : EqDecision RoseInstruction.
Proof. solve_decision. Defined.

(** [RoseInstrBase::code]: the template argument [Opcode] of each class. *)
Definition code (ri : RoseInstruction) : RoseInstructionCode :=
  match ri with
  | RoseInstrAnchoredDelay _ _ => ROSE_INSTR_ANCHORED_DELAY
  | RoseInstrCheckLitEarly _ => ROSE_INSTR_CHECK_LIT_EARLY
  | RoseInstrCheckGroups _ => ROSE_INSTR_CHECK_GROUPS
  | RoseInstrCheckOnlyEod _ => ROSE_INSTR_CHECK_ONLY_EOD
  | RoseInstrCheckBounds _ _ _ => ROSE_INSTR_CHECK_BOUNDS
  | RoseInstrCheckNotHandled _ _ => ROSE_INSTR_CHECK_NOT_HANDLED
  | RoseInstrCheckLookaround _ _ _ => ROSE_INSTR_CHECK_LOOKAROUND
  | RoseInstrCheckMask _ _ _ _ _ => ROSE_INSTR_CHECK_MASK
  | RoseInstrCheckMask32 _ _ _ _ _ => ROSE_INSTR_CHECK_MASK_32
  | RoseInstrCheckByte _ _ _ _ _ => ROSE_INSTR_CHECK_BYTE
  | RoseInstrCheckInfix _ _ _ _ => ROSE_INSTR_CHECK_INFIX
  | RoseInstrCheckPrefix _ _ _ _ => ROSE_INSTR_CHECK_PREFIX
  | RoseInstrPushDelayed _ _ => ROSE_INSTR_PUSH_DELAYED
  | RoseInstrRecordAnchored _ => ROSE_INSTR_RECORD_ANCHORED
  | RoseInstrCatchUp => ROSE_INSTR_CATCH_UP
  | RoseInstrCatchUpMpv => ROSE_INSTR_CATCH_UP_MPV
  | RoseInstrSomAdjust _ => ROSE_INSTR_SOM_ADJUST
  | RoseInstrSomLeftfix _ _ => ROSE_INSTR_SOM_LEFTFIX
  | RoseInstrSomFromReport _ => ROSE_INSTR_SOM_FROM_REPORT
  | RoseInstrSomZero => ROSE_INSTR_SOM_ZERO
  | RoseInstrTriggerInfix _ _ _ => ROSE_INSTR_TRIGGER_INFIX
  | RoseInstrTriggerSuffix _ _ => ROSE_INSTR_TRIGGER_SUFFIX
  | RoseInstrDedupe _ _ _ _ => ROSE_INSTR_DEDUPE
  | RoseInstrDedupeSom _ _ _ _ => ROSE_INSTR_DEDUPE_SOM
  | RoseInstrReportChain _ _ => ROSE_INSTR_REPORT_CHAIN
  | RoseInstrReportSomInt _ => ROSE_INSTR_REPORT_SOM_INT
  | RoseInstrReportSomAware _ => ROSE_INSTR_REPORT_SOM_AWARE
  | RoseInstrReport _ _ => ROSE_INSTR_REPORT
  | RoseInstrReportExhaust _ _ _ => ROSE_INSTR_REPORT_EXHAUST
  | RoseInstrReportSom _ _ => ROSE_INSTR_REPORT_SOM
  | RoseInstrReportSomExhaust _ _ _ => ROSE_INSTR_REPORT_SOM_EXHAUST
  | RoseInstrDedupeAndReport _ _ _ _ _ => ROSE_INSTR_DEDUPE_AND_REPORT
  | RoseInstrFinalReport _ _ => ROSE_INSTR_FINAL_REPORT
  | RoseInstrCheckExhausted _ _ => ROSE_INSTR_CHECK_EXHAUSTED
  | RoseInstrCheckMinLength _ _ _ => ROSE_INSTR_CHECK_MIN_LENGTH
  | RoseInstrSetState _ => ROSE_INSTR_SET_STATE
  | RoseInstrSetGroups _ => ROSE_INSTR_SET_GROUPS
  | RoseInstrSquashGroups _ => ROSE_INSTR_SQUASH_GROUPS
  | RoseInstrCheckState _ _ => ROSE_INSTR_CHECK_STATE
  | RoseInstrSparseIterBegin _ _ _ _ _ _ => ROSE_INSTR_SPARSE_ITER_BEGIN
  | RoseInstrSparseIterNext _ _ _ => ROSE_INSTR_SPARSE_ITER_NEXT
  | RoseInstrSparseIterAny _ _ _ => ROSE_INSTR_SPARSE_ITER_ANY
  | RoseInstrEnginesEod _ => ROSE_INSTR_ENGINES_EOD
  | RoseInstrSuffixesEod => ROSE_INSTR_SUFFIXES_EOD
  | RoseInstrMatcherEod => ROSE_INSTR_MATCHER_EOD
  | RoseInstrEnd => ROSE_INSTR_END
  end.

(** An example numbering of the enumerators, for the concrete runs below:
    the default numbering of a C enumeration, from 0 in the order above. *)
Definition example_code_value (c : RoseInstructionCode) : Z :=
  match c with
  | ROSE_INSTR_ANCHORED_DELAY => 0
  | ROSE_INSTR_CHECK_LIT_EARLY => 1
  | ROSE_INSTR_CHECK_GROUPS => 2
  | ROSE_INSTR_CHECK_ONLY_EOD => 3
  | ROSE_INSTR_CHECK_BOUNDS => 4
  | ROSE_INSTR_CHECK_NOT_HANDLED => 5
  | ROSE_INSTR_CHECK_LOOKAROUND => 6
  | ROSE_INSTR_CHECK_MASK => 7
  | ROSE_INSTR_CHECK_MASK_32 => 8
  | ROSE_INSTR_CHECK_BYTE => 9
  | ROSE_INSTR_CHECK_INFIX => 10
  | ROSE_INSTR_CHECK_PREFIX => 11
  | ROSE_INSTR_PUSH_DELAYED => 12
  | ROSE_INSTR_RECORD_ANCHORED => 13
  | ROSE_INSTR_CATCH_UP => 14
  | ROSE_INSTR_CATCH_UP_MPV => 15
  | ROSE_INSTR_SOM_ADJUST => 16
  | ROSE_INSTR_SOM_LEFTFIX => 17
  | ROSE_INSTR_SOM_FROM_REPORT => 18
  | ROSE_INSTR_SOM_ZERO => 19
  | ROSE_INSTR_TRIGGER_INFIX => 20
  | ROSE_INSTR_TRIGGER_SUFFIX => 21
  | ROSE_INSTR_DEDUPE => 22
  | ROSE_INSTR_DEDUPE_SOM => 23
  | ROSE_INSTR_REPORT_CHAIN => 24
  | ROSE_INSTR_REPORT_SOM_INT => 25
  | ROSE_INSTR_REPORT_SOM_AWARE => 26
  | ROSE_INSTR_REPORT => 27
  | ROSE_INSTR_REPORT_EXHAUST => 28
  | ROSE_INSTR_REPORT_SOM => 29
  | ROSE_INSTR_REPORT_SOM_EXHAUST => 30
  | ROSE_INSTR_DEDUPE_AND_REPORT => 31
  | ROSE_INSTR_FINAL_REPORT => 32
  | ROSE_INSTR_CHECK_EXHAUSTED => 33
  | ROSE_INSTR_CHECK_MIN_LENGTH => 34
  | ROSE_INSTR_SET_STATE => 35
  | ROSE_INSTR_SET_GROUPS => 36
  | ROSE_INSTR_SQUASH_GROUPS => 37
  | ROSE_INSTR_CHECK_STATE => 38
  | ROSE_INSTR_SPARSE_ITER_BEGIN => 39
  | ROSE_INSTR_SPARSE_ITER_NEXT => 40
  | ROSE_INSTR_SPARSE_ITER_ANY => 41
  | ROSE_INSTR_ENGINES_EOD => 42
  | ROSE_INSTR_SUFFIXES_EOD => 43
  | ROSE_INSTR_MATCHER_EOD => 44
  | ROSE_INSTR_END => 45
  end.

(** ** Target fields and payload *)

(** The pointer-typed members of an instruction, in declaration order (for
    SPARSE_ITER_BEGIN: the second components of [jump_table], then
    [target]; for SPARSE_ITER_NEXT: [begin], then [target]). *)
Definition targets (ri : RoseInstruction) : list ptr :=
  match ri with
  | RoseInstrAnchoredDelay _ t | RoseInstrCheckOnlyEod t
  | RoseInstrCheckBounds _ _ t | RoseInstrCheckNotHandled _ t
  | RoseInstrCheckLookaround _ _ t | RoseInstrCheckMask _ _ _ _ t
  | RoseInstrCheckMask32 _ _ _ _ t | RoseInstrCheckByte _ _ _ _ t
  | RoseInstrCheckInfix _ _ _ t | RoseInstrCheckPrefix _ _ _ t
  | RoseInstrDedupe _ _ _ t | RoseInstrDedupeSom _ _ _ t
  | RoseInstrDedupeAndReport _ _ _ _ t | RoseInstrCheckExhausted _ t
  | RoseInstrCheckMinLength _ _ t | RoseInstrCheckState _ t
  | RoseInstrSparseIterAny _ _ t => [t]
  | RoseInstrSparseIterBegin _ jt t _ _ _ => (snd <$> jt) ++ [t]
  | RoseInstrSparseIterNext _ b t => [b; t]
  | _ => []
  end.

(** The instruction with every pointer-typed member overwritten by
    [nullptr]: what is left are its non-target members. *)
Definition clear_targets (ri : RoseInstruction) : RoseInstruction :=
  match ri with
  | RoseInstrAnchoredDelay g _ => RoseInstrAnchoredDelay g nullptr
  | RoseInstrCheckOnlyEod _ => RoseInstrCheckOnlyEod nullptr
  | RoseInstrCheckBounds a b _ => RoseInstrCheckBounds a b nullptr
  | RoseInstrCheckNotHandled k _ => RoseInstrCheckNotHandled k nullptr
  | RoseInstrCheckLookaround i c _ => RoseInstrCheckLookaround i c nullptr
  | RoseInstrCheckMask a c n o _ => RoseInstrCheckMask a c n o nullptr
  | RoseInstrCheckMask32 a c n o _ => RoseInstrCheckMask32 a c n o nullptr
  | RoseInstrCheckByte a c n o _ => RoseInstrCheckByte a c n o nullptr
  | RoseInstrCheckInfix q l r _ => RoseInstrCheckInfix q l r nullptr
  | RoseInstrCheckPrefix q l r _ => RoseInstrCheckPrefix q l r nullptr
  | RoseInstrDedupe q d o _ => RoseInstrDedupe q d o nullptr
  | RoseInstrDedupeSom q d o _ => RoseInstrDedupeSom q d o nullptr
  | RoseInstrDedupeAndReport q d m o _ =>
      RoseInstrDedupeAndReport q d m o nullptr
  | RoseInstrCheckExhausted e _ => RoseInstrCheckExhausted e nullptr
  | RoseInstrCheckMinLength e m _ => RoseInstrCheckMinLength e m nullptr
  | RoseInstrCheckState i _ => RoseInstrCheckState i nullptr
  | RoseInstrSparseIterAny n ks _ => RoseInstrSparseIterAny n ks nullptr
  | RoseInstrSparseIterBegin n jt _ w io jo =>
      RoseInstrSparseIterBegin n ((fun j => (j.1, nullptr)) <$> jt) nullptr
        w io jo
  | RoseInstrSparseIterNext s _ _ => RoseInstrSparseIterNext s nullptr nullptr
  | _ => ri
  end.

(** The private members of SPARSE_ITER_BEGIN that [write] fills in
    ([is_written], [iter_offset], [jump_table_offset]); no other class has
    such members. *)
Definition emission_state (ri : RoseInstruction) : option (bool * Z * Z) :=
  match ri with
  | RoseInstrSparseIterBegin _ _ _ w io jo => Some (w, io, jo)
  | _ => None
  end.

(** The private member [iter_offset] of a SPARSE_ITER_BEGIN. *)
Definition begin_iter_offset (ri : RoseInstruction) : Z :=
  match ri with
  | RoseInstrSparseIterBegin _ _ _ _ io _ => io
  | _ => 0
  end.

(** The instruction as freshly constructed: emission state at its default
    member initialisers. *)
Definition clear_emission (ri : RoseInstruction) : RoseInstruction :=
  match ri with
  | RoseInstrSparseIterBegin n jt t _ _ _ =>
      RoseInstrSparseIterBegin n jt t false 0 0
  | _ => ri
  end.

(** The non-target payload of an instruction: its public data members other
    than pointers. *)
Definition payload (ri : RoseInstruction) : RoseInstruction :=
  clear_emission (clear_targets ri).

(** The keys of the jump table of a SPARSE_ITER_BEGIN. *)
Definition jump_keys (ri : RoseInstruction) : list Z :=
  match ri with
  | RoseInstrSparseIterBegin _ jt _ _ _ _ => fst <$> jt
  | _ => []
  end.

(** ** [update_target] without the assertion *)

(** [if (x == old_target) x = new_target;] on one pointer member. *)
Definition retarget (old_target new_target t : ptr) : ptr :=
  if t == old_target then new_target else t.

(** [RoseInstruction::update_target] of a class in the build where the
    assertion of SPARSE_ITER_NEXT holds or is compiled out: every class
    derived from [RoseInstrBaseOneTarget] rewrites [target], the classes
    derived from [RoseInstrBaseNoTargets] do nothing, SPARSE_ITER_BEGIN
    rewrites [target] and each [jump.second], SPARSE_ITER_NEXT rewrites
    [target] and [begin]. *)
Definition update_target_pure (old_target new_target : ptr)
    (ri : RoseInstruction) : RoseInstruction :=
  let rt := retarget old_target new_target in
  match ri with
  | RoseInstrAnchoredDelay g t => RoseInstrAnchoredDelay g (rt t)
  | RoseInstrCheckOnlyEod t => RoseInstrCheckOnlyEod (rt t)
  | RoseInstrCheckBounds a b t => RoseInstrCheckBounds a b (rt t)
  | RoseInstrCheckNotHandled k t => RoseInstrCheckNotHandled k (rt t)
  | RoseInstrCheckLookaround i c t => RoseInstrCheckLookaround i c (rt t)
  | RoseInstrCheckMask a c n o t => RoseInstrCheckMask a c n o (rt t)
  | RoseInstrCheckMask32 a c n o t => RoseInstrCheckMask32 a c n o (rt t)
  | RoseInstrCheckByte a c n o t => RoseInstrCheckByte a c n o (rt t)
  | RoseInstrCheckInfix q l r t => RoseInstrCheckInfix q l r (rt t)
  | RoseInstrCheckPrefix q l r t => RoseInstrCheckPrefix q l r (rt t)
  | RoseInstrDedupe q d o t => RoseInstrDedupe q d o (rt t)
  | RoseInstrDedupeSom q d o t => RoseInstrDedupeSom q d o (rt t)
  | RoseInstrDedupeAndReport q d m o t =>
      RoseInstrDedupeAndReport q d m o (rt t)
  | RoseInstrCheckExhausted e t => RoseInstrCheckExhausted e (rt t)
  | RoseInstrCheckMinLength e m t => RoseInstrCheckMinLength e m (rt t)
  | RoseInstrCheckState i t => RoseInstrCheckState i (rt t)
  | RoseInstrSparseIterAny n ks t => RoseInstrSparseIterAny n ks (rt t)
  | RoseInstrSparseIterBegin n jt t w io jo =>
      RoseInstrSparseIterBegin n ((fun j => (j.1, rt j.2)) <$> jt) (rt t)
        w io jo
  | RoseInstrSparseIterNext s b t => RoseInstrSparseIterNext s (rt b) (rt t)
  | RoseInstrCheckLitEarly _ | RoseInstrCheckGroups _
  | RoseInstrPushDelayed _ _ | RoseInstrRecordAnchored _
  | RoseInstrCatchUp | RoseInstrCatchUpMpv | RoseInstrSomAdjust _
  | RoseInstrSomLeftfix _ _ | RoseInstrSomFromReport _ | RoseInstrSomZero
  | RoseInstrTriggerInfix _ _ _ | RoseInstrTriggerSuffix _ _
  | RoseInstrReportChain _ _ | RoseInstrReportSomInt _
  | RoseInstrReportSomAware _ | RoseInstrReport _ _
  | RoseInstrReportExhaust _ _ _ | RoseInstrReportSom _ _
  | RoseInstrReportSomExhaust _ _ _ | RoseInstrFinalReport _ _
  | RoseInstrSetState _ | RoseInstrSetGroups _ | RoseInstrSquashGroups _
  | RoseInstrEnginesEod _ | RoseInstrSuffixesEod | RoseInstrMatcherEod
  | RoseInstrEnd => ri
  end.

(** ** Offset maps and [equiv] *)

(** [offsets.at(t) == other_offsets.at(t')]; [at] throws [std::out_of_range]
    on a missing key. *)
Definition at_eq (offsets other_offsets : gmap N Z) (t t' : ptr)
    : option bool :=
  x ← offsets !! t; y ← other_offsets !! t'; Some (x == y).

(** [b && k] where evaluating [k] may throw: [k] is not evaluated when [b]
    is false. *)
Definition and_then (b : bool) (k : option bool) : option bool :=
  if b then k else Some false.

(** The loop of [RoseInstrSparseIterBegin::equiv_to] over both jump tables
    ([it2] is dereferenced without a bound of its own; the size test before
    the loop keeps it in range). *)
Fixpoint jump_table_equiv (offsets other_offsets : gmap N Z)
    (jt1 jt2 : list (Z * ptr)) : option bool :=
  match jt1 with
  | [] => Some true
  | (k1, t1) :: r1 =>
      match jt2 with
      | [] => None
      | (k2, t2) :: r2 =>
          if negb (k1 == k2) then Some false
          else
            same ← at_eq offsets other_offsets t1 t2;
            if negb same then Some false
            else jump_table_equiv offsets other_offsets r1 r2
      end
  end.

(** [RoseInstruction::equiv], that is [RoseInstrBase::equiv_impl]: the
    [dynamic_cast] of [other] to the class of [this] fails on any other
    class; on the same class the result is the class's [equiv_to]. *)
Definition equiv (this other : RoseInstruction)
    (offsets other_offsets : gmap N Z) : option bool :=
  let ateq := at_eq offsets other_offsets in
  match this, other with
  | RoseInstrAnchoredDelay g t, RoseInstrAnchoredDelay g' t' =>
      and_then (g == g') (ateq t t')
  | RoseInstrCheckLitEarly m, RoseInstrCheckLitEarly m' => Some (m == m')
  | RoseInstrCheckGroups g, RoseInstrCheckGroups g' => Some (g == g')
  | RoseInstrCheckOnlyEod t, RoseInstrCheckOnlyEod t' => ateq t t'
  | RoseInstrCheckBounds a b t, RoseInstrCheckBounds a' b' t' =>
      and_then ((a == a') && (b == b')) (ateq t t')
  | RoseInstrCheckNotHandled k t, RoseInstrCheckNotHandled k' t' =>
      and_then (k == k') (ateq t t')
  | RoseInstrCheckLookaround i c t, RoseInstrCheckLookaround i' c' t' =>
      and_then ((i == i') && (c == c')) (ateq t t')
  | RoseInstrCheckMask a c n o t, RoseInstrCheckMask a' c' n' o' t' =>
      and_then ((a == a') && (c == c') && (n == n') && (o == o')) (ateq t t')
  | RoseInstrCheckMask32 a c n o t, RoseInstrCheckMask32 a' c' n' o' t' =>
      and_then ((a == a') && (c == c') && (n == n') && (o == o')) (ateq t t')
  | RoseInstrCheckByte a c n o t, RoseInstrCheckByte a' c' n' o' t' =>
      and_then ((a == a') && (c == c') && (n == n') && (o == o')) (ateq t t')
  | RoseInstrCheckInfix q l r t, RoseInstrCheckInfix q' l' r' t' =>
      and_then ((q == q') && (l == l') && (r == r')) (ateq t t')
  | RoseInstrCheckPrefix q l r t, RoseInstrCheckPrefix q' l' r' t' =>
      and_then ((q == q') && (l == l') && (r == r')) (ateq t t')
  | RoseInstrPushDelayed d i, RoseInstrPushDelayed d' i' =>
      Some ((d == d') && (i == i'))
  | RoseInstrRecordAnchored i, RoseInstrRecordAnchored i' => Some (i == i')
  | RoseInstrCatchUp, RoseInstrCatchUp => Some true
  | RoseInstrCatchUpMpv, RoseInstrCatchUpMpv => Some true
  | RoseInstrSomAdjust d, RoseInstrSomAdjust d' => Some (d == d')
  | RoseInstrSomLeftfix q l, RoseInstrSomLeftfix q' l' =>
      Some ((q == q') && (l == l'))
  | RoseInstrSomFromReport s, RoseInstrSomFromReport s' => Some (s == s')
  | RoseInstrSomZero, RoseInstrSomZero => Some true
  | RoseInstrTriggerInfix c q e, RoseInstrTriggerInfix c' q' e' =>
      Some ((c == c') && (q == q') && (e == e'))
  | RoseInstrTriggerSuffix q e, RoseInstrTriggerSuffix q' e' =>
      Some ((q == q') && (e == e'))
  | RoseInstrDedupe q d o t, RoseInstrDedupe q' d' o' t' =>
      and_then ((q == q') && (d == d') && (o == o')) (ateq t t')
  | RoseInstrDedupeSom q d o t, RoseInstrDedupeSom q' d' o' t' =>
      and_then ((q == q') && (d == d') && (o == o')) (ateq t t')
  | RoseInstrReportChain e d, RoseInstrReportChain e' d' =>
      Some ((e == e') && (d == d'))
  | RoseInstrReportSomInt s, RoseInstrReportSomInt s' => Some (s == s')
  | RoseInstrReportSomAware s, RoseInstrReportSomAware s' => Some (s == s')
  | RoseInstrReport m o, RoseInstrReport m' o' =>
      Some ((m == m') && (o == o'))
  | RoseInstrReportExhaust m o e, RoseInstrReportExhaust m' o' e' =>
      Some ((m == m') && (o == o') && (e == e'))
  | RoseInstrReportSom m o, RoseInstrReportSom m' o' =>
      Some ((m == m') && (o == o'))
  | RoseInstrReportSomExhaust m o e, RoseInstrReportSomExhaust m' o' e' =>
      Some ((m == m') && (o == o') && (e == e'))
  | RoseInstrDedupeAndReport q d m o t,
    RoseInstrDedupeAndReport q' d' m' o' t' =>
      and_then ((q == q') && (d == d') && (m == m') && (o == o')) (ateq t t')
  | RoseInstrFinalReport m o, RoseInstrFinalReport m' o' =>
      Some ((m == m') && (o == o'))
  | RoseInstrCheckExhausted e t, RoseInstrCheckExhausted e' t' =>
      and_then (e == e') (ateq t t')
  | RoseInstrCheckMinLength e m t, RoseInstrCheckMinLength e' m' t' =>
      and_then ((e == e') && (m == m')) (ateq t t')
  | RoseInstrSetState i, RoseInstrSetState i' => Some (i == i')
  | RoseInstrSetGroups g, RoseInstrSetGroups g' => Some (g == g')
  | RoseInstrSquashGroups g, RoseInstrSquashGroups g' => Some (g == g')
  | RoseInstrCheckState i t, RoseInstrCheckState i' t' =>
      and_then (i == i') (ateq t t')
  | RoseInstrSparseIterBegin _ jt t _ io _,
    RoseInstrSparseIterBegin _ jt' t' _ io' _ =>
      if negb (io == io') then Some false
      else
        same ← ateq t t';
        if negb same then Some false
        else if negb (length jt == length jt') then Some false
        else jump_table_equiv offsets other_offsets jt jt'
  | RoseInstrSparseIterNext s b t, RoseInstrSparseIterNext s' b' t' =>
      and_then (s == s') (bs ← ateq b b'; and_then bs (ateq t t'))
  | RoseInstrSparseIterAny n ks t, RoseInstrSparseIterAny n' ks' t' =>
      and_then ((n == n') && (ks == ks')) (ateq t t')
  | RoseInstrEnginesEod i, RoseInstrEnginesEod i' => Some (i == i')
  | RoseInstrSuffixesEod, RoseInstrSuffixesEod => Some true
  | RoseInstrMatcherEod, RoseInstrMatcherEod => Some true
  | RoseInstrEnd, RoseInstrEnd => Some true
  | _, _ => Some false
  end.

(** The classes derived from [RoseInstrBaseTrivial]. *)
Definition trivial_class (ri : RoseInstruction) : bool :=
  match ri with
  | RoseInstrCatchUp | RoseInstrCatchUpMpv | RoseInstrSomZero
  | RoseInstrSuffixesEod | RoseInstrMatcherEod | RoseInstrEnd => true
  | _ => false
  end.

(** The member [begin] of a SPARSE_ITER_NEXT. *)
Definition begin_field (ri : RoseInstruction) : option ptr :=
  match ri with
  | RoseInstrSparseIterNext _ b _ => Some b
  | _ => None
  end.

(** Both offset maps know the two targets and give them the same offset. *)
Definition same_offset (offsets other_offsets : gmap N Z) (t t' : ptr)
    : Prop :=
  exists o, offsets !! t = Some o /\ other_offsets !! t' = Some o.

(** [ri'] is [ri] with every target field that held [old_target] now
    holding [new_target], and nothing else changed. *)
Definition rewritten (old_target new_target : ptr)
    (ri ri' : RoseInstruction) : Prop :=
  payload ri' = payload ri /\
  emission_state ri' = emission_state ri /\
  targets ri' =
    (fun t => if decide (t = old_target) then new_target else t)
      <$> targets ri.

(** ** Programs *)

(** A [std::unique_ptr<RoseInstruction>]: null, or owning the object at an
    address. *)
Abbreviation unique_ptr := (option (ptr * RoseInstruction)).

(** [unique_ptr::get]. *)
Definition get (u : unique_ptr) : ptr :=
  match u with
  | Some (a, _) => a
  | None => nullptr
  end.

(** [u->code()]: dereferences the pointer. *)
Definition code_of (u : unique_ptr) : option RoseInstructionCode :=
  '(_, ri) ← u; Some (code ri).

(** [RoseProgram]: its only data member, the vector [prog]. *)
Abbreviation RoseProgram := (list unique_ptr).

(** The vector of a program all of whose slots own an instruction. *)
Definition owned (l : list (ptr * RoseInstruction)) : RoseProgram :=
  Some <$> l.

(** The addresses of the instructions a program owns. *)
Definition addresses (l : list (ptr * RoseInstruction)) : list ptr :=
  fst <$> l.

(** The slots of a vector whose elements have been moved out with
    [std::make_move_iterator]: a moved-from [unique_ptr] is null. *)
Definition moved_from (v : list unique_ptr) : list unique_ptr :=
  (fun _ => None) <$> v.

(** [update_target_pure] on every instruction of a list, addresses kept. *)
Definition update_all (old_target new_target : ptr)
    (l : list (ptr * RoseInstruction)) : list (ptr * RoseInstruction) :=
  prod_map id (update_target_pure old_target new_target) <$> l.

(** [l'] holds the instructions of [l], each at its address and in its
    place, with the targets that held [old_target] rewritten. *)
Definition retargeted (old_target new_target : ptr)
    (l l' : list (ptr * RoseInstruction)) : Prop :=
  Forall2 (fun x x' => x'.1 = x.1 /\ rewritten old_target new_target x.2 x'.2)
    l l'.

(** The instructions a vector of slots owns, in order. *)
Definition instructions_of (v : list unique_ptr)
    : list (ptr * RoseInstruction) :=
  omap id v.

(** [RoseProgram::RoseProgram]; [p] is the address [make_unique] returns. *)
Definition RoseProgram_new (p : ptr) : RoseProgram :=
  [Some (p, RoseInstrEnd)].

(** [RoseProgram::size]. *)
Definition size (P : RoseProgram) : nat := length P.

(** [prog.back()->code() == ROSE_INSTR_END]. *)
Definition back_is_end (P : RoseProgram) : option bool :=
  u ← last P; c ← code_of u; Some (c == ROSE_INSTR_END).

Section Rose.

(** The numeric value of each enumerator of [RoseInstructionCode]. *)
Variable code_value : RoseInstructionCode -> Z.

(** Whether the translation unit is compiled with [NDEBUG]. *)
Variable NDEBUG : bool.

(** [assert(c)]: not evaluated under [NDEBUG]; otherwise the program goes on
    only if [c] evaluates to true. *)
Definition assert_ (c : option bool) : option unit :=
  if NDEBUG then Some ()
  else match c with
       | Some true => Some ()
       | _ => None
       end.

(** *** Hashing *)

(** [RoseInstruction::hash] of each class: [size_t v = opcode] followed by
    one [boost::hash_combine] per hashed member ([RoseInstrBaseTrivial]
    returns the opcode). *)
Definition hash (ri : RoseInstruction) : Z :=
  let v := to_size_t (code_value (code ri)) in
  match ri with
  | RoseInstrAnchoredDelay g _ => hash_combine v g
  | RoseInstrCheckLitEarly m => hash_combine v m
  | RoseInstrCheckGroups g => hash_combine v g
  | RoseInstrCheckOnlyEod _ => v
  | RoseInstrCheckBounds a b _ => hash_combine (hash_combine v a) b
  | RoseInstrCheckNotHandled k _ => hash_combine v k
  | RoseInstrCheckLookaround i c _ => hash_combine (hash_combine v i) c
  | RoseInstrCheckMask a c n o _ => fold_left hash_combine [a; c; n; o] v
  | RoseInstrCheckMask32 a c n o _ =>
      fold_left hash_combine [n; o]
        (hash_combine_range (hash_combine_range v a) c)
  | RoseInstrCheckByte a c n o _ => fold_left hash_combine [a; c; n; o] v
  | RoseInstrCheckInfix q l r _ => fold_left hash_combine [q; l; r] v
  | RoseInstrCheckPrefix q l r _ => fold_left hash_combine [q; l; r] v
  | RoseInstrPushDelayed d i => hash_combine (hash_combine v d) i
  | RoseInstrRecordAnchored i => hash_combine v i
  | RoseInstrCatchUp => v
  | RoseInstrCatchUpMpv => v
  | RoseInstrSomAdjust d => hash_combine v d
  | RoseInstrSomLeftfix q l => hash_combine (hash_combine v q) l
  | RoseInstrSomFromReport s =>
      hash_combine (hash_combine v (som_type s)) (som_onmatch s)
  | RoseInstrSomZero => v
  | RoseInstrTriggerInfix c q e => fold_left hash_combine [c; q; e] v
  | RoseInstrTriggerSuffix q e => hash_combine (hash_combine v q) e
  | RoseInstrDedupe q d o _ => fold_left hash_combine [q; d; o] v
  | RoseInstrDedupeSom q d o _ => fold_left hash_combine [q; d; o] v
  | RoseInstrReportChain e d => hash_combine (hash_combine v e) d
  | RoseInstrReportSomInt s =>
      hash_combine (hash_combine v (som_type s)) (som_onmatch s)
  | RoseInstrReportSomAware s =>
      hash_combine (hash_combine v (som_type s)) (som_onmatch s)
  | RoseInstrReport m o => hash_combine (hash_combine v m) o
  | RoseInstrReportExhaust m o e => fold_left hash_combine [m; o; e] v
  | RoseInstrReportSom m o => hash_combine (hash_combine v m) o
  | RoseInstrReportSomExhaust m o e => fold_left hash_combine [m; o; e] v
  | RoseInstrDedupeAndReport q d m o _ =>
      fold_left hash_combine [q; d; m; o] v
  | RoseInstrFinalReport m o => hash_combine (hash_combine v m) o
  | RoseInstrCheckExhausted e _ => hash_combine v e
  | RoseInstrCheckMinLength e m _ => hash_combine (hash_combine v e) m
  | RoseInstrSetState i => hash_combine v i
  | RoseInstrSetGroups g => hash_combine v g
  | RoseInstrSquashGroups g => hash_combine v g
  | RoseInstrCheckState i _ => hash_combine v i
  | RoseInstrSparseIterBegin n jt _ _ _ _ =>
      fold_left hash_combine (fst <$> jt) (hash_combine v n)
  | RoseInstrSparseIterNext s _ _ => hash_combine v s
  | RoseInstrSparseIterAny n ks _ =>
      hash_combine_range (hash_combine v n) ks
  | RoseInstrEnginesEod i => hash_combine v i
  | RoseInstrSuffixesEod => v
  | RoseInstrMatcherEod => v
  | RoseInstrEnd => v
  end.

(** [RoseProgramHash::operator()]: [assert(ri)], then
    [hash_combine(v, ri->hash())] for each slot in order. *)
Fixpoint RoseProgramHash_from (v : Z) (P : RoseProgram) : option Z :=
  match P with
  | [] => Some v
  | u :: rest =>
      '(_, ri) ← u; RoseProgramHash_from (hash_combine v (hash ri)) rest
  end.

Definition RoseProgramHash (P : RoseProgram) : option Z :=
  RoseProgramHash_from 0 P.

(** *** Target rewriting *)

(** [RoseInstruction::update_target].  [new_code] is [new_target->code()],
    which the assertion of SPARSE_ITER_NEXT reads; every other class is
    [update_target_pure]. *)
Definition update_target (old_target new_target : ptr)
    (new_code : option RoseInstructionCode) (ri : RoseInstruction)
    : option RoseInstruction :=
  match ri with
  | RoseInstrSparseIterNext s b t =>
      let t' := retarget old_target new_target t in
      if b == old_target then
        _ ← assert_ (c ← new_code; Some (c == ROSE_INSTR_SPARSE_ITER_BEGIN));
        Some (RoseInstrSparseIterNext s new_target t')
      else Some (RoseInstrSparseIterNext s b t')
  | _ => Some (update_target_pure old_target new_target ri)
  end.

(** The loop of [RoseProgram::update_targets] over a range of slots. *)
Fixpoint update_targets_loop (rng : list unique_ptr)
    (old_target new_target : ptr) (new_code : option RoseInstructionCode)
    : option (list unique_ptr) :=
  match rng with
  | [] => Some []
  | u :: rest =>
      _ ← assert_ (Some (negb (bool_decide (u = None))));
      '(a, ri) ← u;
      ri' ← update_target old_target new_target new_code ri;
      rest' ← update_targets_loop rest old_target new_target new_code;
      Some (Some (a, ri') :: rest')
  end.

(** [RoseProgram::update_targets]. *)
Definition update_targets (rng : list unique_ptr)
    (old_target new_target : ptr) (new_code : option RoseInstructionCode)
    : option (list unique_ptr) :=
  _ ← assert_ (Some (negb (old_target == nullptr)
                     && negb (new_target == nullptr)
                     && negb (old_target == new_target)));
  update_targets_loop rng old_target new_target new_code.

(** *** The container interface *)

(** [RoseProgram::empty]. *)
Definition empty (P : RoseProgram) : option bool :=
  _ ← assert_ (Some (negb (bool_decide (P = []))));
  _ ← assert_ (back_is_end P);
  match P with
  | [] => None
  | _ :: rest => Some (bool_decide (rest = @nil unique_ptr))
  end.

(** [RoseProgram::end_instruction]. *)
Definition end_instruction (P : RoseProgram) : option ptr :=
  _ ← assert_ (Some (negb (bool_decide (P = []))));
  _ ← assert_ (back_is_end P);
  u ← last P; Some (get u).

(** The three assertions that open [insert]; an iterator is an index into
    the vector, [end()] is [length P]. *)
Definition insert_asserts (it : nat) (P : RoseProgram) : option unit :=
  _ ← assert_ (Some (negb (bool_decide (P = []))));
  _ ← assert_ (Some (negb (it == length P)));
  assert_ (back_is_end P).

(** [RoseProgram::insert(iterator, std::unique_ptr<RoseInstruction>)];
    returns the iterator [std::vector::insert] returns and the program. *)
Definition insert (it : nat) (ri : unique_ptr) (P : RoseProgram)
    : option (nat * RoseProgram) :=
  _ ← insert_asserts it P;
  if bool_decide (it ≤ length P)%nat
  then Some (it, take it P ++ ri :: drop it P)
  else None.

(** [RoseProgram::insert(iterator, RoseProgram &&)]; returns the iterator,
    the program and the state [block] is left in: its vector has lost the
    END and each remaining slot is moved-from, hence null. *)
Definition insert_block (it : nat) (block P : RoseProgram)
    : option (nat * RoseProgram * RoseProgram) :=
  _ ← insert_asserts it P;
  block_empty ← empty block;
  if block_empty : bool then Some (it, P, block)
  else
    end_ptr ← end_instruction block;
    _ ← assert_ (u ← last block; c ← code_of u; Some (c == ROSE_INSTR_END));
    let block1 := removelast block in
    u ← P !! it;
    let new_target := get u in
    block2 ← update_targets block1 end_ptr new_target (code_of u);
    Some (it, take it P ++ block2 ++ drop it P, moved_from block2).

(** [RoseProgram::add_before_end(std::unique_ptr<RoseInstruction>)]. *)
Definition add_before_end (ri : unique_ptr) (P : RoseProgram)
    : option RoseProgram :=
  _ ← assert_ (Some (negb (bool_decide (P = []))));
  match P with
  | [] => None
  | _ => '(_, P') ← insert (length P - 1)%nat ri P; Some P'
  end.

(** [RoseProgram::add_before_end(RoseProgram &&)]; returns the program and
    the state of [block]. *)
Definition add_before_end_block (block P : RoseProgram)
    : option (RoseProgram * RoseProgram) :=
  _ ← assert_ (Some (negb (bool_decide (P = []))));
  _ ← assert_ (back_is_end P);
  block_empty ← empty block;
  if block_empty : bool then Some (P, block)
  else
    match P with
    | [] => None
    | _ =>
        '(_, P', block') ← insert_block (length P - 1)%nat block P;
        Some (P', block')
    end.

(** [RoseProgram::add_block]; returns the program and the state of
    [block]. *)
Definition add_block (block P : RoseProgram)
    : option (RoseProgram * RoseProgram) :=
  _ ← assert_ (Some (negb (bool_decide (P = []))));
  _ ← assert_ (back_is_end P);
  block_empty ← empty block;
  if block_empty : bool then Some (P, block)
  else
    end_ptr ← end_instruction P;
    let prog1 := removelast P in
    front ← head block;
    prog2 ← update_targets prog1 end_ptr (get front) (code_of front);
    Some (prog2 ++ block, moved_from block).

(** [RoseProgram::replace]; the old instruction is destroyed by the
    assignment [*it = move(ri)]. *)
Definition replace (it : nat) (ri : unique_ptr) (P : RoseProgram)
    : option RoseProgram :=
  _ ← assert_ (Some (negb (bool_decide (P = []))));
  _ ← assert_ (back_is_end P);
  u ← P !! it;
  let old_ptr := get u in
  let prog1 := <[it := ri]> P in
  prog2 ← update_targets prog1 old_ptr (get ri) (code_of ri);
  _ ← assert_ (back_is_end prog2);
  Some prog2.

End Rose.

(** ** Layout and program equivalence *)

(** [x] rounded up to a multiple of [a]. *)
Definition align_up (x a : Z) : Z := (x + a - 1) / a * a.

(** Modelled from the spec: Pass 1 of the assembler ([writeProgram] and its
    layout pass are defined outside this header, which only declares
    [writeProgram]).  Section 4.3: walk the program in order, give each
    instruction the running total aligned up to its opcode's alignment, and
    accumulate the packed size.  The record length and the alignment of each
    opcode come from [rose_program.h] and are parameters. *)
Fixpoint makeOffsetMap_from (byte_length alignment : RoseInstructionCode -> Z)
    (total : Z) (offset_map : gmap N Z) (P : RoseProgram)
    : option (gmap N Z * Z) :=
  match P with
  | [] => Some (offset_map, total)
  | u :: rest =>
      '(a, ri) ← u;
      let offset := align_up total (alignment (code ri)) in
      makeOffsetMap_from byte_length alignment
        (offset + byte_length (code ri)) (<[a := offset]> offset_map) rest
  end.

Definition makeOffsetMap (byte_length alignment : RoseInstructionCode -> Z)
    (P : RoseProgram) : option (gmap N Z) :=
  fst <$> makeOffsetMap_from byte_length alignment 0 ∅ P.

(** Step 3 of section 4.5: position by position, in order. *)
Fixpoint all_equiv (offsets other_offsets : gmap N Z) (P Q : RoseProgram)
    : option bool :=
  match P, Q with
  | [], _ => Some true
  | _ :: _, [] => None
  | u :: P', w :: Q' =>
      '(_, a) ← u; '(_, b) ← w;
      same ← equiv a b offsets other_offsets;
      if same : bool then all_equiv offsets other_offsets P' Q'
      else Some false
  end.

(** Modelled from the spec: [RoseProgramEquivalence::operator()] is only
    declared in this header.  Section 4.5: programs of different instruction
    count are not equivalent; otherwise both offset maps are computed and
    every position must satisfy [equiv] under them. *)
Definition equivalent (byte_length alignment : RoseInstructionCode -> Z)
    (P Q : RoseProgram) : option bool :=
  if negb (size P == size Q) then Some false
  else
    offset_map_P ← makeOffsetMap byte_length alignment P;
    offset_map_Q ← makeOffsetMap byte_length alignment Q;
    all_equiv offset_map_P offset_map_Q P Q.

(** * Properties of single instructions *)

Section InstructionFacts.

Context (offsets other_offsets : gmap N Z).

Lemma eqb_true {A} `{EqDecision A} (x y : A) : (x == y) = true <-> x = y.
Proof. unfold eqb_. apply bool_decide_eq_true. Qed.

Lemma eqb_refl {A} `{EqDecision A} (x : A) : (x == x) = true.
Proof. by apply eqb_true. Qed.

Lemma eqb_eq {A} `{EqDecision A} (x y : A) : (x == y) = true -> x = y.
Proof. apply eqb_true. Qed.

Lemma at_eq_true t t' :
  at_eq offsets other_offsets t t' = Some true
  <-> same_offset offsets other_offsets t t'.
Proof.
  unfold at_eq, same_offset. split.
  - destruct (offsets !! t) as [x|] eqn:Hx; simpl; [|discriminate].
    destruct (other_offsets !! t') as [y|] eqn:Hy; simpl; [|discriminate].
    intros Heq. injection Heq as Heq. apply eqb_eq in Heq.
    exists x. by rewrite Heq.
  - intros (o & -> & ->). simpl. by rewrite eqb_refl.
Qed.

Lemma and_then_true b k :
  and_then b k = Some true <-> b = true /\ k = Some true.
Proof. destruct b; simpl; intuition congruence. Qed.

Lemma bind_and_then_true (x y : option bool) :
  (bs ← x; and_then bs y) = Some true <-> x = Some true /\ y = Some true.
Proof.
  destruct x as [[]|]; simpl; intuition congruence.
Qed.

Lemma Forall2_same_offset_1 t t' :
  Forall2 (same_offset offsets other_offsets) [t] [t']
  <-> same_offset offsets other_offsets t t'.
Proof.
  split.
  - intros H. by apply Forall2_cons_1 in H as [? _].
  - intros H. by repeat constructor.
Qed.

(** The loop over the two jump tables accepts exactly the tables with the
    same keys whose targets fall on the same offsets. *)
Lemma jump_table_equiv_true jt1 : forall jt2,
  length jt1 = length jt2 ->
  (jump_table_equiv offsets other_offsets jt1 jt2 = Some true
   <-> fst <$> jt1 = fst <$> jt2 /\
       Forall2 (same_offset offsets other_offsets) (snd <$> jt1) (snd <$> jt2)).
Proof.
  induction jt1 as [|[k1 t1] r1 IH]; intros [|[k2 t2] r2] Hlen;
    simpl in Hlen; try discriminate.
  - simpl. split; [intros _; split; [done | constructor] | done].
  - injection Hlen as Hlen. specialize (IH r2 Hlen). simpl.
    destruct (k1 == k2) eqn:Hk; simpl.
    + apply eqb_eq in Hk. subst k2.
      destruct (at_eq offsets other_offsets t1 t2) as [[]|] eqn:Hat; simpl.
      * apply at_eq_true in Hat. rewrite IH. split.
        -- intros [H1 H2].
           split; [exact (f_equal (cons k1) H1) | by constructor].
        -- intros [H1 H2]. apply Forall2_cons_1 in H2 as [_ H2].
           split; [by injection H1 | done].
      * split; [discriminate|]. intros [_ H2].
        apply Forall2_cons_1 in H2 as [H2 _].
        apply at_eq_true in H2. congruence.
      * split; [discriminate|]. intros [_ H2].
        apply Forall2_cons_1 in H2 as [H2 _].
        apply at_eq_true in H2. congruence.
    + split; [discriminate|]. intros [H1 _]. injection H1 as -> _.
      rewrite eqb_refl in Hk. discriminate.
Qed.

Lemma equiv_true_code a b :
  equiv a b offsets other_offsets = Some true -> code a = code b.
Proof. destruct a, b; simpl; try discriminate; reflexivity. Qed.

End InstructionFacts.

(** ** What [equiv], [hash] and [update_target] look at *)

Ltac equiv_hyps :=
  repeat match goal with
    | H : and_then _ _ = Some true |- _ =>
        apply and_then_true in H; destruct H
    | H : mbind _ _ = Some true |- _ =>
        apply bind_and_then_true in H; destruct H
    | H : (_ && _) = true |- _ => apply andb_true_iff in H; destruct H
    | H : (_ == _) = true |- _ => apply eqb_eq in H
    | H : Some (_ && _) = Some true |- _ => injection H as H
    | H : Some (_ == _) = Some true |- _ => injection H as H
    | H : at_eq _ _ _ _ = Some true |- _ => apply at_eq_true in H
    end.

Ltac equiv_goal :=
  repeat match goal with
    | |- and_then _ _ = Some true => apply and_then_true; split
    | |- mbind _ _ = Some true => apply bind_and_then_true; split
    | |- at_eq _ _ _ _ = Some true => apply at_eq_true; assumption
    | |- _ => rewrite !eqb_refl; reflexivity
    | |- _ => reflexivity
    end.

Lemma fmap_clear_second (jt jt' : list (Z * ptr)) :
  (fun j : Z * ptr => (j.1, nullptr)) <$> jt
  = (fun j : Z * ptr => (j.1, nullptr)) <$> jt'
  <-> fst <$> jt = fst <$> jt'.
Proof.
  revert jt'. induction jt as [|[k t] r IH]; intros [|[k' t'] r']; simpl;
    try (split; discriminate); [done|].
  split; intros H; injection H as -> H; f_equal; by apply IH.
Qed.

Lemma equiv_other_classes (a b : RoseInstruction) (oa ob : gmap N Z) :
  code a <> ROSE_INSTR_SPARSE_ITER_BEGIN ->
  (equiv a b oa ob = Some true
   <-> code a = code b /\ payload a = payload b /\
       Forall2 (same_offset oa ob) (targets a) (targets b)).
Proof.
  intros Hne. split.
  - intros He. pose proof (equiv_true_code _ _ _ _ He) as Hc.
    split; [exact Hc|].
    destruct a, b; try discriminate Hc; try (exfalso; by apply Hne);
      unfold payload; simpl in He |- *; equiv_hyps; subst;
      (split; [reflexivity | repeat constructor; assumption]).
  - intros (Hc & Hp & Ht).
    destruct a, b; try discriminate Hc; try (exfalso; by apply Hne);
      unfold payload in Hp; simpl in Hp, Ht |- *;
      try (injection Hp as Hp); intros; subst;
      try (apply Forall2_cons_1 in Ht as [Ht Ht']);
      try (apply Forall2_cons_1 in Ht' as [Ht' _]);
      equiv_goal.
Qed.

Lemma equiv_sparse_iter_begin_complete (a b : RoseInstruction)
    (oa ob : gmap N Z) :
  code a = ROSE_INSTR_SPARSE_ITER_BEGIN ->
  code a = code b -> payload a = payload b ->
  begin_iter_offset a = begin_iter_offset b ->
  Forall2 (same_offset oa ob) (targets a) (targets b) ->
  equiv a b oa ob = Some true.
Proof.
  intros Ha Hc Hp Hio Ht.
  destruct a; try discriminate Ha. destruct b; try discriminate Hc.
  unfold payload in Hp. simpl in Hp, Hio, Ht |- *.
  injection Hp as -> Hk. apply fmap_clear_second in Hk. subst.
  assert (Hlen : length jump_table = length jump_table0).
  { by rewrite <-(length_fmap fst jump_table), Hk, length_fmap. }
  apply Forall2_app_inv in Ht as [Hj Ht]; [|by rewrite !length_fmap].
  apply Forall2_cons_1 in Ht as [Ht _].
  rewrite eqb_refl. simpl.
  apply at_eq_true in Ht. rewrite Ht. simpl.
  rewrite Hlen, eqb_refl. simpl.
  by apply jump_table_equiv_true.
Qed.

Lemma equiv_sparse_iter_begin_sound (a b : RoseInstruction)
    (oa ob : gmap N Z) :
  code a = ROSE_INSTR_SPARSE_ITER_BEGIN ->
  equiv a b oa ob = Some true ->
  code a = code b /\ jump_keys a = jump_keys b /\
  begin_iter_offset a = begin_iter_offset b /\
  Forall2 (same_offset oa ob) (targets a) (targets b).
Proof.
  intros Ha He. pose proof (equiv_true_code _ _ _ _ He) as Hc.
  split; [exact Hc|].
  destruct a; try discriminate Ha. destruct b; try discriminate Hc.
  simpl in He |- *.
  destruct (iter_offset == iter_offset0) eqn:Hio; simpl in He;
    [|discriminate].
  apply eqb_eq in Hio.
  destruct (at_eq oa ob target target0) as [[]|] eqn:Hat; simpl in He;
    try discriminate.
  apply at_eq_true in Hat.
  destruct (length jump_table == length jump_table0) eqn:Hlen; simpl in He;
    [|discriminate].
  apply eqb_eq in Hlen.
  apply jump_table_equiv_true in He as [Hk Hj]; [|exact Hlen].
  repeat split; try done.
  apply Forall2_app; [exact Hj | by repeat constructor].
Qed.

(** C2 (as amended).  For every class other than SPARSE_ITER_BEGIN,
    [a.equiv(b, offsets_a, offsets_b)] returns true exactly when [a] and [b]
    have the same opcode, equal non-target payload, and every pair of
    corresponding targets is given the same offset by the two maps.  For
    SPARSE_ITER_BEGIN these conditions together with equal [iter_offset]
    make [equiv] return true, and when [equiv] returns true the opcodes, the
    jump-table keys, [iter_offset] and the target offsets agree. *)
Theorem equiv_characterisation (a b : RoseInstruction) (oa ob : gmap N Z) :
  (code a <> ROSE_INSTR_SPARSE_ITER_BEGIN ->
   (equiv a b oa ob = Some true
    <-> code a = code b /\ payload a = payload b /\
        Forall2 (same_offset oa ob) (targets a) (targets b)))
  /\
  (code a = ROSE_INSTR_SPARSE_ITER_BEGIN ->
   (code a = code b /\ payload a = payload b /\
    begin_iter_offset a = begin_iter_offset b /\
    Forall2 (same_offset oa ob) (targets a) (targets b) ->
    equiv a b oa ob = Some true)
   /\
   (equiv a b oa ob = Some true ->
    code a = code b /\ jump_keys a = jump_keys b /\
    begin_iter_offset a = begin_iter_offset b /\
    Forall2 (same_offset oa ob) (targets a) (targets b))).
Proof.
  split.
  - apply equiv_other_classes.
  - intros Ha. split.
    + intros (Hc & Hp & Hio & Ht).
      by apply equiv_sparse_iter_begin_complete.
    + by apply equiv_sparse_iter_begin_sound.
Qed.

(** C2 (as stated) fails: a SPARSE_ITER_BEGIN that has been written
    ([iter_offset] 8) and one that has not ([iter_offset] 0) have the same
    opcode, the same non-target payload and targets at the same offset, and
    [equiv] returns false. *)
Lemma equiv_iter_offset_counterexample :
  let a := RoseInstrSparseIterBegin 4 [(1, 2%N)] 2%N false 0 0 in
  let b := RoseInstrSparseIterBegin 4 [(1, 2%N)] 2%N true 8 16 in
  let offsets : gmap N Z := {[ 2%N := 24 ]} in
  ~ (equiv a b offsets offsets = Some true
     <-> code a = code b /\ payload a = payload b /\
         Forall2 (same_offset offsets offsets) (targets a) (targets b)).
Proof.
  intros a b offsets [_ H].
  assert (He : equiv a b offsets offsets = Some true).
  { apply H. repeat split.
    repeat constructor; exists 24; by vm_compute. }
  vm_compute in He. discriminate He.
Qed.

(** The same claim fails in the other direction on [num_keys], which
    [equiv_to] of SPARSE_ITER_BEGIN never reads. *)
Lemma equiv_ignores_num_keys (n n' : Z) jt t w io jo (oa ob : gmap N Z) :
  equiv (RoseInstrSparseIterBegin n jt t w io jo)
        (RoseInstrSparseIterBegin n' jt t w io jo) oa ob
  = equiv (RoseInstrSparseIterBegin n jt t w io jo)
          (RoseInstrSparseIterBegin n jt t w io jo) oa ob.
Proof. reflexivity. Qed.

Section HashFacts.

Variable code_value : RoseInstructionCode -> Z.

Lemma hash_payload (ri : RoseInstruction) :
  hash code_value (payload ri) = hash code_value ri.
Proof.
  destruct ri; try reflexivity.
  unfold payload. simpl. f_equal.
  rewrite <-list_fmap_compose. by apply list_fmap_ext.
Qed.

(** C3.  Two instructions of the same opcode whose non-target payload
    fields are equal have the same [hash], whatever their target fields
    hold. *)
Theorem hash_ignores_targets (a b : RoseInstruction) :
  code a = code b -> payload a = payload b ->
  hash code_value a = hash code_value b.
Proof.
  intros _ Hp. rewrite <-(hash_payload a), <-(hash_payload b).
  by rewrite Hp.
Qed.

(** The hash is a function of the payload alone: overwriting the target
    fields does not change it. *)
Lemma hash_update_target_pure (old_target new_target : ptr) ri :
  hash code_value (update_target_pure old_target new_target ri)
  = hash code_value ri.
Proof.
  destruct ri; try reflexivity.
  simpl. f_equal. rewrite <-list_fmap_compose. by apply list_fmap_ext.
Qed.

(** C10.  For each class derived from [RoseInstrBaseTrivial] (END, CATCH_UP,
    CATCH_UP_MPV, SOM_ZERO, SUFFIXES_EOD, MATCHER_EOD), [hash] is the opcode
    value, and two instances of the same class are [equiv] under every pair
    of offset maps; so are any two END instructions. *)
Theorem trivial_hash_and_equiv (a b : RoseInstruction) (oa ob : gmap N Z) :
  trivial_class a = true -> code b = code a ->
  0 <= code_value (code a) < 2 ^ 64 ->
  hash code_value a = code_value (code a) /\
  equiv a b oa ob = Some true /\
  equiv RoseInstrEnd RoseInstrEnd oa ob = Some true.
Proof.
  intros Ht Hc Hr. repeat split.
  - destruct a; try discriminate Ht; simpl; unfold to_size_t;
      by apply Z.mod_small.
  - destruct a; try discriminate Ht; destruct b; try discriminate Hc;
      reflexivity.
Qed.

End HashFacts.

(** * Properties of the program container *)

Lemma retarget_decide (old_target new_target t : ptr) :
  retarget old_target new_target t
  = if decide (t = old_target) then new_target else t.
Proof.
  unfold retarget, eqb_. case_bool_decide; case_decide; congruence.
Qed.

Lemma update_target_pure_rewritten (old_target new_target : ptr) ri :
  rewritten old_target new_target ri
    (update_target_pure old_target new_target ri).
Proof.
  unfold rewritten, payload.
  destruct ri; simpl; rewrite ?retarget_decide; try done.
  repeat split.
  - f_equal. rewrite <-list_fmap_compose. by apply list_fmap_ext.
  - rewrite fmap_app, <-!list_fmap_compose. simpl. f_equal.
    apply list_fmap_ext. intros i [k t] _. simpl. apply retarget_decide.
Qed.

Lemma fst_snd_eq {A B} (l l' : list (A * B)) :
  fst <$> l = fst <$> l' -> snd <$> l = snd <$> l' -> l = l'.
Proof.
  revert l'. induction l as [|[a b] l IH]; intros [|[a' b'] l'] H1 H2;
    try discriminate; [done|].
  injection H1 as -> H1. injection H2 as -> H2. f_equal. by apply IH.
Qed.

(** An instruction is its payload, its emission state and its targets:
    [rewritten] therefore leaves one result only. *)
Lemma instruction_determined (a b : RoseInstruction) :
  payload a = payload b -> emission_state a = emission_state b ->
  targets a = targets b -> a = b.
Proof.
  unfold payload.
  destruct a, b; simpl; intros Hp He Ht; try discriminate Hp;
    try congruence.
  injection Hp as -> Hk. apply fmap_clear_second in Hk.
  injection He as -> -> ->.
  apply app_inj_tail in Ht as [Hj ->].
  f_equal. by apply fst_snd_eq.
Qed.

Lemma rewritten_unique (old_target new_target : ptr) ri r1 r2 :
  rewritten old_target new_target ri r1 ->
  rewritten old_target new_target ri r2 -> r1 = r2.
Proof.
  intros (Hp1 & He1 & Ht1) (Hp2 & He2 & Ht2).
  apply instruction_determined; congruence.
Qed.

Lemma update_target_pure_code (old_target new_target : ptr) ri :
  code (update_target_pure old_target new_target ri) = code ri.
Proof. by destruct ri. Qed.

Lemma update_all_retargeted (old_target new_target : ptr) l :
  retargeted old_target new_target l (update_all old_target new_target l).
Proof.
  unfold retargeted, update_all. induction l as [|[a ri] l IH]; simpl.
  - constructor.
  - constructor; [|exact IH]. simpl.
    split; [done | apply update_target_pure_rewritten].
Qed.

Lemma moved_from_replicate (v : list unique_ptr) :
  moved_from v = replicate (length v) None.
Proof.
  unfold moved_from. induction v as [|u v IH]; simpl; [done | by f_equal].
Qed.

Lemma owned_app l1 l2 : owned (l1 ++ l2) = owned l1 ++ owned l2.
Proof. unfold owned. apply fmap_app. Qed.

Lemma owned_length l : length (owned l) = length l.
Proof. unfold owned. apply length_fmap. Qed.

Lemma back_is_end_snoc (v : RoseProgram) (e : ptr) :
  back_is_end (v ++ [Some (e, RoseInstrEnd)]) = Some true.
Proof. unfold back_is_end. by rewrite last_snoc. Qed.

Lemma back_is_end_inv (P : RoseProgram) :
  back_is_end P = Some true ->
  exists v e, P = v ++ [Some (e, RoseInstrEnd)].
Proof.
  unfold back_is_end. intros H.
  destruct P as [|u P] using rev_ind; [discriminate|].
  rewrite last_snoc in H. simpl in H.
  destruct u as [[e ri]|]; [|discriminate]. simpl in H.
  injection H as H. apply eqb_eq in H.
  destruct ri; try discriminate H. by exists P, e.
Qed.

Section ContainerFacts.

Variable NDEBUG : bool.

Lemma assert_true : assert_ NDEBUG (Some true) = Some ().
Proof. unfold assert_. by destruct NDEBUG. Qed.

Lemma update_target_ok (old_target new_target : ptr) new_code ri :
  (begin_field ri = Some old_target ->
   new_code = Some ROSE_INSTR_SPARSE_ITER_BEGIN) ->
  update_target NDEBUG old_target new_target new_code ri
  = Some (update_target_pure old_target new_target ri).
Proof.
  intros Hb. destruct ri; try reflexivity.
  simpl in *. unfold retarget.
  destruct (begin == old_target) eqn:Heq; [|done].
  apply eqb_eq in Heq. subst. rewrite Hb by done. simpl.
  rewrite eqb_refl. by rewrite assert_true.
Qed.

Lemma update_targets_loop_owned (old_target new_target : ptr) new_code l :
  Forall (fun x => begin_field x.2 = Some old_target ->
                   new_code = Some ROSE_INSTR_SPARSE_ITER_BEGIN) l ->
  update_targets_loop NDEBUG (owned l) old_target new_target new_code
  = Some (owned (update_all old_target new_target l)).
Proof.
  induction 1 as [|[a ri] l Hx Hl IH]; [done|].
  simpl in *. rewrite assert_true. simpl.
  rewrite update_target_ok by done. simpl.
  by rewrite IH.
Qed.

Lemma update_targets_owned (old_target new_target : ptr) new_code l :
  old_target <> nullptr -> new_target <> nullptr ->
  old_target <> new_target ->
  Forall (fun x => begin_field x.2 = Some old_target ->
                   new_code = Some ROSE_INSTR_SPARSE_ITER_BEGIN) l ->
  update_targets NDEBUG (owned l) old_target new_target new_code
  = Some (owned (update_all old_target new_target l)).
Proof.
  intros Ho Hn Hne Hl. unfold update_targets, eqb_.
  rewrite !bool_decide_eq_false_2 by done. simpl.
  rewrite assert_true. simpl. by apply update_targets_loop_owned.
Qed.

Lemma assert_nonempty (P : RoseProgram) :
  P <> [] -> assert_ NDEBUG (Some (negb (bool_decide (P = [])))) = Some ().
Proof.
  intros H. rewrite bool_decide_eq_false_2 by done. apply assert_true.
Qed.

Lemma assert_back_is_end (v : RoseProgram) e :
  assert_ NDEBUG (back_is_end (v ++ [Some (e, RoseInstrEnd)])) = Some ().
Proof. rewrite back_is_end_snoc. apply assert_true. Qed.

Lemma snoc_nonempty {A} (v : list A) x : v ++ [x] <> [].
Proof. by destruct v. Qed.

Lemma empty_snoc (v : RoseProgram) e :
  empty NDEBUG (v ++ [Some (e, RoseInstrEnd)])
  = Some (bool_decide (v = [])).
Proof.
  unfold empty. rewrite assert_nonempty by apply snoc_nonempty. simpl.
  rewrite assert_back_is_end. simpl.
  destruct v as [|u v]; simpl; [done|].
  f_equal. rewrite bool_decide_eq_false_2; [done | apply snoc_nonempty].
Qed.

Lemma end_instruction_snoc (v : RoseProgram) e :
  end_instruction NDEBUG (v ++ [Some (e, RoseInstrEnd)]) = Some e.
Proof.
  unfold end_instruction.
  rewrite assert_nonempty by apply snoc_nonempty. simpl.
  rewrite assert_back_is_end. simpl. by rewrite last_snoc.
Qed.

Lemma insert_asserts_ok (it : nat) (v : RoseProgram) e :
  (it < length (v ++ [Some (e, RoseInstrEnd)]))%nat ->
  insert_asserts NDEBUG it (v ++ [Some (e, RoseInstrEnd)]) = Some ().
Proof.
  intros Hit. unfold insert_asserts.
  rewrite assert_nonempty by apply snoc_nonempty. simpl.
  unfold eqb_. rewrite bool_decide_eq_false_2 by lia. simpl.
  rewrite assert_true. simpl. apply assert_back_is_end.
Qed.

End ContainerFacts.

#[local] Arguments owned : simpl never.
#[local] Arguments moved_from : simpl never.
#[local] Arguments update_all : simpl never.

Lemma owned_cons x l : owned (x :: l) = Some x :: owned l.
Proof. reflexivity. Qed.

Lemma owned_snoc l x : owned (l ++ [x]) = owned l ++ [Some x].
Proof. apply owned_app. Qed.

Lemma back_is_end_nonempty (P : RoseProgram) :
  back_is_end P = Some true -> P <> [].
Proof. by intros H ->. Qed.

Lemma back_is_end_owned_snoc l a ri :
  back_is_end (owned (l ++ [(a, ri)])) = Some (code ri == ROSE_INSTR_END).
Proof. unfold back_is_end. by rewrite owned_snoc, last_snoc. Qed.

Lemma back_is_end_update_all (old_target new_target : ptr) l :
  back_is_end (owned (update_all old_target new_target l))
  = back_is_end (owned l).
Proof.
  destruct l as [|[a ri] l _] using rev_ind; [done|].
  unfold update_all. rewrite fmap_app. simpl.
  rewrite !back_is_end_owned_snoc. by rewrite update_target_pure_code.
Qed.

Lemma back_is_end_middle (v w : RoseProgram) (u u' : unique_ptr) :
  w <> [] -> back_is_end (v ++ u :: w) = back_is_end (v ++ u' :: w).
Proof.
  intros Hw. unfold back_is_end. rewrite !last_app_cons.
  destruct w as [|x w]; [done|]. by rewrite !last_cons_cons.
Qed.

Lemma back_is_end_app (v w : RoseProgram) :
  w <> [] -> back_is_end (v ++ w) = back_is_end w.
Proof.
  intros Hw. unfold back_is_end. destruct w as [|x w]; [done|].
  by rewrite last_app_cons.
Qed.

Lemma Forall_no_begin (old_target : ptr) new_code
    (l : list (ptr * RoseInstruction)) :
  Forall (fun x => begin_field x.2 <> Some old_target) l ->
  Forall (fun x => begin_field x.2 = Some old_target ->
                   new_code = Some ROSE_INSTR_SPARSE_ITER_BEGIN) l.
Proof. intros H. eapply Forall_impl; [exact H|]. by intros x Hx ?. Qed.

Section ContainerOperations.

Variable NDEBUG : bool.

Lemma assert_back (P : RoseProgram) :
  back_is_end P = Some true -> assert_ NDEBUG (back_is_end P) = Some ().
Proof. intros ->. apply assert_true. Qed.

Lemma insert_asserts_back (it : nat) (P : RoseProgram) :
  back_is_end P = Some true -> (it < length P)%nat ->
  insert_asserts NDEBUG it P = Some ().
Proof.
  intros HP Hit.
  destruct (back_is_end_inv P HP) as (v & e & ->).
  by apply insert_asserts_ok.
Qed.

(** [add_block] on a program ending in END and a block with at least one
    instruction before its own END. *)
Lemma add_block_explicit (body Bl : list (ptr * RoseInstruction))
    (e f bend : ptr) (fi : RoseInstruction) :
  e <> nullptr -> f <> nullptr -> e <> f ->
  Forall (fun x => begin_field x.2 <> Some e) body ->
  add_block NDEBUG (owned ((f, fi) :: Bl ++ [(bend, RoseInstrEnd)]))
    (owned (body ++ [(e, RoseInstrEnd)]))
  = Some (owned (update_all e f body
                 ++ (f, fi) :: Bl ++ [(bend, RoseInstrEnd)]),
          replicate (S (S (length Bl))) None).
Proof.
  intros He Hf Hef Hb. unfold add_block.
  rewrite owned_snoc.
  rewrite assert_nonempty by apply snoc_nonempty. simpl.
  rewrite assert_back_is_end. simpl.
  change (owned ((f, fi) :: Bl ++ [(bend, RoseInstrEnd)]))
    with (owned (((f, fi) :: Bl) ++ [(bend, RoseInstrEnd)])).
  rewrite (owned_snoc ((f, fi) :: Bl)), empty_snoc. simpl.
  rewrite end_instruction_snoc. simpl.
  rewrite removelast_last.
  rewrite (update_targets_owned NDEBUG e f) by (done || by apply Forall_no_begin).
  simpl. rewrite moved_from_replicate. f_equal. f_equal.
  - rewrite owned_app. f_equal.
    change ((f, fi) :: Bl ++ [(bend, RoseInstrEnd)])
      with (((f, fi) :: Bl) ++ [(bend, RoseInstrEnd)]).
    by rewrite owned_snoc.
  - simpl. rewrite length_app, owned_length. simpl.
    by rewrite Nat.add_1_r.
Qed.

(** [insert(it, block)] before the instruction at address [s], for a block
    with at least one instruction before its END. *)
Lemma insert_block_explicit (pre post Bbody : list (ptr * RoseInstruction))
    (s bend : ptr) (si : RoseInstruction) :
  back_is_end (owned (pre ++ (s, si) :: post)) = Some true ->
  Bbody <> [] -> bend <> nullptr -> s <> nullptr -> bend <> s ->
  Forall (fun x => begin_field x.2 <> Some bend) Bbody ->
  insert_block NDEBUG (length pre) (owned (Bbody ++ [(bend, RoseInstrEnd)]))
    (owned (pre ++ (s, si) :: post))
  = Some (length pre,
          owned (pre ++ update_all bend s Bbody ++ (s, si) :: post),
          replicate (length Bbody) None).
Proof.
  intros HP HB Hbend Hs Hne Hb. unfold insert_block.
  rewrite insert_asserts_back;
    [|exact HP | rewrite owned_length, length_app; simpl; lia].
  simpl. rewrite owned_snoc, empty_snoc.
  rewrite bool_decide_eq_false_2 by (by destruct Bbody).
  simpl. rewrite end_instruction_snoc. simpl.
  rewrite last_snoc. simpl. rewrite eqb_refl, assert_true. simpl.
  rewrite removelast_last.
  rewrite owned_app, owned_cons.
  rewrite list_lookup_middle by (by rewrite owned_length). simpl.
  rewrite (update_targets_owned NDEBUG bend s)
    by (done || by apply Forall_no_begin).
  simpl. rewrite moved_from_replicate.
  rewrite take_app_length', drop_app_length' by (by rewrite owned_length).
  f_equal. f_equal.
  - by rewrite !owned_app, owned_cons.
  - f_equal. unfold update_all. by rewrite owned_length, length_fmap.
Qed.

(** [replace] of the instruction at address [o] by the instruction [r]
    allocated at address [n]. *)
Lemma replace_explicit (pre post : list (ptr * RoseInstruction))
    (o n : ptr) (oi r : RoseInstruction) :
  back_is_end (owned (pre ++ (o, oi) :: post)) = Some true ->
  o <> nullptr -> n <> nullptr -> o <> n ->
  (post = [] -> code r = ROSE_INSTR_END) ->
  Forall (fun x => begin_field x.2 = Some o ->
                   code r = ROSE_INSTR_SPARSE_ITER_BEGIN)
    (pre ++ (n, r) :: post) ->
  replace NDEBUG (length pre) (Some (n, r)) (owned (pre ++ (o, oi) :: post))
  = Some (owned (update_all o n (pre ++ (n, r) :: post))).
Proof.
  intros HP Ho Hn Hne Hend Hb. unfold replace.
  rewrite assert_nonempty by (by apply back_is_end_nonempty).
  simpl. rewrite assert_back by done. simpl.
  rewrite owned_app, owned_cons.
  rewrite list_lookup_middle by (by rewrite owned_length). simpl.
  rewrite insert_app_r_alt by (by rewrite owned_length).
  rewrite owned_length, Nat.sub_diag. simpl.
  rewrite <-owned_cons, <-owned_app.
  rewrite (update_targets_owned NDEBUG o n); try done.
  - simpl. rewrite back_is_end_update_all.
    assert (Hback : back_is_end (owned (pre ++ (n, r) :: post)) = Some true).
    { destruct post as [|x post] using rev_ind.
      - rewrite back_is_end_owned_snoc, Hend by done. by rewrite eqb_refl.
      - rewrite <-HP, !owned_app. simpl.
        apply back_is_end_middle. rewrite owned_snoc. apply snoc_nonempty. }
    by rewrite Hback, assert_true.
  - eapply Forall_impl; [exact Hb|]. intros x Hx Hbx. simpl.
    by rewrite Hx.
Qed.

End ContainerOperations.

Lemma instructions_of_owned l : instructions_of (owned l) = l.
Proof.
  unfold instructions_of, owned. induction l as [|x l IH]; [done|].
  simpl. by f_equal.
Qed.

Lemma instructions_of_replicate_None n :
  instructions_of (replicate n None) = [].
Proof. unfold instructions_of. by induction n. Qed.

Lemma update_all_app (old_target new_target : ptr) l1 l2 :
  update_all old_target new_target (l1 ++ l2)
  = update_all old_target new_target l1
    ++ update_all old_target new_target l2.
Proof. unfold update_all. apply fmap_app. Qed.

Lemma update_all_addresses (old_target new_target : ptr) l :
  addresses (update_all old_target new_target l) = addresses l.
Proof.
  unfold addresses, update_all. rewrite <-list_fmap_compose.
  apply list_fmap_ext. by intros i [a ri] _.
Qed.

Section ContainerClaims.

Variable NDEBUG : bool.

(** C4.  For a program ending in END (at address [e]) and a block with at
    least one instruction before its END (the first at address [f]),
    [add_block] returns the program made of the old instructions without the
    old END, each at its address with exactly the targets that held [e]
    rewritten to [f], followed by all instructions of the block in order;
    the block's END is the last instruction. *)
Theorem add_block_appends (body Bl : list (ptr * RoseInstruction))
    (e f bend : ptr) (fi : RoseInstruction) :
  e <> nullptr -> f <> nullptr -> e <> f ->
  Forall (fun x => begin_field x.2 <> Some e) body ->
  exists body' B',
    add_block NDEBUG (owned ((f, fi) :: Bl ++ [(bend, RoseInstrEnd)]))
      (owned (body ++ [(e, RoseInstrEnd)]))
    = Some (owned (body' ++ (f, fi) :: Bl ++ [(bend, RoseInstrEnd)]), B')
    /\ retargeted e f body body'.
Proof.
  intros He Hf Hef Hb.
  exists (update_all e f body), (replicate (S (S (length Bl))) None).
  split; [by apply add_block_explicit | apply update_all_retargeted].
Qed.

(** C5.  For a program ending in END, a position that holds an instruction
    (at address [s]) and a block with at least one instruction before its
    END (at address [bend]), [insert] returns the program in which the
    block's instructions without its END stand, in their order, right before
    the instruction at [s]; each keeps its address and has exactly the
    targets that held [bend] rewritten to [s].  The returned iterator is the
    position of the first spliced instruction. *)
Theorem insert_block_splices (pre post Bbody : list (ptr * RoseInstruction))
    (s bend : ptr) (si : RoseInstruction) :
  back_is_end (owned (pre ++ (s, si) :: post)) = Some true ->
  Bbody <> [] -> bend <> nullptr -> s <> nullptr -> bend <> s ->
  Forall (fun x => begin_field x.2 <> Some bend) Bbody ->
  exists Bbody' B',
    insert_block NDEBUG (length pre)
      (owned (Bbody ++ [(bend, RoseInstrEnd)]))
      (owned (pre ++ (s, si) :: post))
    = Some (length pre, owned (pre ++ Bbody' ++ (s, si) :: post), B')
    /\ retargeted bend s Bbody Bbody'.
Proof.
  intros HP HB Hbend Hs Hne Hb.
  exists (update_all bend s Bbody), (replicate (length Bbody) None).
  split; [by apply insert_block_explicit | apply update_all_retargeted].
Qed.

(** C6.  After [insert(pos, block)] with a block that has instructions
    before its END, the block's vector owns no instruction: each of its
    slots is a null [unique_ptr] (one slot per spliced instruction), and
    every instruction the block held before its END is owned by the
    program. *)
Theorem insert_block_consumes (pre post Bbody : list (ptr * RoseInstruction))
    (s bend : ptr) (si : RoseInstruction) :
  back_is_end (owned (pre ++ (s, si) :: post)) = Some true ->
  Bbody <> [] -> bend <> nullptr -> s <> nullptr -> bend <> s ->
  Forall (fun x => begin_field x.2 <> Some bend) Bbody ->
  exists it' P' B',
    insert_block NDEBUG (length pre)
      (owned (Bbody ++ [(bend, RoseInstrEnd)]))
      (owned (pre ++ (s, si) :: post))
    = Some (it', P', B')
    /\ instructions_of B' = []
    /\ B' = replicate (length Bbody) None
    /\ addresses Bbody ⊆ addresses (instructions_of P').
Proof.
  intros HP HB Hbend Hs Hne Hb.
  eexists _, _, _. split; [by apply insert_block_explicit|].
  split; [apply instructions_of_replicate_None|]. split; [done|].
  rewrite instructions_of_owned. unfold addresses.
  rewrite !fmap_app. fold (addresses (update_all bend s Bbody)).
  rewrite update_all_addresses. unfold addresses.
  intros a Ha. apply elem_of_app. right. apply elem_of_app. by left.
Qed.

(** C8.  For a program ending in END, [replace] of the instruction at
    address [o] by the instruction [r] allocated at address [n] returns the
    program with [r] in that place and every instruction, [r] included, at
    its address with exactly the targets that held [o] rewritten to [n]; no
    other member of any instruction changes. *)
Theorem replace_rewrites (pre post : list (ptr * RoseInstruction))
    (o n : ptr) (oi r : RoseInstruction) :
  back_is_end (owned (pre ++ (o, oi) :: post)) = Some true ->
  o <> nullptr -> n <> nullptr -> o <> n ->
  (post = [] -> code r = ROSE_INSTR_END) ->
  Forall (fun x => begin_field x.2 = Some o ->
                   code r = ROSE_INSTR_SPARSE_ITER_BEGIN)
    (pre ++ (n, r) :: post) ->
  exists pre' r' post',
    replace NDEBUG (length pre) (Some (n, r))
      (owned (pre ++ (o, oi) :: post))
    = Some (owned (pre' ++ (n, r') :: post'))
    /\ retargeted o n pre pre' /\ rewritten o n r r'
    /\ retargeted o n post post'.
Proof.
  intros HP Ho Hn Hne Hend Hb.
  exists (update_all o n pre), (update_target_pure o n r),
    (update_all o n post).
  split.
  - rewrite replace_explicit by done. by rewrite update_all_app.
  - split; [apply update_all_retargeted|].
    split; [apply update_target_pure_rewritten | apply update_all_retargeted].
Qed.

(** C9.  With a block for which [empty()] is true, [insert(pos, block)],
    [add_before_end(block)] and [add_block(block)] return the program as it
    was, and leave the block as it was. *)
Theorem empty_block_is_noop (P B : RoseProgram) (it : nat) :
  back_is_end P = Some true -> (it < length P)%nat ->
  empty NDEBUG B = Some true ->
  insert_block NDEBUG it B P = Some (it, P, B) /\
  add_before_end_block NDEBUG B P = Some (P, B) /\
  add_block NDEBUG B P = Some (P, B).
Proof.
  intros HP Hit HB. repeat split.
  - unfold insert_block. rewrite insert_asserts_back by done.
    simpl. by rewrite HB.
  - unfold add_before_end_block.
    rewrite assert_nonempty by (by apply back_is_end_nonempty).
    simpl. rewrite assert_back by done. simpl. by rewrite HB.
  - unfold add_block.
    rewrite assert_nonempty by (by apply back_is_end_nonempty).
    simpl. rewrite assert_back by done. simpl. by rewrite HB.
Qed.

End ContainerClaims.

(** ** The END invariant *)

Lemma back_is_end_codes (v v' : RoseProgram) :
  Forall2 (fun u u' => code_of u' = code_of u) v v' ->
  back_is_end v' = back_is_end v.
Proof.
  intros H. unfold back_is_end.
  induction H as [|u u' v v' Hu Hv IH]; [done|].
  destruct Hv as [|w w' v v' Hw Hv].
  - simpl. by rewrite Hu.
  - by rewrite !last_cons_cons.
Qed.

Lemma back_is_end_take_drop (P X : RoseProgram) (it : nat) :
  (it < length P)%nat ->
  back_is_end (take it P ++ X ++ drop it P) = back_is_end P.
Proof.
  intros Hit.
  assert (Hd : drop it P <> []).
  { intros Hnil. apply (f_equal length) in Hnil.
    rewrite length_drop in Hnil. simpl in Hnil. lia. }
  rewrite <-(take_drop it P) at 3.
  by rewrite !back_is_end_app by (done || by destruct X).
Qed.

Section EndInvariant.

Variable NDEBUG : bool.

Lemma update_target_code (old_target new_target : ptr) new_code ri ri' :
  update_target NDEBUG old_target new_target new_code ri = Some ri' ->
  code ri' = code ri.
Proof.
  destruct ri; simpl; try (intros [= <-]; reflexivity).
  destruct (begin == old_target); simpl.
  - destruct (assert_ NDEBUG _); simpl; [|discriminate].
    by intros [= <-].
  - by intros [= <-].
Qed.

Lemma update_targets_loop_codes (old_target new_target : ptr) new_code rng :
  forall rng',
  update_targets_loop NDEBUG rng old_target new_target new_code = Some rng' ->
  Forall2 (fun u u' => code_of u' = code_of u) rng rng'.
Proof.
  induction rng as [|u rng IH]; intros rng'; simpl.
  - intros [= <-]. constructor.
  - destruct (assert_ NDEBUG _); simpl; [|discriminate].
    destruct u as [[a ri]|]; simpl; [|discriminate].
    destruct (update_target NDEBUG old_target new_target new_code ri)
      as [ri'|] eqn:Hri; simpl; [|discriminate].
    destruct (update_targets_loop NDEBUG rng old_target new_target new_code)
      as [rest'|] eqn:Hrest; simpl; [|discriminate].
    intros [= <-]. constructor; [|by apply IH].
    simpl. f_equal. by eapply update_target_code.
Qed.

Lemma update_targets_back (old_target new_target : ptr) new_code rng rng' :
  update_targets NDEBUG rng old_target new_target new_code = Some rng' ->
  back_is_end rng' = back_is_end rng.
Proof.
  unfold update_targets.
  destruct (assert_ NDEBUG _); simpl; [|discriminate].
  intros H. by eapply back_is_end_codes, update_targets_loop_codes.
Qed.

Lemma insert_keeps_end (P : RoseProgram) (it it' : nat) u P' :
  back_is_end P = Some true -> (it < length P)%nat ->
  insert NDEBUG it u P = Some (it', P') -> back_is_end P' = Some true.
Proof.
  intros HP Hit H. unfold insert in H.
  apply bind_Some in H as (? & _ & H).
  case_bool_decide; [|discriminate]. injection H as _ <-.
  change (u :: drop it P) with ([u] ++ drop it P).
  by rewrite back_is_end_take_drop.
Qed.

Lemma insert_block_keeps_end (P B : RoseProgram) (it it' : nat) P' B' :
  back_is_end P = Some true -> (it < length P)%nat ->
  insert_block NDEBUG it B P = Some (it', P', B') ->
  back_is_end P' = Some true.
Proof.
  intros HP Hit H. unfold insert_block in H.
  apply bind_Some in H as (? & _ & H).
  apply bind_Some in H as ([] & _ & H).
  - by injection H as _ <- _.
  - repeat (apply bind_Some in H as (? & _ & H)).
    injection H as _ <- _. by rewrite back_is_end_take_drop.
Qed.

Lemma replace_keeps_end (P : RoseProgram) (it : nat) u P' :
  back_is_end P = Some true ->
  (it = length P - 1 -> code_of u = Some ROSE_INSTR_END)%nat ->
  replace NDEBUG it u P = Some P' -> back_is_end P' = Some true.
Proof.
  intros HP Hu H. unfold replace in H.
  apply bind_Some in H as (? & _ & H).
  apply bind_Some in H as (? & _ & H).
  apply bind_Some in H as (w & Hw & H).
  apply bind_Some in H as (prog2 & Hupd & H).
  apply bind_Some in H as (? & _ & H).
  injection H as <-. apply update_targets_back in Hupd. rewrite Hupd.
  apply lookup_lt_Some in Hw.
  destruct (back_is_end_inv P HP) as (v & e & ->).
  rewrite length_app in Hw, Hu. simpl in Hw, Hu.
  destruct (decide (it = length v)) as [->|Hne].
  - rewrite insert_app_r_alt, Nat.sub_diag by done. simpl.
    unfold back_is_end. rewrite last_snoc. simpl.
    rewrite Hu by lia. simpl. by rewrite eqb_refl.
  - rewrite insert_app_l by lia. apply back_is_end_snoc.
Qed.

Lemma add_before_end_keeps_end (P : RoseProgram) u P' :
  back_is_end P = Some true ->
  add_before_end NDEBUG u P = Some P' -> back_is_end P' = Some true.
Proof.
  intros HP H. unfold add_before_end in H.
  apply bind_Some in H as (? & _ & H).
  destruct P as [|w P]; [discriminate|].
  apply bind_Some in H as ([it' P''] & Hins & H). injection H as <-.
  eapply insert_keeps_end; [exact HP | | exact Hins]. simpl. lia.
Qed.

Lemma add_before_end_block_keeps_end (P B : RoseProgram) P' B' :
  back_is_end P = Some true ->
  add_before_end_block NDEBUG B P = Some (P', B') ->
  back_is_end P' = Some true.
Proof.
  intros HP H. unfold add_before_end_block in H.
  apply bind_Some in H as (? & _ & H).
  apply bind_Some in H as (? & _ & H).
  apply bind_Some in H as ([] & _ & H).
  - by injection H as <- _.
  - destruct P as [|w P]; [discriminate|].
    apply bind_Some in H as ([[it' P''] B''] & Hins & H).
    injection H as <- _.
    eapply insert_block_keeps_end; [exact HP | | exact Hins]. simpl. lia.
Qed.

Lemma add_block_keeps_end (P B : RoseProgram) P' B' :
  back_is_end P = Some true -> back_is_end B = Some true ->
  add_block NDEBUG B P = Some (P', B') -> back_is_end P' = Some true.
Proof.
  intros HP HB H. unfold add_block in H.
  apply bind_Some in H as (? & _ & H).
  apply bind_Some in H as (? & _ & H).
  apply bind_Some in H as ([] & _ & H).
  - by injection H as <- _.
  - repeat (apply bind_Some in H as (? & _ & H)).
    injection H as <- _.
    rewrite back_is_end_app; [done | by apply back_is_end_nonempty].
Qed.

Lemma insert_returns (P : RoseProgram) (it : nat) u :
  back_is_end P = Some true -> (it < length P)%nat ->
  insert NDEBUG it u P = Some (it, take it P ++ u :: drop it P).
Proof.
  intros HP Hit. unfold insert. rewrite insert_asserts_back by done.
  simpl. by rewrite bool_decide_eq_true_2 by lia.
Qed.

Lemma add_before_end_returns (P : RoseProgram) u :
  back_is_end P = Some true ->
  exists P', add_before_end NDEBUG u P = Some P'.
Proof.
  intros HP. unfold add_before_end.
  rewrite assert_nonempty by (by apply back_is_end_nonempty). simpl.
  destruct P as [|w P]; [discriminate|].
  rewrite insert_returns by (done || simpl; lia). simpl. by eexists.
Qed.

(** C7 (as amended).  A freshly constructed program holds exactly one
    instruction, an END: [size()] is 1 and [empty()] is true.  From a
    program that ends in END, a program returned by [insert] of an
    instruction or of a block before a position other than [end()], by
    [add_before_end] or by [add_block] of a block ending in END ends in END;
    a program returned by [replace(pos, r)] ends in END provided [r] is an
    END whenever [pos] is the position of the terminating END.  [insert] and
    [add_before_end] of an instruction always return. *)
Theorem END_invariant :
  (forall p : ptr,
     RoseProgram_new p = [Some (p, RoseInstrEnd)] /\
     size (RoseProgram_new p) = 1%nat /\
     empty NDEBUG (RoseProgram_new p) = Some true) /\
  (forall P : RoseProgram, back_is_end P = Some true ->
     (forall it u, (it < length P)%nat ->
        exists P', insert NDEBUG it u P = Some (it, P') /\
                   back_is_end P' = Some true) /\
     (forall it B it' P' B', (it < length P)%nat ->
        insert_block NDEBUG it B P = Some (it', P', B') ->
        back_is_end P' = Some true) /\
     (forall u,
        exists P', add_before_end NDEBUG u P = Some P' /\
                   back_is_end P' = Some true) /\
     (forall B P' B',
        add_before_end_block NDEBUG B P = Some (P', B') ->
        back_is_end P' = Some true) /\
     (forall B P' B', back_is_end B = Some true ->
        add_block NDEBUG B P = Some (P', B') ->
        back_is_end P' = Some true) /\
     (forall it u P',
        (it = length P - 1 -> code_of u = Some ROSE_INSTR_END)%nat ->
        replace NDEBUG it u P = Some P' -> back_is_end P' = Some true)).
Proof.
  split.
  - intros p. repeat split. apply (empty_snoc NDEBUG [] p).
  - intros P HP. repeat split.
    + intros it u Hit. eexists. split; [by apply insert_returns|].
      eapply insert_keeps_end; [exact HP | exact Hit |].
      by apply insert_returns.
    + intros *. by apply insert_block_keeps_end.
    + intros u. destruct (add_before_end_returns P u HP) as [P' HP'].
      exists P'. split; [done|]. by eapply add_before_end_keeps_end.
    + intros *. by apply add_before_end_block_keeps_end.
    + intros *. by apply add_block_keeps_end.
    + intros *. by apply replace_keeps_end.
Qed.

End EndInvariant.

(** * Program hash against program equivalence *)

(** C1 fails on the code.  Two programs, each a SPARSE_ITER_BEGIN with an
    empty jump table branching to its END, that differ only in [num_keys]
    (8 against 16): they are equivalent for every record length and
    alignment, since [equiv_to] does not read [num_keys], and their hashes
    differ, since [hash] does. *)
Theorem equivalent_programs_hash_differently
    (byte_length alignment : RoseInstructionCode -> Z) :
  let P := owned [(1%N, RoseInstrSparseIterBegin 8 [] 2%N false 0 0);
                  (2%N, RoseInstrEnd)] in
  let Q := owned [(3%N, RoseInstrSparseIterBegin 16 [] 4%N false 0 0);
                  (4%N, RoseInstrEnd)] in
  equivalent byte_length alignment P Q = Some true /\
  RoseProgramHash example_code_value P <> RoseProgramHash example_code_value Q.
Proof.
  intros P Q. split.
  - unfold equivalent, makeOffsetMap, P, Q. simpl.
    unfold at_eq.
    rewrite !lookup_insert_eq. simpl. by rewrite !eqb_refl.
  - intros H. vm_compute in H. discriminate H.
Qed.

(** * Concrete runs *)

(** The claim C7 as stated fails: replacing the terminating END of a fresh
    program by a REPORT does not return a program that ends in END.  With
    assertions the closing assertion of [replace] fails; under [NDEBUG] the
    program returned ends in the REPORT. *)
Lemma replace_END_counterexample :
  let P := RoseProgram_new 1%N in
  let r := Some (2%N, RoseInstrReport 42 0) in
  back_is_end P = Some true /\
  ~ (exists P', replace false 0 r P = Some P' /\ back_is_end P' = Some true)
  /\
  ~ (exists P', replace true 0 r P = Some P' /\ back_is_end P' = Some true).
Proof.
  intros P r. split; [reflexivity|].
  split; intros (P' & H & HP'); vm_compute in H.
  - discriminate H.
  - injection H as <-. vm_compute in HP'. discriminate HP'.
Qed.

Lemma equiv_characterisation_witness :
  equiv (RoseInstrCheckBounds 10 100 5%N) (RoseInstrCheckBounds 10 100 9%N)
    {[ 5%N := 16 ]} {[ 9%N := 16 ]} = Some true.
Proof.
  apply (proj1 (equiv_characterisation _ _ _ _)); [discriminate|].
  repeat split. apply Forall2_same_offset_1. exists 16.
  split; apply lookup_insert_eq.
Defined.

Lemma hash_ignores_targets_witness :
  hash example_code_value (RoseInstrSparseIterNext 3 5%N 6%N)
  = hash example_code_value (RoseInstrSparseIterNext 3 7%N 8%N).
Proof. apply hash_ignores_targets; reflexivity. Defined.

Lemma trivial_hash_and_equiv_witness :
  hash example_code_value RoseInstrCatchUp = 14 /\
  equiv RoseInstrCatchUp RoseInstrCatchUp {[ 1%N := 0 ]} ∅ = Some true /\
  equiv RoseInstrEnd RoseInstrEnd {[ 1%N := 0 ]} ∅ = Some true.
Proof.
  apply (trivial_hash_and_equiv example_code_value RoseInstrCatchUp
           RoseInstrCatchUp); [reflexivity | reflexivity | simpl; lia].
Defined.

Lemma add_block_appends_witness :
  exists body' B',
    add_block false
      (owned ((20%N, RoseInstrReport 2 0)
              :: [(21%N, RoseInstrCheckOnlyEod 22%N)]
              ++ [(22%N, RoseInstrEnd)]))
      (owned ([(10%N, RoseInstrReport 1 0);
               (11%N, RoseInstrCheckOnlyEod 12%N)]
              ++ [(12%N, RoseInstrEnd)]))
    = Some (owned (body' ++ (20%N, RoseInstrReport 2 0)
                   :: [(21%N, RoseInstrCheckOnlyEod 22%N)]
                   ++ [(22%N, RoseInstrEnd)]), B')
    /\ retargeted 12%N 20%N
         [(10%N, RoseInstrReport 1 0); (11%N, RoseInstrCheckOnlyEod 12%N)]
         body'.
Proof.
  apply add_block_appends; [discriminate | discriminate | discriminate |].
  repeat constructor; discriminate.
Defined.

Lemma insert_block_splices_witness :
  exists Bbody' B',
    insert_block false (length [(10%N, RoseInstrReport 1 0)])
      (owned ([(20%N, RoseInstrCheckOnlyEod 22%N)] ++ [(22%N, RoseInstrEnd)]))
      (owned ([(10%N, RoseInstrReport 1 0)] ++ (12%N, RoseInstrEnd) :: []))
    = Some (length [(10%N, RoseInstrReport 1 0)],
            owned ([(10%N, RoseInstrReport 1 0)] ++ Bbody'
                   ++ (12%N, RoseInstrEnd) :: []), B')
    /\ retargeted 22%N 12%N [(20%N, RoseInstrCheckOnlyEod 22%N)] Bbody'.
Proof.
  apply insert_block_splices;
    [reflexivity | discriminate | discriminate | discriminate | discriminate |].
  repeat constructor; discriminate.
Defined.

Lemma insert_block_consumes_witness :
  exists it' P' B',
    insert_block true (length [(10%N, RoseInstrReport 1 0)])
      (owned ([(20%N, RoseInstrCheckOnlyEod 22%N);
               (21%N, RoseInstrReport 2 0)] ++ [(22%N, RoseInstrEnd)]))
      (owned ([(10%N, RoseInstrReport 1 0)] ++ (12%N, RoseInstrEnd) :: []))
    = Some (it', P', B')
    /\ instructions_of B' = []
    /\ B' = replicate
              (length [(20%N, RoseInstrCheckOnlyEod 22%N);
                       (21%N, RoseInstrReport 2 0)]) None
    /\ addresses [(20%N, RoseInstrCheckOnlyEod 22%N);
                  (21%N, RoseInstrReport 2 0)]
       ⊆ addresses (instructions_of P').
Proof.
  apply insert_block_consumes;
    [reflexivity | discriminate | discriminate | discriminate | discriminate |].
  repeat constructor; discriminate.
Defined.

Lemma replace_rewrites_witness :
  exists pre' r' post',
    replace false (length [(10%N, RoseInstrCheckOnlyEod 11%N)])
      (Some (30%N, RoseInstrReport 7 0))
      (owned ([(10%N, RoseInstrCheckOnlyEod 11%N)]
              ++ (11%N, RoseInstrReport 1 0) :: [(12%N, RoseInstrEnd)]))
    = Some (owned (pre' ++ (30%N, r') :: post'))
    /\ retargeted 11%N 30%N [(10%N, RoseInstrCheckOnlyEod 11%N)] pre'
    /\ rewritten 11%N 30%N (RoseInstrReport 7 0) r'
    /\ retargeted 11%N 30%N [(12%N, RoseInstrEnd)] post'.
Proof.
  apply replace_rewrites;
    [reflexivity | discriminate | discriminate | discriminate
    | discriminate |].
  repeat constructor; discriminate.
Defined.

Lemma empty_block_is_noop_witness :
  let P := owned [(10%N, RoseInstrReport 1 0); (12%N, RoseInstrEnd)] in
  let B := RoseProgram_new 20%N in
  insert_block false 1 B P = Some (1%nat, P, B) /\
  add_before_end_block false B P = Some (P, B) /\
  add_block false B P = Some (P, B).
Proof.
  apply empty_block_is_noop; [reflexivity | simpl; lia | reflexivity].
Defined.

Lemma END_invariant_witness :
  (exists P', insert false 0 (Some (30%N, RoseInstrReport 7 0))
                (RoseProgram_new 1%N) = Some (0%nat, P') /\
              back_is_end P' = Some true) /\
  back_is_end [Some (10%N, RoseInstrCheckOnlyEod 30%N);
               Some (30%N, RoseInstrEnd)] = Some true.
Proof.
  split.
  - apply (proj2 (END_invariant false) (RoseProgram_new 1%N));
      [reflexivity | simpl; lia].
  - apply (proj2 (END_invariant true)
             [Some (10%N, RoseInstrCheckOnlyEod 12%N);
              Some (12%N, RoseInstrEnd)] eq_refl)
      with (it := 1%nat) (u := Some (30%N, RoseInstrEnd));
      [reflexivity | reflexivity].
Defined.

(** * Further properties: [operator==], [equiv] as a relation *)

(** [operator==] of each class.  Its argument has the class of [this], so a
    pair of two classes is not an expression of the program ([None]).  The
    trivial classes inherit [RoseInstrBaseTrivial::operator==]; the classes
    holding a [som_operation] compare it with [memcmp]; SPARSE_ITER_BEGIN
    compares its three public members only. *)
Definition operator_eq (this ri : RoseInstruction) : option bool :=
  match this, ri with
  | RoseInstrAnchoredDelay g t, RoseInstrAnchoredDelay g' t' =>
      Some ((g == g') && (t == t'))
  | RoseInstrCheckLitEarly m, RoseInstrCheckLitEarly m' => Some (m == m')
  | RoseInstrCheckGroups g, RoseInstrCheckGroups g' => Some (g == g')
  | RoseInstrCheckOnlyEod t, RoseInstrCheckOnlyEod t' => Some (t == t')
  | RoseInstrCheckBounds a b t, RoseInstrCheckBounds a' b' t' =>
      Some ((a == a') && (b == b') && (t == t'))
  | RoseInstrCheckNotHandled k t, RoseInstrCheckNotHandled k' t' =>
      Some ((k == k') && (t == t'))
  | RoseInstrCheckLookaround i c t, RoseInstrCheckLookaround i' c' t' =>
      Some ((i == i') && (c == c') && (t == t'))
  | RoseInstrCheckMask a c n o t, RoseInstrCheckMask a' c' n' o' t' =>
      Some ((a == a') && (c == c') && (n == n') && (o == o') && (t == t'))
  | RoseInstrCheckMask32 a c n o t, RoseInstrCheckMask32 a' c' n' o' t' =>
      Some ((a == a') && (c == c') && (n == n') && (o == o') && (t == t'))
  | RoseInstrCheckByte a c n o t, RoseInstrCheckByte a' c' n' o' t' =>
      Some ((a == a') && (c == c') && (n == n') && (o == o') && (t == t'))
  | RoseInstrCheckInfix q l r t, RoseInstrCheckInfix q' l' r' t' =>
      Some ((q == q') && (l == l') && (r == r') && (t == t'))
  | RoseInstrCheckPrefix q l r t, RoseInstrCheckPrefix q' l' r' t' =>
      Some ((q == q') && (l == l') && (r == r') && (t == t'))
  | RoseInstrPushDelayed d i, RoseInstrPushDelayed d' i' =>
      Some ((d == d') && (i == i'))
  | RoseInstrRecordAnchored i, RoseInstrRecordAnchored i' => Some (i == i')
  | RoseInstrCatchUp, RoseInstrCatchUp => Some true
  | RoseInstrCatchUpMpv, RoseInstrCatchUpMpv => Some true
  | RoseInstrSomAdjust d, RoseInstrSomAdjust d' => Some (d == d')
  | RoseInstrSomLeftfix q l, RoseInstrSomLeftfix q' l' =>
      Some ((q == q') && (l == l'))
  | RoseInstrSomFromReport s, RoseInstrSomFromReport s' => Some (s == s')
  | RoseInstrSomZero, RoseInstrSomZero => Some true
  | RoseInstrTriggerInfix c q e, RoseInstrTriggerInfix c' q' e' =>
      Some ((c == c') && (q == q') && (e == e'))
  | RoseInstrTriggerSuffix q e, RoseInstrTriggerSuffix q' e' =>
      Some ((q == q') && (e == e'))
  | RoseInstrDedupe q d o t, RoseInstrDedupe q' d' o' t' =>
      Some ((q == q') && (d == d') && (o == o') && (t == t'))
  | RoseInstrDedupeSom q d o t, RoseInstrDedupeSom q' d' o' t' =>
      Some ((q == q') && (d == d') && (o == o') && (t == t'))
  | RoseInstrReportChain e d, RoseInstrReportChain e' d' =>
      Some ((e == e') && (d == d'))
  | RoseInstrReportSomInt s, RoseInstrReportSomInt s' => Some (s == s')
  | RoseInstrReportSomAware s, RoseInstrReportSomAware s' => Some (s == s')
  | RoseInstrReport m o, RoseInstrReport m' o' =>
      Some ((m == m') && (o == o'))
  | RoseInstrReportExhaust m o e, RoseInstrReportExhaust m' o' e' =>
      Some ((m == m') && (o == o') && (e == e'))
  | RoseInstrReportSom m o, RoseInstrReportSom m' o' =>
      Some ((m == m') && (o == o'))
  | RoseInstrReportSomExhaust m o e, RoseInstrReportSomExhaust m' o' e' =>
      Some ((m == m') && (o == o') && (e == e'))
  | RoseInstrDedupeAndReport q d m o t,
    RoseInstrDedupeAndReport q' d' m' o' t' =>
      Some ((q == q') && (d == d') && (m == m') && (o == o') && (t == t'))
  | RoseInstrFinalReport m o, RoseInstrFinalReport m' o' =>
      Some ((m == m') && (o == o'))
  | RoseInstrCheckExhausted e t, RoseInstrCheckExhausted e' t' =>
      Some ((e == e') && (t == t'))
  | RoseInstrCheckMinLength e m t, RoseInstrCheckMinLength e' m' t' =>
      Some ((e == e') && (m == m') && (t == t'))
  | RoseInstrSetState i, RoseInstrSetState i' => Some (i == i')
  | RoseInstrSetGroups g, RoseInstrSetGroups g' => Some (g == g')
  | RoseInstrSquashGroups g, RoseInstrSquashGroups g' => Some (g == g')
  | RoseInstrCheckState i t, RoseInstrCheckState i' t' =>
      Some ((i == i') && (t == t'))
  | RoseInstrSparseIterBegin n jt t _ _ _,
    RoseInstrSparseIterBegin n' jt' t' _ _ _ =>
      Some ((n == n') && (jt == jt') && (t == t'))
  | RoseInstrSparseIterNext s b t, RoseInstrSparseIterNext s' b' t' =>
      Some ((s == s') && (b == b') && (t == t'))
  | RoseInstrSparseIterAny n ks t, RoseInstrSparseIterAny n' ks' t' =>
      Some ((n == n') && (ks == ks') && (t == t'))
  | RoseInstrEnginesEod i, RoseInstrEnginesEod i' => Some (i == i')
  | RoseInstrSuffixesEod, RoseInstrSuffixesEod => Some true
  | RoseInstrMatcherEod, RoseInstrMatcherEod => Some true
  | RoseInstrEnd, RoseInstrEnd => Some true
  | _, _ => None
  end.

(** Every target of the instruction has an entry in the offset map. *)
Definition targets_known (offsets : gmap N Z) (ri : RoseInstruction) : Prop :=
  Forall (fun t => is_Some (offsets !! t)) (targets ri).

Ltac eq_hyps :=
  repeat match goal with
    | H : (_ && _) = true |- _ => apply andb_true_iff in H; destruct H
    | H : (_ == _) = true |- _ => apply eqb_eq in H
    | H : Some (_ && _) = Some true |- _ => injection H as H
    | H : Some (_ == _) = Some true |- _ => injection H as H
    end.

(** [operator==] holds exactly between two instructions of one class whose
    public members, targets included, are all equal; the private members of
    SPARSE_ITER_BEGIN are not looked at. *)
Theorem operator_eq_characterisation (a b : RoseInstruction) :
  operator_eq a b = Some true <-> clear_emission a = clear_emission b.
Proof.
  split.
  - intros H. destruct a, b; simpl in H |- *; try discriminate H;
      eq_hyps; subst; reflexivity.
  - intros H. destruct a, b; simpl in H |- *; try discriminate H;
      try (injection H as H); intros; subst; rewrite ?eqb_refl; reflexivity.
Qed.

Section OperatorEqHash.

Variable code_value : RoseInstructionCode -> Z.

Lemma hash_clear_emission (ri : RoseInstruction) :
  hash code_value (clear_emission ri) = hash code_value ri.
Proof. by destruct ri. Qed.

(** Instructions that compare equal with [operator==] have equal hashes. *)
Theorem operator_eq_hash (a b : RoseInstruction) :
  operator_eq a b = Some true -> hash code_value a = hash code_value b.
Proof.
  intros H. apply operator_eq_characterisation in H.
  rewrite <-(hash_clear_emission a), <-(hash_clear_emission b).
  by rewrite H.
Qed.

End OperatorEqHash.

(** ** [equiv] of an instruction with itself, and missing offsets *)

Lemma at_eq_known (m : gmap N Z) (t : ptr) :
  is_Some (m !! t) -> at_eq m m t t = Some true.
Proof. intros [o Ho]. apply at_eq_true. by exists o. Qed.

Lemma at_eq_diag (m : gmap N Z) (t : ptr) :
  at_eq m m t t = Some true \/ at_eq m m t t = None.
Proof.
  unfold at_eq. destruct (m !! t); simpl; [left | by right].
  by rewrite eqb_refl.
Qed.

Lemma jump_table_equiv_diag (m : gmap N Z) (jt : list (Z * ptr)) :
  jump_table_equiv m m jt jt = Some true \/ jump_table_equiv m m jt jt = None.
Proof.
  induction jt as [|[k t] jt IH]; simpl; [by left|].
  rewrite eqb_refl. simpl.
  destruct (at_eq_diag m t) as [-> | ->]; simpl; [exact IH | by right].
Qed.

Lemma equiv_diag (m : gmap N Z) (a : RoseInstruction) :
  equiv a a m m = Some true \/ equiv a a m m = None.
Proof.
  destruct a; simpl; rewrite ?eqb_refl; simpl; try (by left);
    try apply at_eq_diag.
  - destruct (at_eq_diag m target) as [-> | ->]; simpl; [|by right].
    apply jump_table_equiv_diag.
  - destruct (at_eq_diag m begin) as [-> | ->]; simpl; [|by right].
    apply at_eq_diag.
Qed.

Lemma Forall2_same_offset_known (m m' : gmap N Z) (ts ts' : list ptr) :
  Forall2 (same_offset m m') ts ts' ->
  Forall (fun t => is_Some (m !! t)) ts.
Proof.
  induction 1 as [|t t' ts ts' (o & Ho & _) _ IH]; constructor; [|done].
  by exists o.
Qed.

Lemma Forall_known_same_offset (m : gmap N Z) (ts : list ptr) :
  Forall (fun t => is_Some (m !! t)) ts ->
  Forall2 (same_offset m m) ts ts.
Proof.
  induction 1 as [|t ts [o Ho] _ IH]; constructor; [|done].
  by exists o.
Qed.

(** The exact condition under which [equiv_to] of SPARSE_ITER_BEGIN returns
    true: [num_keys], [is_written] and [jump_table_offset] play no part. *)
Lemma equiv_sparse_iter_begin_iff (a b : RoseInstruction) (oa ob : gmap N Z) :
  code a = ROSE_INSTR_SPARSE_ITER_BEGIN ->
  (equiv a b oa ob = Some true
   <-> code a = code b /\ jump_keys a = jump_keys b /\
       begin_iter_offset a = begin_iter_offset b /\
       Forall2 (same_offset oa ob) (targets a) (targets b)).
Proof.
  intros Ha. split; [by apply equiv_sparse_iter_begin_sound|].
  intros (Hc & Hk & Hio & Ht).
  destruct a; try discriminate Ha. destruct b; try discriminate Hc.
  simpl in Hk, Hio, Ht |- *. subst.
  assert (Hlen : length jump_table = length jump_table0).
  { by rewrite <-(length_fmap fst jump_table), Hk, length_fmap. }
  apply Forall2_app_inv in Ht as [Hj Ht]; [|by rewrite !length_fmap].
  apply Forall2_cons_1 in Ht as [Ht _].
  rewrite eqb_refl. simpl.
  apply at_eq_true in Ht. rewrite Ht. simpl.
  rewrite Hlen, eqb_refl. simpl.
  by apply jump_table_equiv_true.
Qed.

Lemma equiv_true_known (a b : RoseInstruction) (oa ob : gmap N Z) :
  equiv a b oa ob = Some true -> targets_known oa a.
Proof.
  intros H. unfold targets_known.
  destruct (decide (code a = ROSE_INSTR_SPARSE_ITER_BEGIN)) as [Ha|Ha].
  - apply (equiv_sparse_iter_begin_iff a b oa ob Ha) in H
      as (_ & _ & _ & Ht).
    by eapply Forall2_same_offset_known.
  - apply (equiv_other_classes a b oa ob Ha) in H as (_ & _ & Ht).
    by eapply Forall2_same_offset_known.
Qed.

(** An instruction is [equiv] to itself under one offset map exactly when
    every one of its targets has an offset; when one has none, the call does
    not return false but throws ([std::out_of_range] from [at]). *)
Theorem equiv_self (m : gmap N Z) (a : RoseInstruction) :
  (targets_known m a -> equiv a a m m = Some true) /\
  (~ targets_known m a -> equiv a a m m = None).
Proof.
  split.
  - intros Hk. apply Forall_known_same_offset in Hk.
    destruct (decide (code a = ROSE_INSTR_SPARSE_ITER_BEGIN)) as [Ha|Ha].
    + by apply equiv_sparse_iter_begin_iff.
    + by apply equiv_other_classes.
  - intros Hk. destruct (equiv_diag m a) as [H|H]; [|exact H].
    exfalso. apply Hk. by eapply equiv_true_known.
Qed.

(** ** [equiv] is symmetric and transitive *)

Lemma eqb_sym {A} `{EqDecision A} (x y : A) : (x == y) = (y == x).
Proof. unfold eqb_. apply bool_decide_ext. split; congruence. Qed.

Lemma at_eq_sym (oa ob : gmap N Z) (t t' : ptr) :
  at_eq ob oa t' t = at_eq oa ob t t'.
Proof.
  unfold at_eq. destruct (oa !! t), (ob !! t'); simpl; try done.
  by rewrite eqb_sym.
Qed.

Lemma jump_table_equiv_sym (oa ob : gmap N Z) (jt : list (Z * ptr)) :
  forall jt', length jt = length jt' ->
  jump_table_equiv ob oa jt' jt = jump_table_equiv oa ob jt jt'.
Proof.
  induction jt as [|[k t] jt IH]; intros [|[k' t'] jt'] Hlen;
    try discriminate Hlen; [done|].
  simpl. rewrite (eqb_sym k' k), (at_eq_sym oa ob).
  destruct (k == k'); simpl; [|done].
  destruct (at_eq oa ob t t') as [[]|]; simpl; try done.
  apply IH. by injection Hlen.
Qed.

Ltac equiv_sym_step :=
  first [ reflexivity | apply eqb_sym
        | apply (f_equal2 and_then) | apply (f_equal2 andb)
        | apply (f_equal (@Some bool)) ].

(** [b.equiv(a, offsets_b, offsets_a)] gives the result, or the exception,
    of [a.equiv(b, offsets_a, offsets_b)]. *)
Theorem equiv_symmetric (a b : RoseInstruction) (oa ob : gmap N Z) :
  equiv b a ob oa = equiv a b oa ob.
Proof.
  destruct a, b; try reflexivity; simpl; rewrite ?(at_eq_sym oa ob);
    try (repeat equiv_sym_step; fail).
  - rewrite (eqb_sym iter_offset0 iter_offset),
      (eqb_sym (length jump_table0) (length jump_table)).
    destruct (iter_offset == iter_offset0); simpl; [|done].
    destruct (at_eq oa ob target target0) as [[]|]; simpl; try done.
    destruct (length jump_table == length jump_table0) eqn:Hlen; simpl;
      [|done].
    apply eqb_eq in Hlen. by apply jump_table_equiv_sym.
Qed.

Lemma Forall2_same_offset_trans (oa ob oc : gmap N Z) (ts : list ptr) :
  forall ts' ts'',
  Forall2 (same_offset oa ob) ts ts' -> Forall2 (same_offset ob oc) ts' ts'' ->
  Forall2 (same_offset oa oc) ts ts''.
Proof.
  induction ts as [|t ts IH]; intros ts' ts'' H1 H2.
  - apply Forall2_nil_inv_l in H1 as ->.
    by apply Forall2_nil_inv_l in H2 as ->.
  - apply Forall2_cons_inv_l in H1 as (t' & r' & (o & Ho & Ho') & H1 & ->).
    apply Forall2_cons_inv_l in H2 as (t'' & r'' & (p & Hp & Hp') & H2 & ->).
    constructor; [|by eapply IH].
    exists o. split; [done|]. congruence.
Qed.

(** If [a] is [equiv] to [b] and [b] to [c], each under the offset maps of
    their programs, then [a] is [equiv] to [c]. *)
Theorem equiv_transitive (a b c : RoseInstruction) (oa ob oc : gmap N Z) :
  equiv a b oa ob = Some true -> equiv b c ob oc = Some true ->
  equiv a c oa oc = Some true.
Proof.
  intros Hab Hbc.
  pose proof (equiv_true_code _ _ _ _ Hab) as Hcab.
  destruct (decide (code a = ROSE_INSTR_SPARSE_ITER_BEGIN)) as [Ha|Ha].
  - assert (Hb : code b = ROSE_INSTR_SPARSE_ITER_BEGIN) by congruence.
    apply (equiv_sparse_iter_begin_iff a b oa ob Ha) in Hab
      as (? & ? & ? & ?).
    apply (equiv_sparse_iter_begin_iff b c ob oc Hb) in Hbc
      as (? & ? & ? & ?).
    apply (equiv_sparse_iter_begin_iff a c oa oc Ha).
    repeat split; try congruence. by eapply Forall2_same_offset_trans.
  - assert (Hb : code b <> ROSE_INSTR_SPARSE_ITER_BEGIN) by congruence.
    apply (equiv_other_classes a b oa ob Ha) in Hab as (? & ? & ?).
    apply (equiv_other_classes b c ob oc Hb) in Hbc as (? & ? & ?).
    apply (equiv_other_classes a c oa oc Ha).
    repeat split; try congruence. by eapply Forall2_same_offset_trans.
Qed.

(** Two instructions that [operator==] finds equal are [equiv] under the
    offset map of their program, as soon as every target has an offset and,
    for SPARSE_ITER_BEGIN, both have the same [iter_offset]. *)
Theorem operator_eq_equiv (a b : RoseInstruction) (m : gmap N Z) :
  operator_eq a b = Some true ->
  begin_iter_offset a = begin_iter_offset b ->
  targets_known m a ->
  equiv a b m m = Some true.
Proof.
  intros H Hio Hk. apply operator_eq_characterisation in H.
  pose proof (proj1 (equiv_self m a) Hk) as Hself.
  destruct a, b; simpl in H; try discriminate H;
    try exact Hself; try (rewrite <-H; exact Hself).
  injection H as -> -> ->. simpl in Hio. subst. exact Hself.
Qed.

(** * Further properties: the sweep over a program *)

(** Every target of every instruction of [l] is the address of an
    instruction of [l]. *)
Definition targets_closed (l : list (ptr * RoseInstruction)) : Prop :=
  Forall (fun x => Forall (fun t => t ∈ addresses l) (targets x.2)) l.

Lemma retarget_ne (old_target new_target t : ptr) :
  t <> old_target -> retarget old_target new_target t = t.
Proof. intros H. rewrite retarget_decide. by case_decide. Qed.

Lemma update_target_pure_id (old_target new_target : ptr) ri :
  old_target ∉ targets ri ->
  update_target_pure old_target new_target ri = ri.
Proof.
  intros H.
  destruct ri; simpl in H |- *; try reflexivity;
    try (rewrite retarget_ne; [reflexivity | set_solver]).
  - apply not_elem_of_app in H as [Hj Ht].
    rewrite retarget_ne by set_solver. f_equal.
    induction jump_table as [|[k t] jt IH]; [done|].
    simpl in Hj |- *. apply not_elem_of_cons in Hj as [Hne Hj].
    rewrite retarget_ne by done. f_equal. by apply IH.
  - rewrite !retarget_ne; [reflexivity | set_solver | set_solver].
Qed.

Lemma targets_update_target_pure (old_target new_target : ptr) ri :
  targets (update_target_pure old_target new_target ri)
  = (fun t => if decide (t = old_target) then new_target else t)
      <$> targets ri.
Proof. by destruct (update_target_pure_rewritten old_target new_target ri)
         as (_ & _ & H). Qed.

Lemma targets_update_target_pure_ne (old_target new_target : ptr) ri :
  old_target <> new_target ->
  old_target ∉ targets (update_target_pure old_target new_target ri).
Proof.
  intros Hne. rewrite targets_update_target_pure.
  intros (t & Ht & _)%list_elem_of_fmap. by case_decide.
Qed.

Section Sweep.

Variable code_value : RoseInstructionCode -> Z.
Variable NDEBUG : bool.

Lemma update_target_Some (old_target new_target : ptr) new_code ri ri' :
  update_target NDEBUG old_target new_target new_code ri = Some ri' ->
  ri' = update_target_pure old_target new_target ri.
Proof.
  destruct ri; simpl; try (by intros [= <-]).
  unfold retarget.
  destruct (begin == old_target); simpl; [|by intros [= <-]].
  destruct (assert_ NDEBUG _); simpl; [|discriminate]. by intros [= <-].
Qed.

Lemma update_targets_loop_Some (old_target new_target : ptr) new_code rng :
  forall rng',
  update_targets_loop NDEBUG rng old_target new_target new_code = Some rng' ->
  exists l, rng = owned l /\ rng' = owned (update_all old_target new_target l).
Proof.
  induction rng as [|u rng IH]; intros rng' H; simpl in H.
  - injection H as <-. by exists [].
  - apply bind_Some in H as (? & _ & H).
    destruct u as [[a ri]|]; [|discriminate]. simpl in H.
    apply bind_Some in H as (ri' & Hri & H).
    apply bind_Some in H as (rest' & Hrest & H). injection H as <-.
    apply update_target_Some in Hri as ->.
    destruct (IH _ Hrest) as (l & -> & ->). by exists ((a, ri) :: l).
Qed.

Lemma update_targets_Some (old_target new_target : ptr) new_code rng rng' :
  update_targets NDEBUG rng old_target new_target new_code = Some rng' ->
  exists l, rng = owned l /\ rng' = owned (update_all old_target new_target l).
Proof.
  unfold update_targets. intros H. apply bind_Some in H as (? & _ & H).
  by eapply update_targets_loop_Some.
Qed.

(** The rewriting sweep does not touch an instruction none of whose target
    fields holds [old_target]; in particular it never changes an instruction
    of a class without target fields. *)
Theorem update_target_untouched (old_target new_target : ptr) new_code ri :
  old_target ∉ targets ri ->
  update_target NDEBUG old_target new_target new_code ri = Some ri.
Proof.
  intros H. rewrite update_target_ok.
  - by rewrite update_target_pure_id.
  - intros Hb. destruct ri; try discriminate Hb.
    injection Hb as ->. simpl in H. set_solver.
Qed.

(** After [update_targets(old_target, new_target)] with two different
    pointers, no instruction of the range holds [old_target] in any target
    field, every instruction is at its old address, and the range has its old
    length. *)
Theorem update_targets_forgets_old (old_target new_target : ptr) new_code
    (rng rng' : list unique_ptr) :
  old_target <> new_target ->
  update_targets NDEBUG rng old_target new_target new_code = Some rng' ->
  Forall (fun x => old_target ∉ targets x.2) (instructions_of rng') /\
  get <$> rng' = get <$> rng /\ length rng' = length rng.
Proof.
  intros Hne H. apply update_targets_Some in H as (l & -> & ->).
  rewrite instructions_of_owned. repeat split.
  - unfold update_all. apply Forall_fmap, Forall_forall. intros [a ri] _.
    simpl. by apply targets_update_target_pure_ne.
  - unfold owned, update_all. rewrite <-!list_fmap_compose.
    apply list_fmap_ext. by intros i [a ri] _.
  - unfold update_all. by rewrite !owned_length, length_fmap.
Qed.

Lemma RoseProgramHash_from_update_all (old_target new_target : ptr) l :
  forall v,
  RoseProgramHash_from code_value v (owned (update_all old_target new_target l))
  = RoseProgramHash_from code_value v (owned l).
Proof.
  induction l as [|[a ri] l IH]; intros v; [done|].
  unfold update_all, owned in *. simpl.
  rewrite hash_update_target_pure. apply IH.
Qed.

Lemma RoseProgramHash_from_app (P Q : RoseProgram) : forall v,
  RoseProgramHash_from code_value v (P ++ Q)
  = h ← RoseProgramHash_from code_value v P;
    RoseProgramHash_from code_value h Q.
Proof.
  induction P as [|[[a ri]|] P IH]; intros v; simpl; done.
Qed.

(** The hash of a program is not changed by the rewriting sweep. *)
Theorem update_targets_keeps_hash (old_target new_target : ptr) new_code
    (rng rng' : list unique_ptr) :
  update_targets NDEBUG rng old_target new_target new_code = Some rng' ->
  RoseProgramHash code_value rng' = RoseProgramHash code_value rng.
Proof.
  intros H. apply update_targets_Some in H as (l & -> & ->).
  apply RoseProgramHash_from_update_all.
Qed.

(** The program [add_block] returns hashes like the old instructions
    without the old END followed by the block: the rewritten targets do not
    show in the hash. *)
Theorem add_block_hash (P B P' B' : RoseProgram) :
  empty NDEBUG B = Some false ->
  add_block NDEBUG B P = Some (P', B') ->
  RoseProgramHash code_value P'
  = RoseProgramHash code_value (removelast P ++ B).
Proof.
  intros HB H. unfold add_block in H.
  apply bind_Some in H as (? & _ & H).
  apply bind_Some in H as (? & _ & H).
  rewrite HB in H. simpl in H.
  apply bind_Some in H as (end_ptr & _ & H).
  apply bind_Some in H as (front & _ & H).
  apply bind_Some in H as (prog2 & Hupd & H). injection H as <- _.
  unfold RoseProgramHash. rewrite !RoseProgramHash_from_app.
  apply update_targets_keeps_hash in Hupd. unfold RoseProgramHash in Hupd.
  by rewrite Hupd.
Qed.

End Sweep.

(** * Further properties: the container interface *)

Lemma targets_within_mono (K K' : list ptr)
    (l : list (ptr * RoseInstruction)) :
  (forall t, t ∈ K -> t ∈ K') ->
  Forall (fun x => Forall (fun t => t ∈ K) (targets x.2)) l ->
  Forall (fun x => Forall (fun t => t ∈ K') (targets x.2)) l.
Proof.
  intros HK H. eapply Forall_impl; [exact H|]. intros x Hx.
  eapply Forall_impl; [exact Hx|]. exact HK.
Qed.

Lemma targets_within_update_all (old_target new_target : ptr)
    (K K' : list ptr) (l : list (ptr * RoseInstruction)) :
  (forall t, t ∈ K -> t <> old_target -> t ∈ K') -> new_target ∈ K' ->
  Forall (fun x => Forall (fun t => t ∈ K) (targets x.2)) l ->
  Forall (fun x => Forall (fun t => t ∈ K') (targets x.2))
    (update_all old_target new_target l).
Proof.
  intros HK Hn H. unfold update_all. apply Forall_fmap.
  eapply Forall_impl; [exact H|]. intros [a ri] Hx. simpl in *.
  rewrite targets_update_target_pure. apply Forall_fmap.
  eapply Forall_impl; [exact Hx|]. intros t Ht. simpl.
  case_decide; [exact Hn | by apply HK].
Qed.

Lemma end_instruction_last (NDEBUG : bool) (P : RoseProgram) :
  back_is_end P = Some true -> end_instruction NDEBUG P = get <$> last P.
Proof.
  intros HP. destruct (back_is_end_inv P HP) as (v & e & ->).
  by rewrite end_instruction_snoc, last_snoc.
Qed.

Lemma last_take_drop {A} (P X : list A) (it : nat) :
  (it < length P)%nat -> last (take it P ++ X ++ drop it P) = last P.
Proof.
  intros Hit. rewrite <-(take_drop it P) at 3.
  destruct (drop it P) as [|x d] eqn:Hd.
  - apply (f_equal length) in Hd. rewrite length_drop in Hd. simpl in Hd. lia.
  - by rewrite app_assoc, !last_app_cons.
Qed.

Section ContainerExtras.

Variable code_value : RoseInstructionCode -> Z.
Variable NDEBUG : bool.

(** [insert(it, ri)] before a position other than [end()] of a program
    ending in END returns an iterator to the new slot: that position now
    holds [ri], the slots before it are as they were, those from it on have
    moved up by one, and the size has grown by one. *)
Theorem insert_lookup (P : RoseProgram) (it : nat) (u : unique_ptr) :
  back_is_end P = Some true -> (it < length P)%nat ->
  exists P',
    insert NDEBUG it u P = Some (it, P') /\
    P' !! it = Some u /\
    (forall i, (i < it)%nat -> P' !! i = P !! i) /\
    (forall i, (it <= i)%nat -> P' !! S i = P !! i) /\
    size P' = S (size P).
Proof.
  intros HP Hit. eexists. split; [by apply insert_returns|].
  assert (Hlen : length (take it P) = it) by (rewrite length_take; lia).
  repeat split.
  - by apply list_lookup_middle.
  - intros i Hi. rewrite lookup_app_l by lia. by apply lookup_take_lt.
  - intros i Hi. rewrite lookup_app_r by lia. rewrite Hlen.
    replace (S i - it)%nat with (S (i - it)) by lia. simpl.
    rewrite lookup_drop. f_equal. lia.
  - unfold size. rewrite length_app. simpl. rewrite length_drop. lia.
Qed.

(** [add_before_end(ri)] puts the instruction right before the terminating
    END, which stays the same object; afterwards the program is not
    [empty()].  No precondition beyond the program ending in END. *)
Theorem add_before_end_places (v : RoseProgram) (e : ptr) (u : unique_ptr) :
  let P' := v ++ [u; Some (e, RoseInstrEnd)] in
  add_before_end NDEBUG u (v ++ [Some (e, RoseInstrEnd)]) = Some P' /\
  end_instruction NDEBUG P' = Some e /\
  empty NDEBUG P' = Some false.
Proof.
  intros P'.
  assert (HP' : P' = (v ++ [u]) ++ [Some (e, RoseInstrEnd)]).
  { unfold P'. by rewrite <-app_assoc. }
  repeat split.
  - unfold add_before_end.
    rewrite assert_nonempty by apply snoc_nonempty. simpl.
    destruct (v ++ [Some (e, RoseInstrEnd)]) as [|w P] eqn:HP.
    { by destruct v. }
    rewrite <-HP. rewrite insert_returns;
      [|apply back_is_end_snoc | rewrite length_app; simpl; lia].
    simpl. f_equal. rewrite length_app. simpl.
    replace (length v + 1 - 1)%nat with (length v) by lia.
    by rewrite take_app_length, drop_app_length.
  - rewrite HP'. apply end_instruction_snoc.
  - rewrite HP', empty_snoc. f_equal.
    apply bool_decide_eq_false_2, snoc_nonempty.
Qed.

(** Sizes.  A program returned by [add_block] or by [insert] of a block
    that is not [empty()] has the size of the program plus the size of the
    block minus one END; [replace] keeps the size.  The vector of the block
    keeps its size after [add_block] and loses one slot, that of its END,
    after [insert]. *)
Theorem container_sizes (P B : RoseProgram) :
  empty NDEBUG B = Some false ->
  (forall P' B', add_block NDEBUG B P = Some (P', B') ->
     (size P' + 1 = size P + size B)%nat /\ size B' = size B) /\
  (forall it it' P' B', insert_block NDEBUG it B P = Some (it', P', B') ->
     (size P' + 1 = size P + size B)%nat /\ (size B' + 1 = size B)%nat) /\
  (forall it u P', replace NDEBUG it u P = Some P' -> size P' = size P).
Proof.
  intros HB. unfold size. split; [|split].
  - intros P' B' H. unfold add_block in H.
    apply bind_Some in H as (? & _ & H).
    apply bind_Some in H as (? & _ & H).
    rewrite HB in H. simpl in H.
    apply bind_Some in H as (end_ptr & Hend & H).
    apply bind_Some in H as (front & _ & H).
    apply bind_Some in H as (prog2 & Hupd & H). injection H as <- <-.
    apply update_targets_Some in Hupd as (l & Hl & ->).
    rewrite moved_from_replicate, length_replicate.
    split; [|done].
    unfold update_all. rewrite length_app, owned_length, length_fmap.
    apply (f_equal length) in Hl. rewrite owned_length in Hl.
    rewrite <-Hl. destruct P as [|pw P _] using rev_ind.
    + unfold end_instruction in Hend.
      apply bind_Some in Hend as (? & _ & Hend).
      apply bind_Some in Hend as (? & _ & Hend). discriminate Hend.
    + rewrite removelast_last, length_app. simpl. lia.
  - intros it it' P' B' H. unfold insert_block in H.
    apply bind_Some in H as (? & _ & H). rewrite HB in H. simpl in H.
    apply bind_Some in H as (end_ptr & Hend & H).
    apply bind_Some in H as (? & _ & H).
    apply bind_Some in H as (w & Hw & H).
    apply bind_Some in H as (block2 & Hupd & H). injection H as _ <- <-.
    apply update_targets_Some in Hupd as (l & Hl & ->).
    apply lookup_lt_Some in Hw.
    rewrite moved_from_replicate, length_replicate.
    rewrite !length_app, length_take, length_drop.
    unfold update_all. rewrite owned_length, length_fmap.
    apply (f_equal length) in Hl. rewrite owned_length in Hl. rewrite <-Hl.
    destruct B as [|bx B _] using rev_ind.
    + unfold end_instruction in Hend.
      apply bind_Some in Hend as (? & _ & Hend).
      apply bind_Some in Hend as (? & _ & Hend). discriminate Hend.
    + rewrite removelast_last, length_app. simpl. lia.
  - intros it u P' H. unfold replace in H.
    apply bind_Some in H as (? & _ & H).
    apply bind_Some in H as (? & _ & H).
    apply bind_Some in H as (w & _ & H).
    apply bind_Some in H as (prog2 & Hupd & H).
    apply bind_Some in H as (? & _ & H). injection H as <-.
    apply update_targets_Some in Hupd as (l & Hl & ->).
    unfold update_all. rewrite owned_length, length_fmap.
    apply (f_equal length) in Hl.
    rewrite owned_length, length_insert in Hl. by rewrite Hl.
Qed.

End ContainerExtras.

Section ContainerInvariants.

Variable code_value : RoseInstructionCode -> Z.
Variable NDEBUG : bool.

(** Targets stay in the program across [add_block]: when every target of
    the program and every target of the block is the address of one of
    their own instructions, every target of the program returned is the
    address of one of its instructions; these are the old ones without the
    old END, then the block's. *)
Theorem add_block_targets_closed (body Bl : list (ptr * RoseInstruction))
    (e f bend : ptr) (fi : RoseInstruction) :
  e <> nullptr -> f <> nullptr -> e <> f ->
  Forall (fun x => begin_field x.2 <> Some e) body ->
  targets_closed (body ++ [(e, RoseInstrEnd)]) ->
  targets_closed ((f, fi) :: Bl ++ [(bend, RoseInstrEnd)]) ->
  exists l' B',
    add_block NDEBUG (owned ((f, fi) :: Bl ++ [(bend, RoseInstrEnd)]))
      (owned (body ++ [(e, RoseInstrEnd)])) = Some (owned l', B') /\
    targets_closed l' /\
    addresses l'
    = addresses body ++ addresses ((f, fi) :: Bl ++ [(bend, RoseInstrEnd)]).
Proof.
  intros He Hf Hef Hb HP HB. eexists _, _.
  split; [by apply add_block_explicit|].
  set (B := (f, fi) :: Bl ++ [(bend, RoseInstrEnd)]) in *.
  assert (Haddr : addresses (update_all e f body ++ B)
                  = addresses body ++ addresses B).
  { unfold addresses at 1. rewrite fmap_app.
    fold (addresses (update_all e f body)) (addresses B).
    by rewrite update_all_addresses. }
  split; [|exact Haddr].
  unfold targets_closed in *. rewrite Haddr. apply Forall_app. split.
  - apply Forall_app in HP as [HP _].
    eapply targets_within_update_all; [| |exact HP].
    + intros t Ht Hne. unfold addresses in Ht. rewrite fmap_app in Ht.
      apply elem_of_app in Ht as [Ht|Ht]; [by apply elem_of_app; left|].
      simpl in Ht. apply list_elem_of_singleton in Ht. contradiction.
    + apply elem_of_app. right. unfold B. simpl. apply list_elem_of_here.
  - eapply targets_within_mono; [|exact HB].
    intros t Ht. apply elem_of_app. by right.
Qed.

(** Targets stay in the program across [insert] of a block. *)
Theorem insert_block_targets_closed
    (pre post Bbody : list (ptr * RoseInstruction))
    (s bend : ptr) (si : RoseInstruction) :
  back_is_end (owned (pre ++ (s, si) :: post)) = Some true ->
  Bbody <> [] -> bend <> nullptr -> s <> nullptr -> bend <> s ->
  Forall (fun x => begin_field x.2 <> Some bend) Bbody ->
  targets_closed (pre ++ (s, si) :: post) ->
  targets_closed (Bbody ++ [(bend, RoseInstrEnd)]) ->
  exists it' l' B',
    insert_block NDEBUG (length pre)
      (owned (Bbody ++ [(bend, RoseInstrEnd)]))
      (owned (pre ++ (s, si) :: post)) = Some (it', owned l', B') /\
    targets_closed l' /\
    addresses l'
    = addresses pre ++ addresses Bbody ++ addresses ((s, si) :: post).
Proof.
  intros HPend HB0 Hbend Hs Hne Hb HP HB. eexists _, _, _.
  split; [by apply insert_block_explicit|].
  assert (Haddr : addresses (pre ++ update_all bend s Bbody ++ (s, si) :: post)
                  = addresses pre ++ addresses Bbody
                    ++ addresses ((s, si) :: post)).
  { unfold addresses at 1. rewrite !fmap_app.
    fold (addresses pre) (addresses (update_all bend s Bbody))
      (addresses ((s, si) :: post)).
    by rewrite update_all_addresses. }
  split; [|exact Haddr].
  unfold targets_closed in *. rewrite Haddr.
  assert (HPsub : forall t, t ∈ addresses (pre ++ (s, si) :: post) ->
            t ∈ addresses pre ++ addresses Bbody
                ++ addresses ((s, si) :: post)).
  { intros t Ht. unfold addresses in Ht. rewrite fmap_app in Ht.
    apply elem_of_app in Ht as [Ht|Ht].
    - apply elem_of_app. by left.
    - apply elem_of_app. right. apply elem_of_app. by right. }
  apply Forall_app in HP as [HPpre HPpost].
  apply Forall_app. split; [by eapply targets_within_mono|].
  apply Forall_app. split; [|by eapply targets_within_mono].
  apply Forall_app in HB as [HB _].
  eapply targets_within_update_all; [| |exact HB].
  - intros t Ht Hnet. unfold addresses in Ht. rewrite fmap_app in Ht.
    apply elem_of_app in Ht as [Ht|Ht].
    + apply elem_of_app. right. apply elem_of_app. by left.
    + simpl in Ht. apply list_elem_of_singleton in Ht. contradiction.
  - apply elem_of_app. right. apply elem_of_app. right. simpl.
    apply list_elem_of_here.
Qed.

(** Targets stay in the program across [replace]: no target is left on the
    replaced, destroyed instruction. *)
Theorem replace_targets_closed (pre post : list (ptr * RoseInstruction))
    (o n : ptr) (oi r : RoseInstruction) :
  back_is_end (owned (pre ++ (o, oi) :: post)) = Some true ->
  o <> nullptr -> n <> nullptr -> o <> n ->
  (post = [] -> code r = ROSE_INSTR_END) ->
  Forall (fun x => begin_field x.2 = Some o ->
                   code r = ROSE_INSTR_SPARSE_ITER_BEGIN)
    (pre ++ (n, r) :: post) ->
  targets_closed (pre ++ (o, oi) :: post) ->
  Forall (fun t => t ∈ n :: addresses (pre ++ (o, oi) :: post)) (targets r) ->
  exists l',
    replace NDEBUG (length pre) (Some (n, r))
      (owned (pre ++ (o, oi) :: post)) = Some (owned l') /\
    targets_closed l' /\
    addresses l' = addresses pre ++ n :: addresses post /\
    Forall (fun x => o ∉ targets x.2) l'.
Proof.
  intros HPend Ho Hn Hne Hend Hb HP Hr. eexists.
  split; [by apply replace_explicit|].
  assert (Haddr : addresses (update_all o n (pre ++ (n, r) :: post))
                  = addresses pre ++ n :: addresses post).
  { rewrite update_all_addresses. unfold addresses. by rewrite fmap_app. }
  split; [|split; [exact Haddr|]].
  - unfold targets_closed in *. rewrite Haddr.
    assert (HK : forall t, t ∈ n :: addresses (pre ++ (o, oi) :: post) ->
              t <> o -> t ∈ addresses pre ++ n :: addresses post).
    { intros t Ht Hto. apply elem_of_cons in Ht as [->|Ht].
      - apply elem_of_app. right. apply list_elem_of_here.
      - unfold addresses in Ht. rewrite fmap_app in Ht.
        apply elem_of_app in Ht as [Ht|Ht]; [by apply elem_of_app; left|].
        simpl in Ht. apply elem_of_cons in Ht as [->|Ht]; [done|].
        apply elem_of_app. right. by apply list_elem_of_further. }
    eapply targets_within_update_all; [exact HK | |].
    + apply elem_of_app. right. apply list_elem_of_here.
    + apply Forall_app in HP as [HPpre HPpost].
      apply Forall_cons in HPpost as [_ HPpost].
      apply Forall_app. split; [|apply Forall_cons; split; [exact Hr|]].
      * eapply targets_within_mono; [|exact HPpre].
        intros t Ht. by apply list_elem_of_further.
      * eapply targets_within_mono; [|exact HPpost].
        intros t Ht. by apply list_elem_of_further.
  - unfold update_all. apply Forall_fmap, Forall_forall. intros [a ri] _.
    simpl. by apply targets_update_target_pure_ne.
Qed.

(** The terminating END stays the same object across [insert] of an
    instruction or of a block and across [add_before_end] of a block;
    after [add_block] of a block that is not [empty()] it is the block's
    END. *)
Theorem end_instruction_stable (P : RoseProgram) :
  back_is_end P = Some true ->
  (forall it u it' P', (it < length P)%nat ->
     insert NDEBUG it u P = Some (it', P') ->
     end_instruction NDEBUG P' = end_instruction NDEBUG P) /\
  (forall it B it' P' B', (it < length P)%nat ->
     insert_block NDEBUG it B P = Some (it', P', B') ->
     end_instruction NDEBUG P' = end_instruction NDEBUG P) /\
  (forall B P' B',
     add_before_end_block NDEBUG B P = Some (P', B') ->
     end_instruction NDEBUG P' = end_instruction NDEBUG P) /\
  (forall B P' B', back_is_end B = Some true ->
     empty NDEBUG B = Some false ->
     add_block NDEBUG B P = Some (P', B') ->
     end_instruction NDEBUG P' = end_instruction NDEBUG B).
Proof.
  intros HP.
  assert (Hins : forall it B it' P' B', (it < length P)%nat ->
            insert_block NDEBUG it B P = Some (it', P', B') ->
            end_instruction NDEBUG P' = end_instruction NDEBUG P).
  { intros it B it' P' B' Hit H.
    pose proof (insert_block_keeps_end NDEBUG _ _ _ _ _ _ HP Hit H) as HP'.
    rewrite !end_instruction_last by done. f_equal.
    unfold insert_block in H.
    apply bind_Some in H as (? & _ & H).
    apply bind_Some in H as ([] & _ & H).
    - by injection H as _ <- _.
    - repeat (apply bind_Some in H as (? & _ & H)).
      injection H as _ <- _. by apply last_take_drop. }
  split; [|split; [exact Hins|split]].
  - intros it u it' P' Hit H.
    pose proof (insert_keeps_end NDEBUG _ _ _ _ _ HP Hit H) as HP'.
    rewrite !end_instruction_last by done. f_equal.
    rewrite insert_returns in H by done. injection H as _ <-.
    change (u :: drop it P) with ([u] ++ drop it P).
    by apply last_take_drop.
  - intros B P' B' H. unfold add_before_end_block in H.
    apply bind_Some in H as (? & _ & H).
    apply bind_Some in H as (? & _ & H).
    apply bind_Some in H as ([] & _ & H).
    + by injection H as <- _.
    + destruct P as [|w P]; [discriminate|].
      apply bind_Some in H as ([[it' P''] B''] & Hi & H).
      injection H as <- _. eapply Hins; [|exact Hi]. simpl. lia.
  - intros B P' B' HB HBe H.
    pose proof (add_block_keeps_end NDEBUG _ _ _ _ HP HB H) as HP'.
    rewrite !end_instruction_last by done. f_equal.
    unfold add_block in H.
    apply bind_Some in H as (? & _ & H).
    apply bind_Some in H as (? & _ & H).
    rewrite HBe in H. simpl in H.
    repeat (apply bind_Some in H as (? & _ & H)). injection H as <- _.
    destruct B as [|bx B]; [discriminate|]. by rewrite last_app_cons.
Qed.

(** [add_block] on a freshly constructed program returns the block's own
    instructions, none of them changed. *)
Theorem add_block_to_new_program (Bl : list (ptr * RoseInstruction))
    (e f bend : ptr) (fi : RoseInstruction) :
  e <> nullptr -> f <> nullptr -> e <> f ->
  exists B',
    add_block NDEBUG (owned ((f, fi) :: Bl ++ [(bend, RoseInstrEnd)]))
      (RoseProgram_new e)
    = Some (owned ((f, fi) :: Bl ++ [(bend, RoseInstrEnd)]), B').
Proof.
  intros He Hf Hef. eexists.
  by apply (add_block_explicit NDEBUG [] Bl e f bend fi).
Qed.

(** Two programs whose instructions have, position by position, the same
    non-target payload have the same hash, wherever their targets point. *)
Theorem program_hash_ignores_targets (l l' : list (ptr * RoseInstruction)) :
  Forall2 (fun x y => payload x.2 = payload y.2) l l' ->
  RoseProgramHash code_value (owned l) = RoseProgramHash code_value (owned l').
Proof.
  intros H. unfold RoseProgramHash. generalize 0.
  induction H as [|[a ri] [a' ri'] l l' Hp _ IH]; intros v; [done|].
  simpl in Hp. unfold owned in *. simpl.
  rewrite <-(hash_payload code_value ri), Hp, hash_payload. apply IH.
Qed.

End ContainerInvariants.

(** ** Concrete runs of the further properties *)

Lemma operator_eq_hash_witness :
  hash example_code_value (RoseInstrSparseIterBegin 4 [(1, 7%N)] 9%N false 0 0)
  = hash example_code_value
      (RoseInstrSparseIterBegin 4 [(1, 7%N)] 9%N true 8 16).
Proof. apply operator_eq_hash. reflexivity. Defined.

Lemma operator_eq_equiv_witness :
  equiv (RoseInstrCheckBounds 10 100 5%N) (RoseInstrCheckBounds 10 100 5%N)
    {[ 5%N := 16 ]} {[ 5%N := 16 ]} = Some true.
Proof.
  apply operator_eq_equiv; [reflexivity | reflexivity |].
  repeat constructor. exists 16. apply lookup_insert_eq.
Defined.

Lemma equiv_transitive_witness :
  equiv (RoseInstrCheckOnlyEod 1%N) (RoseInstrCheckOnlyEod 3%N)
    {[ 1%N := 8 ]} {[ 3%N := 8 ]} = Some true.
Proof.
  apply (equiv_transitive _ (RoseInstrCheckOnlyEod 2%N) _ _ {[ 2%N := 8 ]});
    by vm_compute.
Defined.

Lemma update_target_untouched_witness :
  update_target false 4%N 5%N (Some ROSE_INSTR_END)
    (RoseInstrSparseIterNext 3 1%N 2%N)
  = Some (RoseInstrSparseIterNext 3 1%N 2%N).
Proof.
  apply update_target_untouched. simpl.
  intros H. repeat (apply elem_of_cons in H as [H|H]; [discriminate H|]).
  by apply elem_of_nil in H.
Defined.

Lemma update_targets_forgets_old_witness :
  Forall (fun x => 12%N ∉ targets x.2)
    (instructions_of [Some (10%N, RoseInstrCheckOnlyEod 20%N);
                      Some (11%N, RoseInstrReport 1 0)]) /\
  get <$> [Some (10%N, RoseInstrCheckOnlyEod 20%N);
           Some (11%N, RoseInstrReport 1 0)]
  = get <$> [Some (10%N, RoseInstrCheckOnlyEod 12%N);
             Some (11%N, RoseInstrReport 1 0)] /\
  length [Some (10%N, RoseInstrCheckOnlyEod 20%N);
          Some (11%N, RoseInstrReport 1 0)]
  = length [Some (10%N, RoseInstrCheckOnlyEod 12%N);
            Some (11%N, RoseInstrReport 1 0)].
Proof.
  apply (update_targets_forgets_old false 12%N 20%N (Some ROSE_INSTR_REPORT));
    [discriminate | reflexivity].
Defined.

Lemma update_targets_keeps_hash_witness :
  RoseProgramHash example_code_value
    [Some (10%N, RoseInstrCheckOnlyEod 20%N); Some (11%N, RoseInstrReport 1 0)]
  = RoseProgramHash example_code_value
      [Some (10%N, RoseInstrCheckOnlyEod 12%N);
       Some (11%N, RoseInstrReport 1 0)].
Proof.
  apply (update_targets_keeps_hash example_code_value false 12%N 20%N
           (Some ROSE_INSTR_REPORT)).
  reflexivity.
Defined.

Lemma add_block_hash_witness :
  RoseProgramHash example_code_value
    [Some (10%N, RoseInstrCheckOnlyEod 20%N);
     Some (20%N, RoseInstrReport 2 0); Some (22%N, RoseInstrEnd)]
  = RoseProgramHash example_code_value
      (removelast [Some (10%N, RoseInstrCheckOnlyEod 12%N);
                   Some (12%N, RoseInstrEnd)]
       ++ [Some (20%N, RoseInstrReport 2 0); Some (22%N, RoseInstrEnd)]).
Proof.
  apply (add_block_hash example_code_value false
           [Some (10%N, RoseInstrCheckOnlyEod 12%N); Some (12%N, RoseInstrEnd)]
           [Some (20%N, RoseInstrReport 2 0); Some (22%N, RoseInstrEnd)]
           _ [None; None]);
    reflexivity.
Defined.

Lemma insert_lookup_witness :
  exists P',
    insert false 1 (Some (30%N, RoseInstrReport 7 0))
      [Some (10%N, RoseInstrReport 1 0); Some (11%N, RoseInstrReport 2 0);
       Some (12%N, RoseInstrEnd)] = Some (1%nat, P') /\
    P' !! 1%nat = Some (Some (30%N, RoseInstrReport 7 0)) /\
    (forall i, (i < 1)%nat ->
       P' !! i = [Some (10%N, RoseInstrReport 1 0);
                  Some (11%N, RoseInstrReport 2 0);
                  Some (12%N, RoseInstrEnd)] !! i) /\
    (forall i, (1 <= i)%nat ->
       P' !! S i = [Some (10%N, RoseInstrReport 1 0);
                    Some (11%N, RoseInstrReport 2 0);
                    Some (12%N, RoseInstrEnd)] !! i) /\
    size P' = S (size [Some (10%N, RoseInstrReport 1 0);
                       Some (11%N, RoseInstrReport 2 0);
                       Some (12%N, RoseInstrEnd)]).
Proof. apply insert_lookup; [reflexivity | simpl; lia]. Defined.

Lemma container_sizes_witness :
  (size [Some (10%N, RoseInstrCheckOnlyEod 20%N);
         Some (20%N, RoseInstrReport 2 0); Some (22%N, RoseInstrEnd)] + 1
   = size [Some (10%N, RoseInstrCheckOnlyEod 12%N); Some (12%N, RoseInstrEnd)]
     + size [Some (20%N, RoseInstrReport 2 0); Some (22%N, RoseInstrEnd)])%nat
  /\ size [None; None]
     = size [Some (20%N, RoseInstrReport 2 0); Some (22%N, RoseInstrEnd)].
Proof.
  apply (proj1 (container_sizes false
                  [Some (10%N, RoseInstrCheckOnlyEod 12%N);
                   Some (12%N, RoseInstrEnd)]
                  [Some (20%N, RoseInstrReport 2 0); Some (22%N, RoseInstrEnd)]
                  eq_refl)).
  reflexivity.
Defined.

Lemma add_block_targets_closed_witness :
  exists l' B',
    add_block false
      (owned ((20%N, RoseInstrCheckOnlyEod 22%N) :: [] ++ [(22%N, RoseInstrEnd)]))
      (owned ([(10%N, RoseInstrCheckOnlyEod 12%N)] ++ [(12%N, RoseInstrEnd)]))
    = Some (owned l', B') /\
    targets_closed l' /\
    addresses l'
    = addresses [(10%N, RoseInstrCheckOnlyEod 12%N)]
      ++ addresses ((20%N, RoseInstrCheckOnlyEod 22%N)
                    :: [] ++ [(22%N, RoseInstrEnd)]).
Proof.
  apply add_block_targets_closed;
    [discriminate | discriminate | discriminate
    | repeat constructor; discriminate | |];
    repeat constructor; simpl; set_solver.
Defined.

Lemma insert_block_targets_closed_witness :
  exists it' l' B',
    insert_block false (length [(10%N, RoseInstrCheckOnlyEod 12%N)])
      (owned ([(20%N, RoseInstrCheckOnlyEod 22%N)] ++ [(22%N, RoseInstrEnd)]))
      (owned ([(10%N, RoseInstrCheckOnlyEod 12%N)]
              ++ (12%N, RoseInstrEnd) :: []))
    = Some (it', owned l', B') /\
    targets_closed l' /\
    addresses l'
    = addresses [(10%N, RoseInstrCheckOnlyEod 12%N)]
      ++ addresses [(20%N, RoseInstrCheckOnlyEod 22%N)]
      ++ addresses ((12%N, RoseInstrEnd) :: []).
Proof.
  apply insert_block_targets_closed;
    [reflexivity | discriminate | discriminate | discriminate | discriminate
    | repeat constructor; discriminate | |];
    repeat constructor; simpl; set_solver.
Defined.

Lemma replace_targets_closed_witness :
  exists l',
    replace false (length [(10%N, RoseInstrCheckOnlyEod 11%N)])
      (Some (30%N, RoseInstrCheckOnlyEod 12%N))
      (owned ([(10%N, RoseInstrCheckOnlyEod 11%N)]
              ++ (11%N, RoseInstrReport 1 0) :: [(12%N, RoseInstrEnd)]))
    = Some (owned l') /\
    targets_closed l' /\
    addresses l'
    = addresses [(10%N, RoseInstrCheckOnlyEod 11%N)]
      ++ 30%N :: addresses [(12%N, RoseInstrEnd)] /\
    Forall (fun x => 11%N ∉ targets x.2) l'.
Proof.
  apply replace_targets_closed;
    [reflexivity | discriminate | discriminate | discriminate | discriminate
    | repeat constructor; discriminate | |];
    repeat constructor; simpl; set_solver.
Defined.

Lemma end_instruction_stable_witness :
  end_instruction false
    [Some (10%N, RoseInstrReport 1 0); Some (30%N, RoseInstrReport 7 0);
     Some (12%N, RoseInstrEnd)]
  = end_instruction false
      [Some (10%N, RoseInstrReport 1 0); Some (12%N, RoseInstrEnd)].
Proof.
  apply (proj1 (end_instruction_stable false
                  [Some (10%N, RoseInstrReport 1 0); Some (12%N, RoseInstrEnd)]
                  eq_refl))
    with (it := 1%nat) (u := Some (30%N, RoseInstrReport 7 0)) (it' := 1%nat);
    [simpl; lia | reflexivity].
Defined.

Lemma add_block_to_new_program_witness :
  exists B',
    add_block true
      (owned ((20%N, RoseInstrReport 2 0) :: [] ++ [(22%N, RoseInstrEnd)]))
      (RoseProgram_new 1%N)
    = Some (owned ((20%N, RoseInstrReport 2 0) :: [] ++ [(22%N, RoseInstrEnd)]),
            B').
Proof. apply add_block_to_new_program; discriminate. Defined.

Lemma program_hash_ignores_targets_witness :
  RoseProgramHash example_code_value
    (owned [(1%N, RoseInstrCheckOnlyEod 2%N); (2%N, RoseInstrEnd)])
  = RoseProgramHash example_code_value
      (owned [(3%N, RoseInstrCheckOnlyEod 4%N); (4%N, RoseInstrEnd)]).
Proof. apply program_hash_ignores_targets. by repeat constructor. Defined.

(** * SIMD primitives of the Arm port

    A shallow embedding of [src/util/arch/arm/simd_utils.h].

    - An [m128] (a NEON [int32x4_t]) is the 128-bit number it holds in
      little-endian order: lane [i] of width [w] is the [w] bits starting at
      bit [w * i].  The casts between vector types of the header reinterpret
      the same 128 bits, so they do not appear.
    - Every NEON intrinsic the header calls is one definition of the same
      name, written after its description in the Arm C Language Extensions.
    - The [switch] over an immediate, which the header spells out case by
      case, is a range test with the same cases.  Where the header first tries
      [__builtin_constant_p], the embedding follows the [switch]: the two
      agree wherever the intrinsic accepts the constant. *)

Module Simd.

Abbreviation m128 := Z (only parsing).

Definition valid128 (v : m128) : Prop := 0 <= v < 2 ^ 128.

(** Lane [i] of width [w] of a vector. *)
Definition lane (w i : Z) (v : Z) : Z := (v / 2 ^ (w * i)) mod 2 ^ w.

(** The first [n] lanes of width [w], lane 0 first. *)
Definition lanes (w : Z) (n : nat) (v : Z) : list Z :=
  (fun i : nat => lane w (Z.of_nat i) v) <$> seq 0 n.

(** The vector whose lanes of width [w] are the elements of [l], each
    truncated to [w] bits. *)
Fixpoint of_lanes (w : Z) (l : list Z) : Z :=
  match l with
  | [] => 0
  | x :: r => x mod 2 ^ w + 2 ^ w * of_lanes w r
  end.

Definition lanewise1 (w : Z) (n : nat) (f : Z -> Z) (a : m128) : m128 :=
  of_lanes w (f <$> lanes w n a).

Definition lanewise2 (w : Z) (n : nat) (f : Z -> Z -> Z) (a b : m128) : m128 :=
  of_lanes w (zip_with f (lanes w n a) (lanes w n b)).

(** ** NEON intrinsics *)

Definition vdupq_n_s8 (c : Z) : m128 := of_lanes 8 (replicate 16 c).
Definition vdupq_n_u8 (c : Z) : m128 := of_lanes 8 (replicate 16 c).
Definition vdupq_n_s32 (c : Z) : m128 := of_lanes 32 (replicate 4 c).
Definition vdupq_n_u32 (c : Z) : m128 := of_lanes 32 (replicate 4 c).
Definition vdupq_n_u64 (c : Z) : m128 := of_lanes 64 (replicate 2 c).
(** A 64-bit vector of one lane. *)
Definition vdup_n_u64 (c : Z) : Z := of_lanes 64 [c].

(** Bitwise operations do not depend on the lane type. *)
Definition vmvnq_s32 (a : m128) : m128 := Z.lnot a mod 2 ^ 128.
Definition vmvnq_u32 (a : m128) : m128 := Z.lnot a mod 2 ^ 128.
Definition vmvnq_s8 (a : m128) : m128 := Z.lnot a mod 2 ^ 128.
Definition vandq_s8 (a b : m128) : m128 := Z.land a b.
Definition vandq_u8 (a b : m128) : m128 := Z.land a b.
Definition vandq_u32 (a b : m128) : m128 := Z.land a b.
Definition vandq_u64 (a b : m128) : m128 := Z.land a b.
Definition vorrq_s8 (a b : m128) : m128 := Z.lor a b.
Definition vorrq_u8 (a b : m128) : m128 := Z.lor a b.
Definition veorq_s8 (a b : m128) : m128 := Z.lxor a b.

(** Compare lanes: all ones where equal, zero elsewhere. *)
Definition vceq (w : Z) (n : nat) (a b : m128) : m128 :=
  lanewise2 w n (fun x y => if x =? y then 2 ^ w - 1 else 0) a b.
Definition vceqq_s32 : m128 -> m128 -> m128 := vceq 32 4.
Definition vceqq_u32 : m128 -> m128 -> m128 := vceq 32 4.
Definition vceqq_u8 : m128 -> m128 -> m128 := vceq 8 16.
Definition vceqq_u64 : m128 -> m128 -> m128 := vceq 64 2.

(** Shift each 16-bit lane right by [n] and keep its low 8 bits; the
    result is a 64-bit vector. *)
Definition vshrn_n_u16 (a : m128) (n : Z) : Z :=
  of_lanes 8 ((fun x => Z.shiftr x n) <$> lanes 16 8 a).

Definition vget_lane_u64 (v : Z) (i : Z) : Z := lane 64 i v.
Definition vgetq_lane_u32 (v : m128) (i : Z) : Z := lane 32 i v.
Definition vgetq_lane_u64 (v : m128) (i : Z) : Z := lane 64 i v.
Definition vsetq_lane_u64 (x : Z) (v : m128) (i : nat) : m128 :=
  of_lanes 64 (<[i := x]> (lanes 64 2 v)).
Definition vget_low_u64 (v : m128) : Z := lane 64 0 v.
Definition vget_high_u64 (v : m128) : Z := lane 64 1 v.
Definition vcombine_u64 (lo hi : Z) : m128 := of_lanes 64 [lo; hi].

(** Add across the vector, in the lane's width. *)
Definition vaddvq_u32 (a : m128) : Z := foldr Z.add 0 (lanes 32 4 a) mod 2 ^ 32.
Definition vaddvq_u64 (a : m128) : Z := foldr Z.add 0 (lanes 64 2 a) mod 2 ^ 64.

Definition vaddq_u64 : m128 -> m128 -> m128 := lanewise2 64 2 Z.add.
Definition vsubq_u64 : m128 -> m128 -> m128 := lanewise2 64 2 Z.sub.
Definition vsubq_u8 : m128 -> m128 -> m128 := lanewise2 8 16 Z.sub.
Definition vmaxq_u8 : m128 -> m128 -> m128 := lanewise2 8 16 Z.max.
Definition vminq_u8 : m128 -> m128 -> m128 := lanewise2 8 16 Z.min.
(** Saturating add. *)
Definition vqaddq_u8 : m128 -> m128 -> m128 :=
  lanewise2 8 16 (fun x y => Z.min 255 (x + y)).

Definition vshlq_n_u32 (a : m128) (n : Z) : m128 :=
  lanewise1 32 4 (fun x => Z.shiftl x n) a.
Definition vshrq_n_u32 (a : m128) (n : Z) : m128 :=
  lanewise1 32 4 (fun x => Z.shiftr x n) a.
Definition vshlq_n_u64 (a : m128) (n : Z) : m128 :=
  lanewise1 64 2 (fun x => Z.shiftl x n) a.
Definition vshrq_n_u64 (a : m128) (n : Z) : m128 :=
  lanewise1 64 2 (fun x => Z.shiftr x n) a.

(** Bytes [n .. n+15] of the 32 bytes of [a] followed by [b]. *)
Definition vextq_s8 (a b : m128) (n : nat) : m128 :=
  of_lanes 8 (take 16 (drop n (lanes 8 16 a ++ lanes 8 16 b))).
Definition vextq_u8 : m128 -> m128 -> nat -> m128 := vextq_s8.

(** Add adjacent pairs of lanes into lanes of twice the width. *)
Fixpoint pairwise_add (l : list Z) : list Z :=
  match l with
  | x :: y :: r => (x + y) :: pairwise_add r
  | _ => []
  end.
Definition vpaddlq_u8 (a : m128) : m128 := of_lanes 16 (pairwise_add (lanes 8 16 a)).
Definition vpaddlq_u16 (a : m128) : m128 := of_lanes 32 (pairwise_add (lanes 16 8 a)).
Definition vpaddlq_u32 (a : m128) : m128 := of_lanes 64 (pairwise_add (lanes 32 4 a)).

(** Store one 16-bit lane: the value stored. *)
Definition vst1q_lane_u16 (v : m128) (i : Z) : Z := lane 16 i v.

(** Table lookup: byte [i] of the result is byte [idx_i] of [t], or zero
    when [idx_i] is 16 or more. *)
Definition vqtbl1q_s8 (t idx : m128) : m128 :=
  lanewise1 8 16 (fun i => if i <? 16 then lane 8 i t else 0) idx.

(** Loads from an array of 32-bit or 64-bit elements. *)
Definition vld1q_u32 (data : list Z) : m128 := of_lanes 32 (take 4 data).
Definition vld1q_u64 (data : list Z) : m128 := of_lanes 64 (take 2 data).
(** A load of 16 bytes from the byte array [mem] at index [idx]; reading
    past the array is undefined. *)
Definition vld1q_s32 (mem : list Z) (idx : Z) : option m128 :=
  if (0 <=? idx) && (idx + 16 <=? Z.of_nat (length mem))
  then Some (of_lanes 8 (take 16 (drop (Z.to_nat idx) mem)))
  else None.

(** ** The functions of the header *)

Definition ZEROES_8 : list Z := [0; 0; 0; 0; 0; 0; 0; 0].
Definition ZEROES_31 : list Z :=
  ZEROES_8 ++ ZEROES_8 ++ ZEROES_8 ++ [0; 0; 0; 0; 0; 0; 0].
Definition ZEROES_32 : list Z := ZEROES_8 ++ ZEROES_8 ++ ZEROES_8 ++ ZEROES_8.

(** LUT for the mask1bit functions. *)
Definition simd_onebit_masks : list Z :=
  ZEROES_32 ++ ZEROES_32 ++
  ZEROES_31 ++ [0x01] ++ ZEROES_32 ++
  ZEROES_31 ++ [0x02] ++ ZEROES_32 ++
  ZEROES_31 ++ [0x04] ++ ZEROES_32 ++
  ZEROES_31 ++ [0x08] ++ ZEROES_32 ++
  ZEROES_31 ++ [0x10] ++ ZEROES_32 ++
  ZEROES_31 ++ [0x20] ++ ZEROES_32 ++
  ZEROES_31 ++ [0x40] ++ ZEROES_32 ++
  ZEROES_31 ++ [0x80] ++ ZEROES_32 ++
  ZEROES_32 ++ ZEROES_32.

Definition ones128 : m128 := vdupq_n_s8 0xFF.

Definition zeroes128 : m128 := vdupq_n_s32 0.

Definition not128 (a : m128) : m128 := vmvnq_s32 a.

(** [int diff128]: 1 if [a] and [b] are different, otherwise 0. *)
Definition diff128 (a b : m128) : Z :=
  let res := vget_lane_u64 (vshrn_n_u16 (vceqq_s32 a b) 4) 0 in
  Z.b2z (negb (2 ^ 64 - 1 =? res)).

Definition isnonzero128 (a : m128) : Z := diff128 a zeroes128.

Definition diffrich128 (a b : m128) : Z :=
  let movemask := of_lanes 32 [1; 2; 4; 8] in
  vaddvq_u32 (vandq_u32 (vmvnq_u32 (vceqq_u32 a b)) movemask).

Definition diffrich64_128 (a b : m128) : Z :=
  let movemask := of_lanes 64 [1; 4] in
  vaddvq_u64 (vandq_u64 (vmvnq_u32 (vceqq_u64 a b)) movemask) mod 2 ^ 32.

Definition add_2x64 (a b : m128) : m128 := vaddq_u64 a b.

Definition sub_2x64 (a b : m128) : m128 := vsubq_u64 a b.

(** [switch (b)]: case 0, cases 1 to 31, default. *)
Definition lshift_m128 (a : m128) (b : Z) : m128 :=
  if b =? 0 then a
  else if (1 <=? b) && (b <=? 31) then vshlq_n_u32 a b
  else zeroes128.

Definition rshift_m128 (a : m128) (b : Z) : m128 :=
  if b =? 0 then a
  else if (1 <=? b) && (b <=? 31) then vshrq_n_u32 a b
  else zeroes128.

(** [switch (b)]: case 0, cases 1 to 63, default. *)
Definition lshift64_m128 (a : m128) (b : Z) : m128 :=
  if b =? 0 then a
  else if (1 <=? b) && (b <=? 63) then vshlq_n_u64 a b
  else zeroes128.

Definition rshift64_m128 (a : m128) (b : Z) : m128 :=
  if b =? 0 then a
  else if (1 <=? b) && (b <=? 63) then vshrq_n_u64 a b
  else zeroes128.

Definition eq128 (a b : m128) : m128 := vceqq_u8 a b.

Definition eq64_m128 (a b : m128) : m128 := vceqq_u64 a b.

Definition movemask128 (a : m128) : Z :=
  let powers := of_lanes 8 [1; 2; 4; 8; 16; 32; 64; 128;
                            1; 2; 4; 8; 16; 32; 64; 128] in
  let mask := vpaddlq_u32 (vpaddlq_u16 (vpaddlq_u8 (vandq_u8 a powers))) in
  let mask1 := vextq_u8 mask zeroes128 7 in
  let mask := vorrq_u8 mask mask1 in
  vst1q_lane_u16 mask 0.

Definition set1_16x8 (c : Z) : m128 := vdupq_n_u8 c.

Definition set1_4x32 (c : Z) : m128 := vdupq_n_u32 c.

Definition set1_2x64 (c : Z) : m128 := vdupq_n_u64 c.

Definition movd (v : m128) : Z := vgetq_lane_u32 v 0.

Definition movq (v : m128) : Z := vgetq_lane_u64 v 0.

(** [p] is the 64-bit value the pointer refers to. *)
Definition load_m128_from_u64a (p : Z) : m128 := vsetq_lane_u64 p zeroes128 0.

Definition extract32from128 (v : m128) (imm : Z) : Z :=
  match imm with
  | 0 => vgetq_lane_u32 v 0
  | 1 => vgetq_lane_u32 v 1
  | 2 => vgetq_lane_u32 v 2
  | 3 => vgetq_lane_u32 v 3
  | _ => 0
  end.

Definition extract64from128 (v : m128) (imm : Z) : Z :=
  match imm with
  | 0 => vgetq_lane_u64 v 0
  | 1 => vgetq_lane_u64 v 1
  | _ => 0
  end.

Definition low64from128 (v : m128) : m128 :=
  vcombine_u64 (vget_low_u64 v) (vdup_n_u64 0).

Definition high64from128 (v : m128) : m128 :=
  vcombine_u64 (vget_high_u64 v) (vdup_n_u64 0).

Definition add128 (a b : m128) : m128 := vaddq_u64 a b.

Definition and128 (a b : m128) : m128 := vandq_s8 a b.

Definition xor128 (a b : m128) : m128 := veorq_s8 a b.

Definition or128 (a b : m128) : m128 := vorrq_s8 a b.

Definition andnot128 (a b : m128) : m128 := vandq_s8 (vmvnq_s8 a) b.

(** Unaligned load from [ptr = &mem[idx]]. *)
Definition loadu128 (mem : list Z) (idx : Z) : option m128 := vld1q_s32 mem idx.

(** [switch (offset)]: case 0, cases 1 to 15, case 16, default. *)
Definition palignr_imm (r l : m128) (offset : Z) : m128 :=
  if offset =? 0 then l
  else if (1 <=? offset) && (offset <=? 15) then vextq_s8 l r (Z.to_nat offset)
  else if offset =? 16 then r
  else zeroes128.

Definition palignr (r l : m128) (offset : Z) : m128 := palignr_imm r l offset.

(** The conversion of an [unsigned] argument to the [int] parameter. *)
Definition to_int (u : Z) : Z := if u <? 2 ^ 31 then u else u - 2 ^ 32.

Definition rshiftbyte_m128 (a : m128) (b : Z) : m128 :=
  if b =? 0 then a else palignr zeroes128 a (to_int b).

(** [16 - b] is computed in [unsigned]. *)
Definition lshiftbyte_m128 (a : m128) (b : Z) : m128 :=
  if b =? 0 then a else palignr a zeroes128 (to_int ((16 - b) mod 2 ^ 32)).

(** [pshufb_m128]: NEON zeroes a byte whose index is 16 or more, so the
    index is first masked with [0x8f]. *)
Definition pshufb_m128 (a b : m128) : m128 :=
  let btranslated := vandq_s8 b (vdupq_n_s8 0x8f) in
  vqtbl1q_s8 a btranslated.

Definition max_u8_m128 (a b : m128) : m128 := vmaxq_u8 a b.

Definition min_u8_m128 (a b : m128) : m128 := vminq_u8 a b.

Definition sadd_u8_m128 (a b : m128) : m128 := vqaddq_u8 a b.

Definition sub_u8_m128 (a b : m128) : m128 := vsubq_u8 a b.

Definition set4x32 (x3 x2 x1 x0 : Z) : m128 :=
  let data := [x0; x1; x2; x3] in
  vld1q_u32 data.

Definition set2x64 (hi lo : Z) : m128 :=
  let data := [lo; hi] in
  vld1q_u64 data.

Section Asserting.

Variable NDEBUG : bool.

(** [amount] is an [s32]; negating [INT_MIN] is undefined. *)
Definition variable_byte_shift_m128 (v : m128) (amount : Z) : option m128 :=
  _ ← assert_ NDEBUG (Some ((-16 <=? amount) && (amount <=? 16)));
  if amount <? 0 then
    if amount =? - 2 ^ 31 then None
    else Some (palignr_imm zeroes128 v (- amount))
  else Some (palignr_imm v zeroes128 (16 - amount)).

(** [n] is an [unsigned int]; [mask_idx] is a [u32]. *)
Definition mask1bit128 (n : Z) : option m128 :=
  _ ← assert_ NDEBUG (Some (n <? 16 * 8));
  let mask_idx := ((n mod 8) * 64 + 95) mod 2 ^ 32 in
  let mask_idx := (mask_idx - n / 8) mod 2 ^ 32 in
  loadu128 simd_onebit_masks mask_idx.

(** The vector [*ptr] is passed in and the new [*ptr] returned. *)
Definition setbit128 (ptr : m128) (n : Z) : option m128 :=
  mask ← mask1bit128 n;
  Some (or128 mask ptr).

Definition clearbit128 (ptr : m128) (n : Z) : option m128 :=
  mask ← mask1bit128 n;
  Some (andnot128 mask ptr).

Definition testbit128 (val : m128) (n : Z) : option Z :=
  mask ← mask1bit128 n;
  Some (isnonzero128 (and128 mask val)).

End Asserting.

(** ** Lanes *)

Lemma pow2_pos (w : Z) : 0 <= w -> 0 < 2 ^ w.
Proof. intros; apply Z.pow_pos_nonneg; lia. Qed.

Lemma of_lanes_range (w : Z) (l : list Z) :
  0 <= w -> 0 <= of_lanes w l < 2 ^ (w * Z.of_nat (length l)).
Proof.
  intros Hw. induction l as [|x l IH].
  - cbn. rewrite Z.mul_0_r. lia.
  - cbn [of_lanes length].
    rewrite Nat2Z.inj_succ, Z.mul_succ_r, Z.pow_add_r by lia.
    pose proof (pow2_pos w Hw).
    pose proof (Z.mod_pos_bound x (2 ^ w) ltac:(lia)). nia.
Qed.

Lemma lanes_S (w : Z) (n : nat) (v : Z) :
  0 <= w -> lanes w (S n) v = v mod 2 ^ w :: lanes w n (v / 2 ^ w).
Proof.
  intros Hw. unfold lanes. cbn [seq fmap list_fmap]. f_equal.
  - unfold lane. by rewrite Z.mul_0_r, Z.pow_0_r, Z.div_1_r.
  - change (list_fmap nat Z ?f ?l) with (f <$> l).
    rewrite <- fmap_S_seq, <- list_fmap_compose. apply list_fmap_ext.
    intros _ i _. unfold lane, compose.
    pose proof (pow2_pos w Hw). pose proof (pow2_pos (w * Z.of_nat i) ltac:(lia)).
    rewrite Nat2Z.inj_succ, Z.mul_succ_r.
    replace (w * Z.of_nat i + w) with (w + w * Z.of_nat i) by lia.
    rewrite Z.pow_add_r by lia. by rewrite Z.div_div by lia.
Qed.

Lemma of_lanes_lanes (w : Z) (n : nat) (v : Z) :
  0 <= w -> of_lanes w (lanes w n v) = v mod 2 ^ (w * Z.of_nat n).
Proof.
  intros Hw. revert v. induction n as [|n IH]; intros v.
  - cbn. by rewrite Z.mul_0_r, Z.pow_0_r, Z.mod_1_r.
  - rewrite lanes_S by done. cbn [of_lanes]. rewrite IH.
    pose proof (pow2_pos w Hw). pose proof (pow2_pos (w * Z.of_nat n) ltac:(lia)).
    rewrite Nat2Z.inj_succ, Z.mul_succ_r.
    replace (w * Z.of_nat n + w) with (w + w * Z.of_nat n) by lia.
    rewrite Z.pow_add_r by lia.
    rewrite Z.mod_mod by lia. by rewrite Z.rem_mul_r by lia.
Qed.

Lemma lanes_of_lanes (w : Z) (l : list Z) :
  0 <= w ->
  lanes w (length l) (of_lanes w l) = (fun x => x mod 2 ^ w) <$> l.
Proof.
  intros Hw. induction l as [|x l IH]; [done|].
  cbn [length of_lanes]. rewrite lanes_S by done.
  pose proof (pow2_pos w Hw).
  pose proof (Z.mod_pos_bound x (2 ^ w) ltac:(lia)).
  cbn [fmap list_fmap]. f_equal.
  - rewrite (Z.mul_comm (2 ^ w)), Z.mod_add by lia. by rewrite Z.mod_mod by lia.
  - rewrite (Z.mul_comm (2 ^ w)), Z.div_add by lia.
    by rewrite (Z.div_small (x mod 2 ^ w)) by lia.
Qed.

Lemma lanes_lookup (w : Z) (n i : nat) (v : Z) :
  (i < n)%nat -> lanes w n v !! i = Some (lane w (Z.of_nat i) v).
Proof.
  intros Hi. unfold lanes. rewrite list_lookup_fmap, lookup_seq_lt by done.
  done.
Qed.

Lemma lanes_length (w : Z) (n : nat) (v : Z) : length (lanes w n v) = n.
Proof. unfold lanes. by rewrite length_fmap, length_seq. Qed.

Lemma lane_range (w i v : Z) : 0 <= w -> 0 <= lane w i v < 2 ^ w.
Proof. intros Hw. apply Z.mod_pos_bound, pow2_pos, Hw. Qed.

Lemma lane_of_lanes (w : Z) (l : list Z) (i : nat) (x : Z) :
  0 <= w -> l !! i = Some x ->
  lane w (Z.of_nat i) (of_lanes w l) = x mod 2 ^ w.
Proof.
  intros Hw Hx.
  assert (Hi : (i < length l)%nat) by (by eapply lookup_lt_Some).
  pose proof (lanes_lookup w (length l) i (of_lanes w l) Hi) as H.
  rewrite lanes_of_lanes, list_lookup_fmap, Hx in H by done.
  by injection H.
Qed.

(** A vector is determined by its lanes. *)
Lemma valid128_of_lanes (w : Z) (n : nat) (v : m128) :
  0 <= w -> w * Z.of_nat n = 128 -> valid128 v ->
  of_lanes w (lanes w n v) = v.
Proof.
  intros Hw Hn Hv. rewrite of_lanes_lanes, Hn by done.
  apply Z.mod_small, Hv.
Qed.

Lemma of_lanes_valid128 (w : Z) (l : list Z) :
  0 <= w -> w * Z.of_nat (length l) = 128 -> valid128 (of_lanes w l).
Proof. intros Hw Hl. unfold valid128. rewrite <- Hl. by apply of_lanes_range. Qed.

Lemma lanes_inj (w : Z) (n : nat) (a b : m128) :
  0 <= w -> w * Z.of_nat n = 128 -> valid128 a -> valid128 b ->
  lanes w n a = lanes w n b -> a = b.
Proof.
  intros Hw Hn Ha Hb H.
  rewrite <- (valid128_of_lanes w n a), <- (valid128_of_lanes w n b) by done.
  by rewrite H.
Qed.

(** ** Comparisons *)

Lemma lanes_32_4 (v : Z) :
  lanes 32 4 v = [lane 32 0 v; lane 32 1 v; lane 32 2 v; lane 32 3 v].
Proof. reflexivity. Qed.

Lemma lanes_64_2 (v : Z) : lanes 64 2 v = [lane 64 0 v; lane 64 1 v].
Proof. reflexivity. Qed.

Lemma zeroes128_0 : zeroes128 = 0.
Proof. reflexivity. Qed.

Lemma lanes_32_4_eqb (a b : Z) :
  valid128 a -> valid128 b ->
  forallb (fun i => lane 32 i a =? lane 32 i b) [0; 1; 2; 3] = (a =? b).
Proof.
  intros Ha Hb. destruct (Z.eqb_spec a b) as [->|Hne].
  - cbn [forallb]. by rewrite !Z.eqb_refl.
  - apply not_true_is_false. intros H. apply Hne.
    cbn [forallb] in H. rewrite !andb_true_iff, !Z.eqb_eq in H.
    destruct H as (H0 & H1 & H2 & H3 & _).
    apply (lanes_inj 32 4); [lia|lia|done|done|].
    rewrite !lanes_32_4. congruence.
Qed.

Lemma diff128_lanes (a b : Z) :
  diff128 a b =
  Z.b2z (negb (forallb (fun i => lane 32 i a =? lane 32 i b) [0; 1; 2; 3])).
Proof.
  unfold diff128, vget_lane_u64, vshrn_n_u16, vceqq_s32, vceq, lanewise2.
  rewrite !lanes_32_4. cbn [zip_with forallb].
  generalize (lane 32 0 a =? lane 32 0 b), (lane 32 1 a =? lane 32 1 b),
    (lane 32 2 a =? lane 32 2 b), (lane 32 3 a =? lane 32 3 b).
  by intros [] [] [] []; vm_compute.
Qed.

Lemma diff128_eqb (a b : Z) :
  valid128 a -> valid128 b -> diff128 a b = Z.b2z (negb (a =? b)).
Proof. intros Ha Hb. by rewrite diff128_lanes, lanes_32_4_eqb. Qed.

Lemma diffrich128_lanes (a b : Z) :
  diffrich128 a b =
  (if lane 32 0 a =? lane 32 0 b then 0 else 1) +
  (if lane 32 1 a =? lane 32 1 b then 0 else 2) +
  (if lane 32 2 a =? lane 32 2 b then 0 else 4) +
  (if lane 32 3 a =? lane 32 3 b then 0 else 8).
Proof.
  unfold diffrich128, vaddvq_u32, vandq_u32, vmvnq_u32, vceqq_u32, vceq,
    lanewise2.
  rewrite !lanes_32_4. cbn [zip_with].
  generalize (lane 32 0 a =? lane 32 0 b), (lane 32 1 a =? lane 32 1 b),
    (lane 32 2 a =? lane 32 2 b), (lane 32 3 a =? lane 32 3 b).
  by intros [] [] [] []; vm_compute.
Qed.

(** [diff128] decides equality of two vectors, and [isnonzero128]
    whether a vector is not zero: the narrowing shift keeps four bits of every
    byte of the comparison, and all sixty-four are set only if all four words
    are equal. *)
Theorem diff128_decides (a b : Z) :
  valid128 a -> valid128 b ->
  diff128 a b = (if decide (a = b) then 0 else 1) /\
  isnonzero128 a = (if decide (a = 0) then 0 else 1).
Proof.
  intros Ha Hb. unfold isnonzero128. rewrite zeroes128_0.
  rewrite !diff128_eqb by (done || (unfold valid128; lia)).
  split.
  - destruct (Z.eqb_spec a b); by case_decide.
  - destruct (Z.eqb_spec a 0); by case_decide.
Qed.

Lemma diffrich64_128_lanes (a b : Z) :
  diffrich64_128 a b =
  (if lane 64 0 a =? lane 64 0 b then 0 else 1) +
  (if lane 64 1 a =? lane 64 1 b then 0 else 4).
Proof.
  unfold diffrich64_128, vaddvq_u64, vandq_u64, vmvnq_u32, vceqq_u64, vceq,
    lanewise2.
  rewrite !lanes_64_2. cbn [zip_with].
  generalize (lane 64 0 a =? lane 64 0 b), (lane 64 1 a =? lane 64 1 b).
  by intros [] []; vm_compute.
Qed.

(** [diffrich128] returns the 4-bit mask whose bit [i] says that the 32-bit
    words [i] of the two vectors differ; [diffrich64_128] compares the two
    64-bit words and reports them in bits 0 and 2 of its result.
    [diffrich128] is zero exactly when [diff128] is. *)
Theorem diffrich_masks (a b : Z) :
  diffrich128 a b =
    (if lane 32 0 a =? lane 32 0 b then 0 else 1) +
    (if lane 32 1 a =? lane 32 1 b then 0 else 2) +
    (if lane 32 2 a =? lane 32 2 b then 0 else 4) +
    (if lane 32 3 a =? lane 32 3 b then 0 else 8) /\
  diffrich64_128 a b =
    (if lane 64 0 a =? lane 64 0 b then 0 else 1) +
    (if lane 64 1 a =? lane 64 1 b then 0 else 4) /\
  (diffrich128 a b = 0 <-> diff128 a b = 0).
Proof.
  split; [apply diffrich128_lanes|]. split; [apply diffrich64_128_lanes|].
  rewrite diffrich128_lanes, diff128_lanes. cbn [forallb].
  by destruct (lane 32 0 a =? lane 32 0 b), (lane 32 1 a =? lane 32 1 b),
    (lane 32 2 a =? lane 32 2 b), (lane 32 3 a =? lane 32 3 b).
Qed.

(** ** Single bits *)

Section Bits.

Variable NDEBUG : bool.

Lemma mask1bit128_table :
  forallb (fun k : nat =>
             match mask1bit128 true (Z.of_nat k) with
             | Some m => m =? 2 ^ Z.of_nat k
             | None => false
             end) (seq 0 128) = true.
Proof. vm_compute. reflexivity. Qed.

Lemma mask1bit128_in_range (n : Z) :
  0 <= n < 128 -> mask1bit128 NDEBUG n = Some (2 ^ n).
Proof.
  intros Hn.
  assert (Hrel : mask1bit128 NDEBUG n = mask1bit128 true n).
  { unfold mask1bit128, assert_.
    destruct NDEBUG; [done|]. by rewrite (proj2 (Z.ltb_lt n (16 * 8))) by lia. }
  rewrite Hrel.
  pose proof (proj1 (List.forallb_forall _ _) mask1bit128_table (Z.to_nat n))
    as H.
  cbv beta in H. rewrite Z2Nat.id in H by lia.
  destruct (mask1bit128 true n) as [m|].
  - f_equal. apply Z.eqb_eq, H, in_seq. lia.
  - discriminate H. apply in_seq. lia.
Qed.

Lemma land_pow2 (n v : Z) :
  0 <= n -> Z.land (2 ^ n) v = if Z.testbit v n then 2 ^ n else 0.
Proof.
  intros Hn. apply Z.bits_inj'. intros k Hk.
  rewrite Z.land_spec, Z.pow2_bits_eqb by done.
  destruct (Z.eqb_spec n k) as [->|Hne].
  - destruct (Z.testbit v k); [by rewrite Z.pow2_bits_eqb, Z.eqb_refl|].
    by rewrite Z.bits_0.
  - destruct (Z.testbit v n); [|by rewrite Z.bits_0].
    rewrite Z.pow2_bits_eqb by done. symmetry. by apply Z.eqb_neq.
Qed.

Lemma pow2_valid128 (n : Z) : 0 <= n < 128 -> valid128 (2 ^ n).
Proof.
  intros Hn. split; [apply Z.pow_nonneg; lia|].
  apply Z.pow_lt_mono_r; lia.
Qed.

Lemma valid128_testbit (v k : Z) : valid128 v -> 128 <= k -> Z.testbit v k = false.
Proof.
  intros Hv Hk. rewrite <- (Z.mod_small v (2 ^ 128)) by apply Hv.
  rewrite Z.testbit_mod_pow2 by lia. by rewrite (proj2 (Z.ltb_ge k 128)).
Qed.

Lemma testbit_valid128 (v : Z) :
  0 <= v -> (forall k, 128 <= k -> Z.testbit v k = false) -> valid128 v.
Proof.
  intros Hv H. split; [done|].
  destruct (Z.eq_dec v 0) as [->|Hne]; [done|].
  apply Z.log2_lt_pow2; [lia|].
  destruct (Z.lt_ge_cases (Z.log2 v) 128) as [|Hge]; [done|].
  specialize (H _ Hge). rewrite Z.bit_log2 in H by lia. done.
Qed.

Lemma testbit128_bit (v n : Z) :
  0 <= n < 128 -> testbit128 NDEBUG v n = Some (Z.b2z (Z.testbit v n)).
Proof.
  intros Hn. unfold testbit128. rewrite mask1bit128_in_range by done.
  cbn [mbind option_bind]. f_equal.
  unfold isnonzero128, and128, vandq_s8. rewrite zeroes128_0, land_pow2 by lia.
  pose proof (pow2_valid128 n Hn) as Hp.
  rewrite diff128_eqb.
  - destruct (Z.testbit v n); [|done].
    destruct (Z.eqb_spec (2 ^ n) 0); [|done]. unfold valid128 in Hp.
    pose proof (pow2_pos n ltac:(lia)). lia.
  - destruct (Z.testbit v n); [done|]. unfold valid128. lia.
  - unfold valid128. lia.
Qed.

Lemma setbit128_setbit (v n : Z) :
  0 <= n < 128 -> setbit128 NDEBUG v n = Some (Z.setbit v n).
Proof.
  intros Hn. unfold setbit128. rewrite mask1bit128_in_range by done.
  cbn [mbind option_bind]. unfold or128, vorrq_s8.
  by rewrite Z.setbit_spec', Z.lor_comm.
Qed.

Lemma clearbit128_clearbit (v n : Z) :
  valid128 v -> 0 <= n < 128 ->
  clearbit128 NDEBUG v n = Some (Z.clearbit v n).
Proof.
  intros Hv Hn. unfold clearbit128. rewrite mask1bit128_in_range by done.
  cbn [mbind option_bind]. unfold andnot128, vandq_s8, vmvnq_s8. f_equal.
  apply Z.bits_inj'. intros k Hk.
  rewrite Z.clearbit_eqb, Z.land_spec, Z.testbit_mod_pow2 by lia.
  rewrite Z.lnot_spec, Z.pow2_bits_eqb by lia.
  destruct (Z.ltb_spec k 128).
  - by destruct (n =? k), (Z.testbit v k).
  - by rewrite valid128_testbit by (done || lia).
Qed.

End Bits.

(** [mask1bit128(n)] is the vector with bit [n] alone set: the load from
    [simd_onebit_masks] at [(n % 8) * 64 + 95 - n / 8] puts the byte
    [1 << (n % 8)] of the table at byte [n / 8] of the vector and takes zeroes
    around it.  So [testbit128(val, n)] returns bit [n] of [val], as 0 or 1.
    With assertions on, an [n] of 128 or more does not return. *)
Theorem mask1bit128_one_bit (NDEBUG : bool) (val n : Z) :
  0 <= n ->
  (n < 128 ->
   mask1bit128 NDEBUG n = Some (2 ^ n) /\
   testbit128 NDEBUG val n = Some (Z.b2z (Z.testbit val n))) /\
  (128 <= n ->
   mask1bit128 false n = None /\ testbit128 false val n = None).
Proof.
  intros Hn. split; intros H.
  - split; [by apply mask1bit128_in_range|]. apply testbit128_bit. lia.
  - assert (Hm : mask1bit128 false n = None).
    { unfold mask1bit128, assert_.
      by rewrite (proj2 (Z.ltb_ge n (16 * 8))) by lia. }
    split; [done|]. unfold testbit128. by rewrite Hm.
Qed.

(** [setbit128] and [clearbit128] followed by [testbit128]: bit [n] of the
    vector reads 1 after [setbit128(&v, n)] and 0 after [clearbit128(&v, n)],
    every other bit reads as before, and the vector stays within 128 bits. *)
Theorem setbit128_clearbit128_testbit128 (NDEBUG : bool) (v n : Z) :
  valid128 v -> 0 <= n < 128 ->
  exists s c,
    setbit128 NDEBUG v n = Some s /\ clearbit128 NDEBUG v n = Some c /\
    valid128 s /\ valid128 c /\
    forall m, 0 <= m < 128 ->
      testbit128 NDEBUG s m =
        Some (if decide (m = n) then 1 else Z.b2z (Z.testbit v m)) /\
      testbit128 NDEBUG c m =
        Some (if decide (m = n) then 0 else Z.b2z (Z.testbit v m)).
Proof.
  intros Hv Hn. exists (Z.setbit v n), (Z.clearbit v n).
  split; [by apply setbit128_setbit|].
  split; [by apply clearbit128_clearbit|].
  split; [|split].
  - apply testbit_valid128.
    + rewrite Z.setbit_spec'. apply Z.lor_nonneg. split; [apply Hv|].
      apply Z.pow_nonneg. lia.
    + intros k Hk. rewrite Z.setbit_eqb by lia.
      rewrite valid128_testbit by done.
      by rewrite (proj2 (Z.eqb_neq n k)) by lia.
  - apply testbit_valid128.
    + rewrite Z.clearbit_spec'. apply Z.ldiff_nonneg. left. apply Hv.
    + intros k Hk. rewrite Z.clearbit_eqb.
      by rewrite valid128_testbit by done.
  - intros m Hm. rewrite !testbit128_bit by done.
    rewrite Z.setbit_eqb, Z.clearbit_eqb by lia.
    case_decide as Hmn.
    + subst m. rewrite Z.eqb_refl. cbn [orb negb]. by rewrite andb_false_r.
    + rewrite (proj2 (Z.eqb_neq n m)) by lia. cbn [orb negb].
      by rewrite andb_true_r.
Qed.

(** ** Shifts within lanes *)

Lemma lane_0 (w i : Z) : lane w i 0 = 0.
Proof. unfold lane. by rewrite Zdiv_0_l, Zmod_0_l. Qed.

Lemma lane_lanewise1 (w : Z) (n : nat) (f : Z -> Z) (a : Z) (i : nat) :
  0 <= w -> (i < n)%nat ->
  lane w (Z.of_nat i) (lanewise1 w n f a) = f (lane w (Z.of_nat i) a) mod 2 ^ w.
Proof.
  intros Hw Hi. unfold lanewise1. apply lane_of_lanes; [done|].
  by rewrite list_lookup_fmap, lanes_lookup.
Qed.

Lemma lshift_lane (w : Z) (n : nat) (a b r : Z) (i : nat) :
  0 < w -> (i < n)%nat -> 0 <= b ->
  r = (if b =? 0 then a
       else if (1 <=? b) && (b <=? w - 1)
            then lanewise1 w n (fun x => Z.shiftl x b) a
            else 0) ->
  lane w (Z.of_nat i) r = (lane w (Z.of_nat i) a * 2 ^ b) mod 2 ^ w.
Proof.
  intros Hw Hi Hb ->.
  pose proof (lane_range w (Z.of_nat i) a ltac:(lia)) as Hx.
  destruct (Z.eqb_spec b 0) as [->|Hb0].
  - rewrite Z.pow_0_r, Z.mul_1_r. by rewrite Z.mod_small.
  - destruct (Z.leb_spec 1 b), (Z.leb_spec b (w - 1)); cbn [andb]; try lia.
    + rewrite lane_lanewise1 by (done || lia).
      by rewrite Z.shiftl_mul_pow2.
    + rewrite lane_0. replace b with ((b - w) + w) by lia.
      rewrite Z.pow_add_r, Z.mul_assoc by lia.
      pose proof (pow2_pos w ltac:(lia)). by rewrite Z.mod_mul by lia.
Qed.

Lemma rshift_lane (w : Z) (n : nat) (a b r : Z) (i : nat) :
  0 < w -> (i < n)%nat -> 0 <= b ->
  r = (if b =? 0 then a
       else if (1 <=? b) && (b <=? w - 1)
            then lanewise1 w n (fun x => Z.shiftr x b) a
            else 0) ->
  lane w (Z.of_nat i) r = lane w (Z.of_nat i) a / 2 ^ b.
Proof.
  intros Hw Hi Hb ->.
  pose proof (lane_range w (Z.of_nat i) a ltac:(lia)) as Hx.
  pose proof (pow2_pos b Hb) as Hpb.
  destruct (Z.eqb_spec b 0) as [->|Hb0].
  - by rewrite Z.pow_0_r, Z.div_1_r.
  - destruct (Z.leb_spec 1 b), (Z.leb_spec b (w - 1)); cbn [andb]; try lia.
    + rewrite lane_lanewise1 by (done || lia).
      rewrite Z.shiftr_div_pow2 by done. apply Z.mod_small.
      pose proof (Z.mul_div_le (lane w (Z.of_nat i) a) (2 ^ b) Hpb).
      pose proof (Z.div_pos (lane w (Z.of_nat i) a) (2 ^ b) ltac:(lia) Hpb).
      nia.
    + rewrite lane_0. symmetry. apply Z.div_small.
      pose proof (Z.pow_le_mono_r 2 w b ltac:(lia) ltac:(lia)). lia.
Qed.

(** The four shifts within words shift by [b] bits for every [b]
    whatever: [lshift_m128] and [rshift_m128] every 32-bit word,
    [lshift64_m128] and [rshift64_m128] both 64-bit words.  The [default] of
    each [switch], taken from 32 (from 64) on, returns the zeroes a shift by
    that many bits leaves. *)
Theorem shift_m128_words (a b : Z) (i j : nat) :
  0 <= b -> (i < 4)%nat -> (j < 2)%nat ->
  lane 32 (Z.of_nat i) (lshift_m128 a b)
    = (lane 32 (Z.of_nat i) a * 2 ^ b) mod 2 ^ 32 /\
  lane 32 (Z.of_nat i) (rshift_m128 a b) = lane 32 (Z.of_nat i) a / 2 ^ b /\
  lane 64 (Z.of_nat j) (lshift64_m128 a b)
    = (lane 64 (Z.of_nat j) a * 2 ^ b) mod 2 ^ 64 /\
  lane 64 (Z.of_nat j) (rshift64_m128 a b) = lane 64 (Z.of_nat j) a / 2 ^ b.
Proof.
  intros Hb Hi Hj. split; [|split; [|split]].
  - by apply (lshift_lane 32 4 a b).
  - by apply (rshift_lane 32 4 a b).
  - by apply (lshift_lane 64 2 a b).
  - by apply (rshift_lane 64 2 a b).
Qed.

(** ** Building vectors and reading their words *)

Lemma extract32from128_default (v imm : Z) :
  4 <= imm -> extract32from128 v imm = 0.
Proof.
  intros H. destruct imm as [|[[p|p|]|[p|p|]|]|p]; try lia; reflexivity.
Qed.

Lemma extract64from128_default (v imm : Z) :
  2 <= imm -> extract64from128 v imm = 0.
Proof. intros H. destruct imm as [|[p|p|]|p]; try lia; reflexivity. Qed.

(** [set4x32] and [extract32from128]: word [imm] of [set4x32(x3, x2, x1, x0)]
    is [x_imm] for [imm] up to 3 and 0 for every other [imm]; [movd] reads
    [x0], and [set1_4x32(c)] is [set4x32(c, c, c, c)].  The other way round,
    a vector is [set4x32] of its four words. *)
Theorem set4x32_extract32from128 (x3 x2 x1 x0 imm v : Z) :
  0 <= x0 < 2 ^ 32 -> 0 <= x1 < 2 ^ 32 ->
  0 <= x2 < 2 ^ 32 -> 0 <= x3 < 2 ^ 32 -> 0 <= imm -> valid128 v ->
  extract32from128 (set4x32 x3 x2 x1 x0) imm
    = default 0 ([x0; x1; x2; x3] !! Z.to_nat imm) /\
  movd (set4x32 x3 x2 x1 x0) = x0 /\
  valid128 (set4x32 x3 x2 x1 x0) /\
  set1_4x32 x0 = set4x32 x0 x0 x0 x0 /\
  set4x32 (extract32from128 v 3) (extract32from128 v 2)
    (extract32from128 v 1) (extract32from128 v 0) = v.
Proof.
  intros H0 H1 H2 H3 Himm Hv.
  assert (Hl : forall (i : nat) x, [x0; x1; x2; x3] !! i = Some x ->
                 0 <= x < 2 ^ 32 ->
                 lane 32 (Z.of_nat i) (set4x32 x3 x2 x1 x0) = x).
  { intros i x Hx Hr. unfold set4x32, vld1q_u32. cbn [take].
    rewrite (lane_of_lanes 32 _ i x) by (done || lia). by apply Z.mod_small. }
  split; [|split; [|split; [|split]]].
  - assert (Hc : imm = 0 \/ imm = 1 \/ imm = 2 \/ imm = 3 \/ 4 <= imm) by lia.
    destruct Hc as [->|[->|[->|[->|Hc]]]].
    + by apply (Hl 0%nat).
    + by apply (Hl 1%nat).
    + by apply (Hl 2%nat).
    + by apply (Hl 3%nat).
    + rewrite extract32from128_default by done.
      rewrite lookup_ge_None_2; [done|]. cbn [length]. lia.
  - by apply (Hl 0%nat).
  - by apply (of_lanes_valid128 32 [x0; x1; x2; x3]).
  - reflexivity.
  - by apply (valid128_of_lanes 32 4 v).
Qed.

(** [set2x64] and [extract64from128]: word [imm] of [set2x64(hi, lo)] is [lo]
    for 0, [hi] for 1 and 0 for every other [imm]; [movq] reads [lo];
    [low64from128] and [high64from128] move the low and the high word to the
    low half and zero the high half, and so does [load_m128_from_u64a] with
    the value it loads.  The other way round, a vector is [set2x64] of its
    two words. *)
Theorem set2x64_extract64from128 (hi lo imm v : Z) :
  0 <= lo < 2 ^ 64 -> 0 <= hi < 2 ^ 64 -> 0 <= imm -> valid128 v ->
  extract64from128 (set2x64 hi lo) imm
    = default 0 ([lo; hi] !! Z.to_nat imm) /\
  movq (set2x64 hi lo) = lo /\
  low64from128 (set2x64 hi lo) = set2x64 0 lo /\
  high64from128 (set2x64 hi lo) = set2x64 0 hi /\
  load_m128_from_u64a lo = set2x64 0 lo /\
  set1_2x64 lo = set2x64 lo lo /\
  set2x64 (extract64from128 v 1) (extract64from128 v 0) = v.
Proof.
  intros Hlo Hhi Himm Hv.
  assert (Hl : forall (i : nat) x, [lo; hi] !! i = Some x ->
                 0 <= x < 2 ^ 64 ->
                 lane 64 (Z.of_nat i) (set2x64 hi lo) = x).
  { intros i x Hx Hr. unfold set2x64, vld1q_u64. cbn [take].
    rewrite (lane_of_lanes 64 _ i x) by (done || lia). by apply Z.mod_small. }
  split; [|split; [|split; [|split; [|split; [|split]]]]].
  - assert (Hc : imm = 0 \/ imm = 1 \/ 2 <= imm) by lia.
    destruct Hc as [->|[->|Hc]].
    + by apply (Hl 0%nat).
    + by apply (Hl 1%nat).
    + rewrite extract64from128_default by done.
      rewrite lookup_ge_None_2; [done|]. cbn [length]. lia.
  - by apply (Hl 0%nat).
  - unfold low64from128, vget_low_u64, vcombine_u64.
    change (lane 64 0 (set2x64 hi lo))
      with (lane 64 (Z.of_nat 0) (set2x64 hi lo)).
    by rewrite (Hl 0%nat lo).
  - unfold high64from128, vget_high_u64, vcombine_u64.
    change (lane 64 1 (set2x64 hi lo))
      with (lane 64 (Z.of_nat 1) (set2x64 hi lo)).
    by rewrite (Hl 1%nat hi).
  - reflexivity.
  - reflexivity.
  - by apply (valid128_of_lanes 64 2 v).
Qed.


(** ** Shifts by bytes *)

Lemma of_lanes_drop (w : Z) (n : nat) (l : list Z) :
  0 <= w -> of_lanes w (drop n l) = of_lanes w l / 2 ^ (w * Z.of_nat n).
Proof.
  intros Hw. pose proof (pow2_pos w Hw) as Hp. revert l.
  induction n as [|n IH]; intros l.
  - rewrite drop_0, Z.mul_0_r, Z.pow_0_r. by rewrite Z.div_1_r.
  - destruct l as [|x l]; [by rewrite drop_nil, Zdiv_0_l|].
    cbn [drop of_lanes]. rewrite IH.
    pose proof (pow2_pos (w * Z.of_nat n) ltac:(lia)).
    pose proof (Z.mod_pos_bound x (2 ^ w) Hp).
    rewrite Nat2Z.inj_succ, Z.mul_succ_r.
    replace (w * Z.of_nat n + w) with (w + w * Z.of_nat n) by lia.
    rewrite Z.pow_add_r, <- Z.div_div by lia.
    rewrite (Z.mul_comm (2 ^ w)), Z.div_add by lia.
    by rewrite (Z.div_small (x mod 2 ^ w)) by lia.
Qed.

Lemma of_lanes_take (w : Z) (n : nat) (l : list Z) :
  0 <= w -> of_lanes w (take n l) = of_lanes w l mod 2 ^ (w * Z.of_nat n).
Proof.
  intros Hw. pose proof (pow2_pos w Hw) as Hp. revert l.
  induction n as [|n IH]; intros l.
  - rewrite take_0, Z.mul_0_r, Z.pow_0_r. by rewrite Z.mod_1_r.
  - destruct l as [|x l]; [by rewrite take_nil, Zmod_0_l|].
    cbn [take of_lanes]. rewrite IH.
    pose proof (pow2_pos (w * Z.of_nat n) ltac:(lia)).
    pose proof (Z.mod_pos_bound x (2 ^ w) Hp).
    rewrite Nat2Z.inj_succ, Z.mul_succ_r.
    replace (w * Z.of_nat n + w) with (w + w * Z.of_nat n) by lia.
    rewrite Z.pow_add_r, Z.rem_mul_r by lia.
    rewrite (Z.mul_comm (2 ^ w) (of_lanes w l)), Z.mod_add, Z.div_add by lia.
    rewrite Z.mod_mod, (Z.div_small (x mod 2 ^ w)) by lia. done.
Qed.

Lemma of_lanes_app (w : Z) (l1 l2 : list Z) :
  0 <= w ->
  of_lanes w (l1 ++ l2)
  = of_lanes w l1 + 2 ^ (w * Z.of_nat (length l1)) * of_lanes w l2.
Proof.
  intros Hw. induction l1 as [|x l1 IH].
  - cbn [app of_lanes length Z.of_nat]. rewrite Z.mul_0_r, Z.pow_0_r. lia.
  - cbn [app of_lanes length]. rewrite IH.
    rewrite Nat2Z.inj_succ, Z.mul_succ_r.
    replace (w * Z.of_nat (length l1) + w)
      with (w + w * Z.of_nat (length l1)) by lia.
    rewrite Z.pow_add_r by lia. ring.
Qed.

(** [vextq_s8(a, b, n)] takes 16 bytes, from byte [n] on, of the 256-bit
    number made of [a] below [b]. *)
Lemma vextq_s8_concat (a b : Z) (n : nat) :
  valid128 a -> valid128 b ->
  vextq_s8 a b n = ((a + 2 ^ 128 * b) / 2 ^ (8 * Z.of_nat n)) mod 2 ^ 128.
Proof.
  intros Ha Hb. unfold vextq_s8.
  rewrite of_lanes_take, of_lanes_drop, of_lanes_app by lia.
  rewrite lanes_length.
  by rewrite (valid128_of_lanes 8 16 a), (valid128_of_lanes 8 16 b).
Qed.

Lemma palignr_imm_concat (r l offset : Z) :
  valid128 r -> valid128 l -> 0 <= offset <= 16 ->
  palignr_imm r l offset
  = ((l + 2 ^ 128 * r) / 2 ^ (8 * offset)) mod 2 ^ 128.
Proof.
  intros Hr Hl Ho. unfold palignr_imm, valid128 in *.
  destruct (Z.eqb_spec offset 0) as [->|H0].
  - rewrite Z.mul_0_r, Z.pow_0_r, Z.div_1_r.
    rewrite (Z.mul_comm (2 ^ 128)), Z.mod_add by lia. by rewrite Z.mod_small.
  - destruct (Z.leb_spec 1 offset); [|lia].
    destruct (Z.leb_spec offset 15); cbn [andb].
    + rewrite vextq_s8_concat by done. by rewrite Z2Nat.id by lia.
    + assert (offset = 16) as -> by lia. cbn [Z.eqb Pos.eqb].
      change (8 * 16) with 128.
      rewrite (Z.mul_comm (2 ^ 128)), Z.div_add by lia.
      rewrite (Z.div_small l) by lia. by rewrite Z.mod_small.
Qed.

Lemma palignr_imm_default (r l offset : Z) :
  offset < 0 \/ 16 < offset -> palignr_imm r l offset = 0.
Proof.
  intros Ho. unfold palignr_imm.
  destruct (Z.eqb_spec offset 0); [lia|].
  destruct (Z.leb_spec 1 offset), (Z.leb_spec offset 15); cbn [andb]; try lia.
  - destruct (Z.eqb_spec offset 16); [lia|done].
  - destruct (Z.eqb_spec offset 16); [lia|done].
Qed.

Lemma zeroes128_valid : valid128 zeroes128.
Proof. rewrite zeroes128_0. unfold valid128. lia. Qed.

(** Bytes shifted in from the zero vector above: a shift to the right. *)
Lemma palignr_imm_zeroes_above (a k : Z) :
  valid128 a -> 0 <= k -> palignr_imm zeroes128 a k = a / 2 ^ (8 * k).
Proof.
  intros Ha Hk. pose proof (pow2_pos (8 * k) ltac:(lia)) as Hp.
  destruct (Z.le_gt_cases k 16) as [Hle|Hgt].
  - rewrite palignr_imm_concat by (done || apply zeroes128_valid || lia).
    rewrite zeroes128_0, Z.mul_0_r, Z.add_0_r. apply Z.mod_small.
    unfold valid128 in Ha.
    pose proof (Z.mul_div_le a (2 ^ (8 * k)) Hp).
    pose proof (Z.div_pos a (2 ^ (8 * k)) ltac:(lia) Hp). nia.
  - rewrite palignr_imm_default by lia. symmetry. apply Z.div_small.
    unfold valid128 in Ha.
    pose proof (Z.pow_le_mono_r 2 128 (8 * k) ltac:(lia) ltac:(lia)). lia.
Qed.

(** Bytes shifted in from the zero vector below: a shift to the left. *)
Lemma palignr_imm_zeroes_below (a k : Z) :
  valid128 a -> 0 <= k <= 16 ->
  palignr_imm a zeroes128 (16 - k) = (a * 2 ^ (8 * k)) mod 2 ^ 128.
Proof.
  intros Ha Hk.
  rewrite palignr_imm_concat by (done || apply zeroes128_valid || lia).
  rewrite zeroes128_0, Z.add_0_l. f_equal.
  replace 128 with (8 * k + 8 * (16 - k)) at 1 by lia.
  rewrite Z.pow_add_r, (Z.mul_comm _ a), Z.mul_assoc by lia.
  pose proof (pow2_pos (8 * (16 - k)) ltac:(lia)).
  by rewrite Z.div_mul by lia.
Qed.

Lemma shl_bytes_out (a k : Z) : 16 < k -> (a * 2 ^ (8 * k)) mod 2 ^ 128 = 0.
Proof.
  intros Hk. replace (8 * k) with ((8 * k - 128) + 128) by lia.
  rewrite Z.pow_add_r, Z.mul_assoc by lia. by rewrite Z.mod_mul.
Qed.

(** [palignr_imm(r, l, offset)] takes 16 bytes, from byte [offset] on, of
    [l] followed by [r], for [offset] from 0 to 16 ([l] itself at 0, [r] at
    16); an [offset] outside that range gives the zero vector, also between
    17 and 31, where the bytes of [r] are not yet shifted out. *)
Theorem palignr_imm_bytes (r l offset : Z) :
  valid128 r -> valid128 l ->
  palignr_imm r l offset
  = if (0 <=? offset) && (offset <=? 16)
    then ((l + 2 ^ 128 * r) / 2 ^ (8 * offset)) mod 2 ^ 128
    else 0.
Proof.
  intros Hr Hl.
  destruct (Z.leb_spec 0 offset), (Z.leb_spec offset 16); cbn [andb].
  - by apply palignr_imm_concat.
  - apply palignr_imm_default. lia.
  - apply palignr_imm_default. lia.
  - apply palignr_imm_default. lia.
Qed.

(** The byte shifts: [rshiftbyte_m128(a, b)] is [a] shifted right by [b]
    bytes and [lshiftbyte_m128(a, b)] is [a] shifted left by [b] bytes, for
    every [unsigned b] (zero from 16 on, also when [16 - b] wraps around);
    [variable_byte_shift_m128] shifts left by a positive [amount] and right by
    a negative one. *)
Theorem byte_shifts (NDEBUG : bool) (a b amount : Z) :
  valid128 a -> 0 <= b < 2 ^ 32 -> -16 <= amount <= 16 ->
  rshiftbyte_m128 a b = a / 2 ^ (8 * b) /\
  lshiftbyte_m128 a b = (a * 2 ^ (8 * b)) mod 2 ^ 128 /\
  variable_byte_shift_m128 NDEBUG a amount
  = Some (if amount <? 0 then a / 2 ^ (8 * - amount)
          else (a * 2 ^ (8 * amount)) mod 2 ^ 128).
Proof.
  intros Ha Hb Ham. split; [|split].
  - unfold rshiftbyte_m128, palignr, to_int.
    destruct (Z.eqb_spec b 0) as [->|Hb0].
    + by rewrite Z.mul_0_r, Z.pow_0_r, Z.div_1_r.
    + destruct (Z.ltb_spec b (2 ^ 31)).
      * apply palignr_imm_zeroes_above; [done|lia].
      * rewrite palignr_imm_default by lia. symmetry. apply Z.div_small.
        unfold valid128 in Ha.
        pose proof (Z.pow_le_mono_r 2 128 (8 * b) ltac:(lia) ltac:(lia)). lia.
  - unfold lshiftbyte_m128, palignr, to_int.
    destruct (Z.eqb_spec b 0) as [->|Hb0].
    + rewrite Z.mul_0_r, Z.pow_0_r, Z.mul_1_r. symmetry. by apply Z.mod_small.
    + destruct (Z.le_gt_cases b 16) as [Hle|Hgt].
      * rewrite (Z.mod_small (16 - b)) by lia.
        rewrite (proj2 (Z.ltb_lt (16 - b) (2 ^ 31))) by lia.
        apply palignr_imm_zeroes_below; [done|lia].
      * rewrite shl_bytes_out by done.
        assert (Hw : (16 - b) mod 2 ^ 32 = 2 ^ 32 + 16 - b).
        { symmetry. apply (Z.mod_unique_pos _ _ (-1)); lia. }
        rewrite Hw.
        destruct (Z.ltb_spec (2 ^ 32 + 16 - b) (2 ^ 31));
          apply palignr_imm_default; lia.
  - unfold variable_byte_shift_m128, assert_.
    rewrite (proj2 (Z.leb_le (-16) amount)), (proj2 (Z.leb_le amount 16)) by lia.
    cbn [andb]. replace (if NDEBUG then Some () else Some ()) with (Some ())
      by (by destruct NDEBUG).
    cbn [mbind option_bind].
    destruct (Z.ltb_spec amount 0).
    + rewrite (proj2 (Z.eqb_neq amount (- 2 ^ 31))) by lia. f_equal.
      apply palignr_imm_zeroes_above; [done|lia].
    + f_equal. apply palignr_imm_zeroes_below; [done|lia].
Qed.

(** ** Bytes: [movemask128] and [pshufb_m128] *)

Lemma testbit_lane (w i v k : Z) :
  0 <= w -> 0 <= i -> 0 <= k ->
  Z.testbit (lane w i v) k = (k <? w) && Z.testbit v (k + w * i).
Proof.
  intros Hw Hi Hk. unfold lane.
  rewrite Z.testbit_mod_pow2 by done. by rewrite Z.div_pow2_bits by lia.
Qed.

Lemma lane_land (w i a b : Z) :
  0 <= w -> 0 <= i ->
  lane w i (Z.land a b) = Z.land (lane w i a) (lane w i b).
Proof.
  intros Hw Hi. apply Z.bits_inj'. intros k Hk.
  rewrite Z.land_spec, !testbit_lane, Z.land_spec by done.
  by destruct (k <? w), (Z.testbit a _), (Z.testbit b _).
Qed.

Lemma lane_lor (w i a b : Z) :
  0 <= w -> 0 <= i ->
  lane w i (Z.lor a b) = Z.lor (lane w i a) (lane w i b).
Proof.
  intros Hw Hi. apply Z.bits_inj'. intros k Hk.
  rewrite Z.lor_spec, !testbit_lane, Z.lor_spec by done.
  by destruct (k <? w), (Z.testbit a _), (Z.testbit b _).
Qed.

Lemma lor_bytes (a b : Z) :
  0 <= a < 2 ^ 8 -> 0 <= b -> Z.lor a (b * 2 ^ 8) = a + b * 2 ^ 8.
Proof.
  intros Ha Hb.
  assert (Hd : Z.land a (b * 2 ^ 8) = 0).
  { apply Z.bits_inj'. intros k Hk. rewrite Z.land_spec, Z.bits_0.
    destruct (Z.lt_ge_cases k 8).
    - by rewrite Z.mul_pow2_bits_low, andb_false_r by done.
    - rewrite <- (Z.mod_small a (2 ^ 8)) by done.
      rewrite Z.testbit_mod_pow2 by lia.
      by rewrite (proj2 (Z.ltb_ge k 8)). }
  by rewrite <- Z.lxor_lor, <- Z.add_nocarry_lxor.
Qed.

Lemma lanes_8_16 (v : Z) :
  lanes 8 16 v
  = [lane 8 0 v; lane 8 1 v; lane 8 2 v; lane 8 3 v;
     lane 8 4 v; lane 8 5 v; lane 8 6 v; lane 8 7 v;
     lane 8 8 v; lane 8 9 v; lane 8 10 v; lane 8 11 v;
     lane 8 12 v; lane 8 13 v; lane 8 14 v; lane 8 15 v].
Proof. reflexivity. Qed.

(** The three pairwise additions, the byte extraction and the [or], on a
    vector whose byte [i] is at most [1 << (i % 8)]. *)
Lemma movemask128_core (m c0 c1 c2 c3 c4 c5 c6 c7 d0 d1 d2 d3 d4 d5 d6 d7 : Z) :
  lanes 8 16 m = [c0; c1; c2; c3; c4; c5; c6; c7;
                  d0; d1; d2; d3; d4; d5; d6; d7] ->
  0 <= c0 <= 1 -> 0 <= c1 <= 2 -> 0 <= c2 <= 4 -> 0 <= c3 <= 8 ->
  0 <= c4 <= 16 -> 0 <= c5 <= 32 -> 0 <= c6 <= 64 -> 0 <= c7 <= 128 ->
  0 <= d0 <= 1 -> 0 <= d1 <= 2 -> 0 <= d2 <= 4 -> 0 <= d3 <= 8 ->
  0 <= d4 <= 16 -> 0 <= d5 <= 32 -> 0 <= d6 <= 64 -> 0 <= d7 <= 128 ->
  vst1q_lane_u16
    (vorrq_u8 (vpaddlq_u32 (vpaddlq_u16 (vpaddlq_u8 m)))
       (vextq_u8 (vpaddlq_u32 (vpaddlq_u16 (vpaddlq_u8 m))) zeroes128 7)) 0
  = (c0 + c1 + c2 + c3 + c4 + c5 + c6 + c7)
    + (d0 + d1 + d2 + d3 + d4 + d5 + d6 + d7) * 2 ^ 8.
Proof.
  intros Hm ? ? ? ? ? ? ? ? ? ? ? ? ? ? ? ?.
  set (lo := c0 + c1 + c2 + c3 + c4 + c5 + c6 + c7).
  set (hi := d0 + d1 + d2 + d3 + d4 + d5 + d6 + d7).
  assert (Hmask : vpaddlq_u32 (vpaddlq_u16 (vpaddlq_u8 m))
                  = of_lanes 64 [lo; hi]).
  { unfold vpaddlq_u8. rewrite Hm. cbn [pairwise_add].
    unfold vpaddlq_u16.
    rewrite (lanes_of_lanes 16 [_; _; _; _; _; _; _; _]) by lia.
    cbn [fmap list_fmap pairwise_add].
    unfold vpaddlq_u32.
    rewrite (lanes_of_lanes 32 [_; _; _; _]) by lia.
    cbn [fmap list_fmap pairwise_add].
    rewrite !(Z.mod_small _ (2 ^ 16)) by lia.
    rewrite !(Z.mod_small _ (2 ^ 32)) by lia.
    do 2 f_equal; [|f_equal]; unfold lo, hi; lia. }
  rewrite Hmask.
  assert (Hlo : 0 <= lo < 2 ^ 8) by (unfold lo; lia).
  assert (Hhi : 0 <= hi < 2 ^ 8) by (unfold hi; lia).
  assert (Hv : of_lanes 64 [lo; hi] = lo + 2 ^ 64 * hi).
  { cbn [of_lanes]. rewrite !Z.mod_small by lia. lia. }
  unfold vst1q_lane_u16, vorrq_u8, vextq_u8.
  rewrite vextq_s8_concat
    by ((apply (of_lanes_valid128 64 [lo; hi]); (lia || reflexivity))
        || apply zeroes128_valid).
  rewrite lane_lor by lia. rewrite zeroes128_0, Z.mul_0_r, Z.add_0_r, Hv.
  assert (Hl1 : lane 16 0 (lo + 2 ^ 64 * hi) = lo).
  { unfold lane. change (2 ^ (16 * 0)) with 1. rewrite Z.div_1_r.
    change (2 ^ 64) with (2 ^ 48 * 2 ^ 16).
    rewrite <- Z.mul_assoc, (Z.mul_comm (2 ^ 16)), Z.mul_assoc, Z.mod_add by lia.
    apply Z.mod_small. lia. }
  assert (Hl2 : lane 16 0 (((lo + 2 ^ 64 * hi) / 2 ^ (8 * Z.of_nat 7))
                          mod 2 ^ 128) = hi * 2 ^ 8).
  { change (2 ^ (8 * Z.of_nat 7)) with (2 ^ 56).
    assert (Hd : (lo + 2 ^ 64 * hi) / 2 ^ 56 = hi * 2 ^ 8).
    { change (2 ^ 64) with (2 ^ 8 * 2 ^ 56).
      rewrite <- Z.mul_assoc, (Z.mul_comm (2 ^ 56)), Z.mul_assoc,
        Z.div_add by lia.
      rewrite (Z.div_small lo) by lia. lia. }
    rewrite Hd. unfold lane. change (2 ^ (16 * 0)) with 1. rewrite Z.div_1_r.
    rewrite (Z.mod_small _ (2 ^ 128)) by lia. apply Z.mod_small. lia. }
  rewrite Hl1, Hl2. apply lor_bytes; lia.
Qed.

Lemma lanes_land (w : Z) (n : nat) (a b : Z) :
  0 <= w ->
  lanes w n (Z.land a b) = zip_with Z.land (lanes w n a) (lanes w n b).
Proof.
  intros Hw. unfold lanes. induction (seq 0 n) as [|i l IH]; [done|].
  cbn [fmap list_fmap zip_with]. f_equal; [|apply IH].
  apply lane_land; lia.
Qed.

Lemma land_pow2_b2z (x k : Z) :
  0 <= k -> Z.land x (2 ^ k) = Z.b2z (Z.testbit x k) * 2 ^ k.
Proof.
  intros Hk. rewrite Z.land_comm, land_pow2 by done.
  destruct (Z.testbit x k); cbn [Z.b2z]; lia.
Qed.

Lemma b2z_pow2_range (b : bool) (k : Z) : 0 <= Z.b2z b * 2 ^ k <= 2 ^ k.
Proof.
  pose proof (Z.pow_nonneg 2 k ltac:(lia)). destruct b; cbn [Z.b2z]; lia.
Qed.

Lemma movemask128_sum (a : Z) :
  movemask128 a
  = foldr Z.add 0
      ((fun i => Z.b2z (Z.testbit (lane 8 i a) (i mod 8)) * 2 ^ i)
         <$> [0; 1; 2; 3; 4; 5; 6; 7; 8; 9; 10; 11; 12; 13; 14; 15]).
Proof.
  set (bit := fun i => Z.b2z (Z.testbit (lane 8 i a) (i mod 8))).
  change (movemask128 a
          = bit 0 * 1 + (bit 1 * 2 + (bit 2 * 4 + (bit 3 * 8 +
            (bit 4 * 16 + (bit 5 * 32 + (bit 6 * 64 + (bit 7 * 128 +
            (bit 8 * 256 + (bit 9 * 512 + (bit 10 * 1024 + (bit 11 * 2048 +
            (bit 12 * 4096 + (bit 13 * 8192 + (bit 14 * 16384 +
            (bit 15 * 32768 + 0)))))))))))))))).
  unfold movemask128. cbv zeta.
  rewrite (movemask128_core _
             (bit 0 * 2 ^ 0) (bit 1 * 2 ^ 1) (bit 2 * 2 ^ 2) (bit 3 * 2 ^ 3)
             (bit 4 * 2 ^ 4) (bit 5 * 2 ^ 5) (bit 6 * 2 ^ 6) (bit 7 * 2 ^ 7)
             (bit 8 * 2 ^ 0) (bit 9 * 2 ^ 1) (bit 10 * 2 ^ 2) (bit 11 * 2 ^ 3)
             (bit 12 * 2 ^ 4) (bit 13 * 2 ^ 5) (bit 14 * 2 ^ 6)
             (bit 15 * 2 ^ 7));
    try apply b2z_pow2_range.
  - lia.
  - unfold vandq_u8. rewrite lanes_land by lia.
    rewrite (lanes_8_16 a). unfold bit.
    change (lanes 8 16 (of_lanes 8 _))
      with [2 ^ 0; 2 ^ 1; 2 ^ 2; 2 ^ 3; 2 ^ 4; 2 ^ 5; 2 ^ 6; 2 ^ 7;
            2 ^ 0; 2 ^ 1; 2 ^ 2; 2 ^ 3; 2 ^ 4; 2 ^ 5; 2 ^ 6; 2 ^ 7].
    cbn [zip_with]. by rewrite !land_pow2_b2z by lia.
Qed.

Lemma lane_lanewise2 (w : Z) (n : nat) (f : Z -> Z -> Z) (a b i : Z) :
  0 <= w -> 0 <= i < Z.of_nat n ->
  lane w i (lanewise2 w n f a b) = f (lane w i a) (lane w i b) mod 2 ^ w.
Proof.
  intros Hw Hi. rewrite <- (Z2Nat.id i) by lia. unfold lanewise2.
  apply lane_of_lanes; [done|].
  rewrite lookup_zip_with, !lanes_lookup by lia. done.
Qed.

Lemma testbit_byte_mask (e : bool) (k : Z) :
  0 <= k < 8 -> Z.testbit (if e then 2 ^ 8 - 1 else 0) k = e.
Proof.
  intros Hk. destruct e; [|apply Z.bits_0].
  change (2 ^ 8 - 1) with (Z.ones 8). rewrite Z.testbit_ones by lia.
  by rewrite (proj2 (Z.leb_le 0 k)), (proj2 (Z.ltb_lt k 8)) by lia.
Qed.

Lemma movemask128_eq128_bit (a b i : Z) :
  0 <= i < 16 ->
  Z.b2z (Z.testbit (lane 8 i (eq128 a b)) (i mod 8)) * 2 ^ i
  = Z.b2z (lane 8 i a =? lane 8 i b) * 2 ^ i.
Proof.
  intros Hi. unfold eq128, vceqq_u8, vceq.
  rewrite lane_lanewise2 by lia.
  assert (Hk : 0 <= i mod 8 < 8) by (apply Z.mod_pos_bound; lia).
  rewrite Z.mod_small by (destruct (_ =? _); lia).
  by rewrite testbit_byte_mask.
Qed.

(** [movemask128(a)] collects one bit of every byte: bit [i] of the
    result, for [i] up to 15, is bit [i % 8] of byte [i] of [a] (not bit 7 of
    that byte), and the bits above are zero.  On the result of [eq128], whose
    bytes are 0x00 or 0xFF, bit [i] says that the bytes [i] of the two vectors
    are equal. *)
Theorem movemask128_bits (a b : Z) :
  movemask128 a
  = foldr Z.add 0
      ((fun i => Z.b2z (Z.testbit (lane 8 i a) (i mod 8)) * 2 ^ i)
         <$> [0; 1; 2; 3; 4; 5; 6; 7; 8; 9; 10; 11; 12; 13; 14; 15]) /\
  movemask128 (eq128 a b)
  = foldr Z.add 0
      ((fun i => Z.b2z (lane 8 i a =? lane 8 i b) * 2 ^ i)
         <$> [0; 1; 2; 3; 4; 5; 6; 7; 8; 9; 10; 11; 12; 13; 14; 15]).
Proof.
  split; [apply movemask128_sum|].
  rewrite movemask128_sum. f_equal. apply Forall_fmap_ext.
  repeat constructor; apply movemask128_eq128_bit; lia.
Qed.

Lemma land_8f_table :
  forallb (fun k : nat =>
             let x := Z.of_nat k in
             Z.land x 0x8f
             =? (if Z.testbit x 7 then 128 + x mod 16 else x mod 16))
    (seq 0 256) = true.
Proof. vm_compute. reflexivity. Qed.

Lemma land_8f (x : Z) :
  0 <= x < 256 ->
  Z.land x 0x8f = if Z.testbit x 7 then 128 + x mod 16 else x mod 16.
Proof.
  intros Hx.
  pose proof (proj1 (List.forallb_forall _ _) land_8f_table (Z.to_nat x)) as H.
  cbv beta zeta in H. rewrite Z2Nat.id in H by lia.
  apply Z.eqb_eq, H, in_seq. lia.
Qed.

Lemma lane_vdupq_n_s8 (c i : Z) :
  0 <= i < 16 -> lane 8 i (vdupq_n_s8 c) = c mod 2 ^ 8.
Proof.
  intros Hi. rewrite <- (Z2Nat.id i) by lia. unfold vdupq_n_s8.
  apply lane_of_lanes; [lia|]. apply lookup_replicate_2. lia.
Qed.

(** [pshufb_m128] shuffles as the Intel instruction does: byte [i] of
    the result is zero when bit 7 of byte [i] of [b] is set, and otherwise the
    byte of [a] that the low four bits of that byte select. *)
Theorem pshufb_m128_bytes (a b i : Z) :
  0 <= i < 16 ->
  lane 8 i (pshufb_m128 a b)
  = if Z.testbit (lane 8 i b) 7 then 0 else lane 8 (lane 8 i b mod 16) a.
Proof.
  intros Hi. unfold pshufb_m128, vqtbl1q_s8, vandq_s8.
  rewrite <- (Z2Nat.id i) at 1 by lia.
  rewrite lane_lanewise1 by lia. rewrite Z2Nat.id by lia.
  rewrite lane_land, lane_vdupq_n_s8 by lia.
  change (0x8f mod 2 ^ 8) with 0x8f.
  pose proof (lane_range 8 i b ltac:(lia)) as Hb.
  rewrite land_8f by (change 256 with (2 ^ 8); done).
  pose proof (Z.mod_pos_bound (lane 8 i b) 16 ltac:(lia)) as Hm.
  destruct (Z.testbit (lane 8 i b) 7).
  - by rewrite (proj2 (Z.ltb_ge _ 16)) by lia.
  - rewrite (proj2 (Z.ltb_lt _ 16)) by lia.
    apply Z.mod_small, lane_range. lia.
Qed.

(** ** The theorems at concrete vectors *)

Lemma diff128_decides_witness :
  diff128 5 7 = (if decide (5 = 7) then 0 else 1) /\
  isnonzero128 5 = (if decide (5 = 0) then 0 else 1).
Proof. apply diff128_decides; unfold valid128; lia. Defined.

Lemma mask1bit128_one_bit_witness :
  (77 < 128 ->
   mask1bit128 false 77 = Some (2 ^ 77) /\
   testbit128 false (2 ^ 77 + 1) 77
   = Some (Z.b2z (Z.testbit (2 ^ 77 + 1) 77))) /\
  (128 <= 77 ->
   mask1bit128 false 77 = None /\ testbit128 false (2 ^ 77 + 1) 77 = None).
Proof. apply (mask1bit128_one_bit false (2 ^ 77 + 1) 77). lia. Defined.

Lemma setbit128_clearbit128_testbit128_witness :
  exists s c,
    setbit128 false 5 3 = Some s /\ clearbit128 false 5 3 = Some c /\
    valid128 s /\ valid128 c /\
    forall m, 0 <= m < 128 ->
      testbit128 false s m =
        Some (if decide (m = 3) then 1 else Z.b2z (Z.testbit 5 m)) /\
      testbit128 false c m =
        Some (if decide (m = 3) then 0 else Z.b2z (Z.testbit 5 m)).
Proof.
  apply (setbit128_clearbit128_testbit128 false 5 3); unfold valid128; lia.
Defined.

Lemma shift_m128_words_witness :
  lane 32 (Z.of_nat 3) (lshift_m128 (2 ^ 127 + 1) 40)
    = (lane 32 (Z.of_nat 3) (2 ^ 127 + 1) * 2 ^ 40) mod 2 ^ 32 /\
  lane 32 (Z.of_nat 3) (rshift_m128 (2 ^ 127 + 1) 40)
    = lane 32 (Z.of_nat 3) (2 ^ 127 + 1) / 2 ^ 40 /\
  lane 64 (Z.of_nat 1) (lshift64_m128 (2 ^ 127 + 1) 40)
    = (lane 64 (Z.of_nat 1) (2 ^ 127 + 1) * 2 ^ 40) mod 2 ^ 64 /\
  lane 64 (Z.of_nat 1) (rshift64_m128 (2 ^ 127 + 1) 40)
    = lane 64 (Z.of_nat 1) (2 ^ 127 + 1) / 2 ^ 40.
Proof. apply (shift_m128_words (2 ^ 127 + 1) 40 3 1); lia. Defined.

Lemma set4x32_extract32from128_witness :
  extract32from128 (set4x32 4 3 2 1) 2
    = default 0 ([1; 2; 3; 4] !! Z.to_nat 2) /\
  movd (set4x32 4 3 2 1) = 1 /\
  valid128 (set4x32 4 3 2 1) /\
  set1_4x32 1 = set4x32 1 1 1 1 /\
  set4x32 (extract32from128 (2 ^ 100) 3) (extract32from128 (2 ^ 100) 2)
    (extract32from128 (2 ^ 100) 1) (extract32from128 (2 ^ 100) 0) = 2 ^ 100.
Proof.
  apply (set4x32_extract32from128 4 3 2 1 2 (2 ^ 100)); unfold valid128; lia.
Defined.

Lemma set2x64_extract64from128_witness :
  extract64from128 (set2x64 9 8) 1 = default 0 ([8; 9] !! Z.to_nat 1) /\
  movq (set2x64 9 8) = 8 /\
  low64from128 (set2x64 9 8) = set2x64 0 8 /\
  high64from128 (set2x64 9 8) = set2x64 0 9 /\
  load_m128_from_u64a 8 = set2x64 0 8 /\
  set1_2x64 8 = set2x64 8 8 /\
  set2x64 (extract64from128 (2 ^ 100) 1) (extract64from128 (2 ^ 100) 0)
  = 2 ^ 100.
Proof.
  apply (set2x64_extract64from128 9 8 1 (2 ^ 100)); unfold valid128; lia.
Defined.

Lemma palignr_imm_bytes_witness :
  palignr_imm (2 ^ 100) 7 3
  = if (0 <=? 3) && (3 <=? 16)
    then ((7 + 2 ^ 128 * 2 ^ 100) / 2 ^ (8 * 3)) mod 2 ^ 128
    else 0.
Proof. apply (palignr_imm_bytes (2 ^ 100) 7 3); unfold valid128; lia. Defined.

Lemma byte_shifts_witness :
  rshiftbyte_m128 (2 ^ 100) 5 = 2 ^ 100 / 2 ^ (8 * 5) /\
  lshiftbyte_m128 (2 ^ 100) 5 = (2 ^ 100 * 2 ^ (8 * 5)) mod 2 ^ 128 /\
  variable_byte_shift_m128 false (2 ^ 100) (-3)
  = Some (if -3 <? 0 then 2 ^ 100 / 2 ^ (8 * - -3)
          else (2 ^ 100 * 2 ^ (8 * -3)) mod 2 ^ 128).
Proof. apply (byte_shifts false (2 ^ 100) 5 (-3)); unfold valid128; lia. Defined.

Lemma pshufb_m128_bytes_witness :
  lane 8 2 (pshufb_m128 (2 ^ 100) 5)
  = if Z.testbit (lane 8 2 5) 7 then 0
    else lane 8 (lane 8 2 5 mod 16) (2 ^ 100).
Proof. apply (pshufb_m128_bytes (2 ^ 100) 5 2). lia. Defined.

End Simd.
